(** * Reliability over UDP: a shallow embedding of the two senders
      (p1_server.py, p2_server.py) and of the receiver (p2_client.py).

    Python integers are [Z]; [None]-or-int values are [option Z]; sets of
    sequence numbers are [gset Z]; the [send_times] and [receive_buffer]
    dictionaries are [gmap]s; datagrams are lists of bytes.  Python floats
    (clock readings, RTT samples, the congestion window) are modelled as
    exact rationals [Q]: rounding is not modelled.  An uncaught Python
    exception is the [Raise] outcome of the [result] type.

    The environment is an input: what [recvfrom] yields is a [recv_event],
    what [time.time()] reads is a field of a [clock].  [sendto] appends to
    an outbox.  Of the printed messages only the warning that ends the EOF
    phase is kept. *)

From Stdlib Require Import ZArith QArith Qabs Lia Lqa List.
From Stdlib.Strings Require Import Byte.
From stdpp Require Import base decidable option list sorting gmap fin_sets.

Local Open Scope Z_scope.

(** ** Outcomes of a Python computation *)

Inductive exn : Type :=
  | TypeError     (* an int compared with None *)
  | IndexError    (* a list indexed out of range *)
  | StructError   (* struct.pack / struct.unpack on a bad argument *)
  | ValueError    (* min() of an empty set *)
  | KeyError.     (* set.remove of an absent element *)

Inductive result (A : Type) : Type :=
  | Ok (a : A)
  | Raise (e : exn).
Arguments Ok {A} a.
Arguments Raise {A} e.

Definition rbind {A B} (m : result A) (k : A → result B) : result B :=
  match m with
  | Ok a => k a
  | Raise e => Raise e
  end.

#[global] Instance result_bind : MBind result := λ A B k m, rbind m k.
#[global] Instance result_ret : MRet result := @Ok.
#[global] Instance result_fmap : FMap result :=
  λ A B f m, rbind m (λ a, Ok (f a)).

(** [for x in l: body], where [body] may raise. *)
Fixpoint rfold {A S} (body : A → S → result S) (l : list A) (s : S) : result S :=
  match l with
  | [] => Ok s
  | x :: l' => s' ← body x s; rfold body l' s'
  end.

(** [l[i]] for a Python list: a negative index counts from the end, an index
    outside [-len, len) raises IndexError. *)
Definition py_index {A} (l : list A) (i : Z) : result A :=
  let n := Z.of_nat (length l) in
  let j := if i <? 0 then n + i else i in
  if (0 <=? j) && (j <? n) then
    match l !! Z.to_nat j with
    | Some a => Ok a
    | None => Raise IndexError
    end
  else Raise IndexError.

(** [a == b] where each side is None or an int. *)
Definition py_eqb (a b : option Z) : bool :=
  match a, b with
  | Some x, Some y => x =? y
  | None, None => true
  | _, _ => false
  end.

(** [n < c] and [c > n] where [c] is None or an int: Python 3 raises
    TypeError on None. *)
Definition py_lt (n : Z) (c : option Z) : result bool :=
  match c with
  | Some c' => Ok (n <? c')
  | None => Raise TypeError
  end.

Definition py_gt (c : option Z) (n : Z) : result bool := py_lt n c.

(** [a == b] on bytes objects. *)
Fixpoint bytes_eqb (a b : list byte) : bool :=
  match a, b with
  | [], [] => true
  | x :: a', y :: b' => Byte.eqb x y && bytes_eqb a' b'
  | _, _ => false
  end.

(** Comparisons on the rational model of floats. *)
Definition Qltb (x y : Q) : bool := negb (Qle_bool y x).
Definition Qeqb (x y : Q) : bool := Qeq_bool x y.

(** ** Wire codec *)

Module Wire.

Definition MAX_PAYLOAD_SIZE : Z := 1200.
Definition HEADER_SIZE : Z := 20.
Definition DATA_SIZE : Z := MAX_PAYLOAD_SIZE - HEADER_SIZE.
Definition SEQ_NUM_SIZE : Z := 4.
Definition RESERVED_SIZE : Z := 16.
Definition EOF_MARKER : list byte := [x45; x4f; x46].

Definition byte_of_Z (n : Z) : byte :=
  match Byte.of_N (Z.to_N (n mod 256)) with
  | Some b => b
  | None => x00
  end.

Definition Z_of_byte (b : byte) : Z := Z.of_N (Byte.to_N b).

(** [struct.pack("!I", n)]: four bytes, most significant first; raises
    struct.error outside [0, 2^32). *)
Definition pack_u32 (n : Z) : result (list byte) :=
  if (0 <=? n) && (n <? 2 ^ 32) then
    Ok [byte_of_Z (Z.shiftr n 24); byte_of_Z (Z.shiftr n 16);
        byte_of_Z (Z.shiftr n 8); byte_of_Z n]
  else Raise StructError.

(** [struct.unpack("!I", bs)[0]]: raises unless [bs] has exactly 4 bytes. *)
Definition unpack_u32 (bs : list byte) : result Z :=
  match bs with
  | [b3; b2; b1; b0] =>
      Ok (Z.lor (Z.shiftl (Z_of_byte b3) 24)
         (Z.lor (Z.shiftl (Z_of_byte b2) 16)
         (Z.lor (Z.shiftl (Z_of_byte b1) 8) (Z_of_byte b0))))
  | _ => Raise StructError
  end.

(** [bs[i:j]] for 0 <= i <= j. *)
Definition slice (bs : list byte) (i j : Z) : list byte :=
  take (Z.to_nat (j - i)) (drop (Z.to_nat i) bs).

Definition zeros (n : Z) : list byte := replicate (Z.to_nat n) x00.

(** create_packet of both senders: seq, 16 zero bytes, payload. *)
Definition create_packet (seq_num : Z) (data : list byte) : result (list byte) :=
  seq_bytes ← pack_u32 seq_num;
  Ok (seq_bytes ++ zeros RESERVED_SIZE ++ data).

(** parse_ack of both senders: [(None, [])] on a short datagram, else the
    cumulative ACK and the non-zero SACK pairs. *)
Definition parse_block (sack_bytes : list byte) (i : Z) : result (list (Z * Z)) :=
  start ← unpack_u32 (slice sack_bytes i (i + 4));
  end_ ← unpack_u32 (slice sack_bytes (i + 4) (i + 8));
  if (start =? 0) && (end_ =? 0) then Ok [] else Ok [(start, end_)].

Definition parse_ack (ack_packet : list byte)
  : result (option Z * list (Z * Z)) :=
  if Z.of_nat (length ack_packet) <? SEQ_NUM_SIZE + RESERVED_SIZE then
    Ok (None, [])
  else
    cum_ack ← unpack_u32 (slice ack_packet 0 4);
    let sack_bytes := slice ack_packet 4 (4 + RESERVED_SIZE) in
    b0 ← parse_block sack_bytes 0;
    b1 ← parse_block sack_bytes 8;
    Ok (Some cum_ack, b0 ++ b1).

(** parse_packet of the receiver: [(None, None)] on a short datagram. *)
Definition parse_packet (packet : list byte)
  : result (option (Z * list byte)) :=
  if Z.of_nat (length packet) <? HEADER_SIZE then Ok None
  else
    seq ← unpack_u32 (slice packet 0 4);
    Ok (Some (seq, drop (Z.to_nat HEADER_SIZE) packet)).

(** create_ack of the receiver: cumulative value, then at most two SACK
    pairs, padded with zero words. *)
Fixpoint pack_blocks (bl : list (Z * Z)) : result (list (list byte)) :=
  match bl with
  | [] => Ok []
  | (s, e) :: bl' =>
      ps ← pack_u32 s;
      pe ← pack_u32 e;
      rest ← pack_blocks bl';
      Ok (ps :: pe :: rest)
  end.

Definition pad_parts (parts : list (list byte)) : list (list byte) :=
  parts ++ replicate (4 - length parts)%nat [x00; x00; x00; x00].

Definition create_ack (next_expected_seq : Z) (sack_blocks : list (Z * Z))
  : result (list byte) :=
  seq_bytes ← pack_u32 next_expected_seq;
  parts ← pack_blocks (take 2 sack_blocks);
  Ok (seq_bytes ++ concat (pad_parts parts)).

End Wire.

(** ** RTT / RTO estimator (update_rto_on_sample, identical in both senders) *)

Module Estimator.

Definition TIMEOUT_INITIAL : Q := 1.
Definition ALPHA : Q := 125 # 1000.
Definition BETA : Q := 25 # 100.

Record t := mk {
  estimated_rtt : Q;
  dev_rtt : Q;
  rto : Q
}.

Definition init : t :=
  {| estimated_rtt := TIMEOUT_INITIAL; dev_rtt := 0; rto := TIMEOUT_INITIAL |}.

(** Python's [min(a, b)] returns [b] only when [b < a]; [max(a, b)] returns
    [b] only when [b > a]. *)
Definition py_min (a b : Q) : Q := if Qltb b a then b else a.
Definition py_max (a b : Q) : Q := if Qltb a b then b else a.

Definition update_rto_on_sample (sample_rtt : Q) (st : t) : t :=
  let '(est, dev) :=
    if Qeqb (estimated_rtt st) TIMEOUT_INITIAL then
      (sample_rtt, sample_rtt / 2)%Q
    else
      let dev' := ((1 - BETA) * dev_rtt st
                   + BETA * Qabs (sample_rtt - estimated_rtt st))%Q in
      let est' := ((1 - ALPHA) * estimated_rtt st + ALPHA * sample_rtt)%Q in
      (est', dev') in
  {| estimated_rtt := est;
     dev_rtt := dev;
     rto := py_max (5 # 100) (py_min (est + 4 * dev)%Q 5) |}.

End Estimator.

(** ** Retransmission tracker: the four fields both senders keep on [self] *)

Module Tracker.

Record t := mk {
  sent_once : gset Z;          (* seq numbers sent at least once *)
  unacked : gset Z;            (* sent and not yet acknowledged *)
  send_times : gmap Z Q;       (* seq -> time of the most recent send *)
  bytes_in_flight : Z
}.

Definition init : t :=
  {| sent_once := ∅; unacked := ∅; send_times := ∅; bytes_in_flight := 0 |}.

End Tracker.

(** ** Code that p1_server.py and p2_server.py share line for line *)

Module Sender.
Import Tracker.

(** The split of the file into payloads of DATA_SIZE bytes
    ([while offset < len(file_data)]); every turn advances [offset] by
    DATA_SIZE, so [length file_data] turns are enough. *)
Fixpoint split_from (fuel : nat) (file_data : list byte) (offset : Z)
  : list (list byte) :=
  match fuel with
  | O => []
  | S fuel' =>
      if offset <? Z.of_nat (length file_data) then
        Wire.slice file_data offset (offset + Wire.DATA_SIZE)
          :: split_from fuel' file_data (offset + Wire.DATA_SIZE)
      else []
  end.

Definition split_file (file_data : list byte) : list (list byte) :=
  split_from (length file_data) file_data 0.

Definition lengths (packets : list (list byte)) : list Z :=
  (λ chunk, Z.of_nat (length chunk)) <$> packets.

(** First transmission or re-send of [seq] at time [now]: the body of the
    admission loop after [sendto]. *)
Definition record_send (packet_bytes : list Z) (seq : Z) (now : Q) (tr : t)
  : result t :=
  if decide (seq ∈ sent_once tr) then
    Ok {| sent_once := sent_once tr; unacked := unacked tr;
          send_times := <[seq := now]> (send_times tr);
          bytes_in_flight := bytes_in_flight tr |}
  else
    len ← py_index packet_bytes seq;
    Ok {| sent_once := {[seq]} ∪ sent_once tr;
          unacked := {[seq]} ∪ unacked tr;
          send_times := <[seq := now]> (send_times tr);
          bytes_in_flight := bytes_in_flight tr + len |}.

(** [min(self.unacked)]. *)
Definition set_min (X : gset Z) : result Z :=
  match elements X with
  | [] => Raise ValueError
  | x :: l => Ok (foldr Z.min x l)
  end.

(** [for seq in list(self.unacked): if seq < cum_ack: newly_acked.add(seq)];
    the loop builds a set and raises the same TypeError at whichever member
    it meets first, so the order of the iteration does not show in the
    result. *)
Definition collect_cum (cum_ack : option Z) (un : gset Z) : result (gset Z) :=
  rfold (λ seq acc, b ← py_lt seq cum_ack;
                    Ok (if b : bool then {[seq]} ∪ acc else acc))
        (elements un) ∅.

(** [for seq in range(s, e + 1): if seq in self.unacked: newly_acked.add(seq)] *)
Definition collect_range (un : gset Z) (s e : Z) (acc : gset Z) : gset Z :=
  foldl (λ acc seq, if decide (seq ∈ un) then {[seq]} ∪ acc else acc)
        acc (seqZ s (e + 1 - s)).

(** The release loop [for seq in sorted(newly_acked)]; the third component
    logs every call of update_rto_on_sample as (seq, sample). *)
Definition release_one (packet_bytes : list Z) (now : Q) (seq : Z)
    (s : t * Estimator.t * list (Z * Q)) : result (t * Estimator.t * list (Z * Q)) :=
  let '(tr, est, log) := s in
  let un := if decide (seq ∈ unacked tr) then unacked tr ∖ {[seq]}
            else unacked tr in
  len ← py_index packet_bytes seq;
  let bif := bytes_in_flight tr - len in
  match send_times tr !! seq with
  | Some t0 =>
      let sample_rtt := (now - t0)%Q in
      Ok ({| sent_once := sent_once tr; unacked := un;
             send_times := delete seq (send_times tr);
             bytes_in_flight := bif |},
          Estimator.update_rto_on_sample sample_rtt est,
          log ++ [(seq, sample_rtt)])
  | None =>
      Ok ({| sent_once := sent_once tr; unacked := un;
             send_times := send_times tr;
             bytes_in_flight := bif |}, est, log)
  end.

Definition sorted (X : gset Z) : list Z := merge_sort Z.le (elements X).

Definition release (packet_bytes : list Z) (now : Q) (newly_acked : gset Z)
    (s : t * Estimator.t * list (Z * Q)) : result (t * Estimator.t * list (Z * Q)) :=
  rfold (release_one packet_bytes now) (sorted newly_acked) s.

(** The timer scan: [send_t and (now - send_t > self.rto)]; a missing
    entry ([None]) and the float 0.0 are both falsy. *)
Definition expired (now rto : Q) (times : gmap Z Q) (seq : Z) : bool :=
  match times !! seq with
  | Some send_t => negb (Qeqb send_t 0) && Qltb rto (now - send_t)%Q
  | None => false
  end.

(** [list(self.unacked)]: Python does not fix the order in which a set is
    iterated, so the order is an input.  [place seq] is the position the
    iteration gives [seq]; [scan] yields the members of the set by ascending
    position, and every listing of the set is the scan for some [place]. *)
Definition before (place : Z → Z) (a b : Z) : Prop := place a ≤ place b.

#[global] Instance before_dec (place : Z → Z) : RelDecision (before place) :=
  λ a b, decide (place a ≤ place b).

Definition scan (place : Z → Z) (X : gset Z) : list Z :=
  merge_sort (before place) (elements X).

(** [for seq in list(self.unacked): ... if send_t and (now - send_t >
    self.rto): timed_out_seqs.append(seq)]: the expired packets, in the order
    of the iteration. *)
Definition timed_out (place : Z → Z) (now rto : Q) (tr : t) : list Z :=
  List.filter (expired now rto (send_times tr)) (scan place (unacked tr)).

(** Re-send of [seq]: [create_packet], [sendto], [send_times[seq] = time.time()].
    [stamp seq] is the clock reading taken for [seq]. *)
Definition retransmit (packets : list (list byte)) (stamp : Z → Q) (seq : Z)
    (s : t * list (list byte)) : result (t * list (list byte)) :=
  let '(tr, outbox) := s in
  data ← py_index packets seq;
  pkt ← Wire.create_packet seq data;
  Ok ({| sent_once := sent_once tr; unacked := unacked tr;
         send_times := <[seq := stamp seq]> (send_times tr);
         bytes_in_flight := bytes_in_flight tr |},
      outbox ++ [pkt]).

(** The 20-byte header of the data packet [seq], for [seq] one byte wide. *)
Definition header_of (seq : Z) : list byte :=
  [x00; x00; x00; Wire.byte_of_Z seq] ++ Wire.zeros Wire.RESERVED_SIZE.

(** What one [recvfrom] yields. *)
Inductive recv_event : Type :=
  | Datagram (packet : list byte)
  | SockTimeout.

(** What one turn of a send loop takes from its environment: the clock
    readings ([time.time()]) and the order in which the timer scan iterates
    the set [self.unacked]. *)
Record clock := mk_clock {
  stamp : Z → Q;       (* at the (re)transmission of a given seq *)
  t_fast : Q;          (* at a fast retransmit *)
  t_sweep : Q;         (* at the start of a timer scan *)
  t_release : Q;       (* [now] of the release loop *)
  t_cubic : Q;         (* inside cubic_update *)
  set_order : Z → Z    (* the place of a seq in [list(self.unacked)] *)
}.

(** How the EOF phase ends.  [EofWaiting]: the listed events are used up and
    the sender sits in [recvfrom]. *)
Inductive eof_outcome : Type :=
  | EofAcked
  | EofGaveUp (warned : bool)
  | EofWaiting.

(** start() of both servers waits for the request: timeouts and empty
    datagrams are passed over.  [Some rest]: the events left after the first
    non-empty datagram; [None]: the server is still waiting. *)
Fixpoint await_request (events : list recv_event) : option (list recv_event) :=
  match events with
  | [] => None
  | Datagram [] :: events' => await_request events'
  | Datagram (_ :: _) :: events' => Some events'
  | SockTimeout :: events' => await_request events'
  end.


End Sender.

(** ** p1_server.py: the fixed-window sender *)

Module P1.
Import Tracker Sender.

Record state := mk {
  window_size : Z;
  packets : list (list byte);
  packet_bytes : list Z;
  trk : Tracker.t;
  est : Estimator.t;
  next_seq : Z;
  last_cum_ack : option Z;
  dup_ack_count : Z;
  outbox : list (list byte);     (* datagrams given to sendto, oldest first *)
  samples : list (Z * Q)         (* calls of update_rto_on_sample, oldest first *)
}.

Definition total_packets (st : state) : Z := Z.of_nat (length (packets st)).

(** __init__ and the head of send_file, up to the main loop. *)
Definition start (window_size : Z) (file_data : list byte) : state :=
  let pk := split_file file_data in
  {| window_size := window_size; packets := pk; packet_bytes := lengths pk;
     trk := Tracker.init; est := Estimator.init;
     next_seq := 0; last_cum_ack := Some (-1); dup_ack_count := 0;
     outbox := []; samples := [] |}.

Definition with_send (st : state) (tr : Tracker.t) (pkt : list byte) : state :=
  {| window_size := window_size st; packets := packets st;
     packet_bytes := packet_bytes st; trk := tr; est := est st;
     next_seq := next_seq st + 1; last_cum_ack := last_cum_ack st;
     dup_ack_count := dup_ack_count st; outbox := outbox st ++ [pkt];
     samples := samples st |}.

(** The inner [while] that sends new packets while the window allows. *)
Fixpoint send_new_loop (fuel : nat) (stamp : Z → Q) (st : state) : result state :=
  match fuel with
  | O => Ok st
  | S fuel' =>
      if next_seq st <? total_packets st then
        len ← py_index (packet_bytes st) (next_seq st);
        if bytes_in_flight (trk st) + len <=? window_size st then
          data ← py_index (packets st) (next_seq st);
          pkt ← Wire.create_packet (next_seq st) data;
          tr ← record_send (packet_bytes st) (next_seq st) (stamp (next_seq st)) (trk st);
          send_new_loop fuel' stamp (with_send st tr pkt)
        else Ok st
      else Ok st
  end.

Definition send_new (stamp : Z → Q) (st : state) : result state :=
  send_new_loop (Z.to_nat (total_packets st - next_seq st)) stamp st.

(** [next_seq >= total_packets and len(self.unacked) == 0] *)
Definition all_acked (st : state) : bool :=
  (total_packets st <=? next_seq st) && (size (unacked (trk st)) =? 0)%nat.

(** SACK blocks are clipped to [0, total_packets - 1]. *)
Definition collect_sack (total : Z) (un : gset Z) (blocks : list (Z * Z))
    (acc : gset Z) : gset Z :=
  foldl (λ acc '(start, end_),
           collect_range un (Z.max 0 start) (Z.min end_ (total - 1)) acc)
        acc blocks.

(** Lines 153-176: collect the newly acknowledged, then release them. *)
Definition process_acked (now : Q) (cum_ack : option Z) (sack_blocks : list (Z * Z))
    (total : Z) (packet_bytes : list Z) (s : Tracker.t * Estimator.t * list (Z * Q))
  : result (Tracker.t * Estimator.t * list (Z * Q)) :=
  by_cum ← collect_cum cum_ack (unacked s.1.1);
  let newly_acked := collect_sack total (unacked s.1.1) sack_blocks by_cum in
  release packet_bytes now newly_acked s.

(** The [try] branch of the main loop, from [parse_ack] on. *)
Definition on_ack (clk : clock) (ack_packet : list byte) (st : state) : result state :=
  '(cum_ack, sack_blocks) ← Wire.parse_ack ack_packet;
  let '(last, dup) :=
    if py_eqb cum_ack (last_cum_ack st)
    then (last_cum_ack st, dup_ack_count st + 1)
    else (cum_ack, 0) in
  '(tr1, out1, dup1) ←
    (if (3 <=? dup) && (0 <? size (unacked (trk st)))%nat then
       oldest_unacked ← set_min (unacked (trk st));
       '(tr, out) ← retransmit (packets st) (λ _, t_fast clk) oldest_unacked
                               (trk st, outbox st);
       Ok (tr, out, 0)
     else Ok (trk st, outbox st, dup));
  '(tr2, est2, log2) ←
    process_acked (t_release clk) cum_ack sack_blocks (total_packets st)
                  (packet_bytes st) (tr1, est st, samples st);
  Ok {| window_size := window_size st; packets := packets st;
        packet_bytes := packet_bytes st; trk := tr2; est := est2;
        next_seq := next_seq st; last_cum_ack := last; dup_ack_count := dup1;
        outbox := out1; samples := log2 |}.

(** The [except socket.timeout] branch: re-send every expired packet. *)
Definition on_timeout (clk : clock) (st : state) : result state :=
  let timed_out_seqs := timed_out (set_order clk) (t_sweep clk) (Estimator.rto (est st)) (trk st) in
  '(tr, out) ← rfold (retransmit (packets st) (stamp clk)) timed_out_seqs
                     (trk st, outbox st);
  Ok {| window_size := window_size st; packets := packets st;
        packet_bytes := packet_bytes st; trk := tr; est := est st;
        next_seq := next_seq st; last_cum_ack := last_cum_ack st;
        dup_ack_count := dup_ack_count st; outbox := out;
        samples := samples st |}.

(** One turn of [while True]: [inr] is the [break] that ends the data phase. *)
Definition turn (clk : clock) (ev : recv_event) (st : state)
  : result (state + state) :=
  st1 ← send_new (stamp clk) st;
  if all_acked st1 then Ok (inr st1)
  else match ev with
       | Datagram ack_packet => inl <$> on_ack clk ack_packet st1
       | SockTimeout => inl <$> on_timeout clk st1
       end.

(** The EOF phase: [retries] counts timeouts only; [sent] counts [sendto]. *)
Fixpoint eof_loop (events : list recv_event) (eof_seq : Z) (retries : Z)
    (sent : nat) : result (nat * eof_outcome) :=
  if retries <? 10 then
    match events with
    | [] => Ok (S sent, EofWaiting)
    | Datagram ack_packet :: events' =>
        '(cum_ack, _) ← Wire.parse_ack ack_packet;
        acked ← py_gt cum_ack eof_seq;
        if acked : bool then Ok (S sent, EofAcked)
        else eof_loop events' eof_seq retries (S sent)
    | SockTimeout :: events' => eof_loop events' eof_seq (retries + 1) (S sent)
    end
  else Ok (sent, EofGaveUp true).

Definition send_eof (events : list recv_event) (st : state)
  : result (nat * eof_outcome) :=
  let eof_seq := total_packets st in
  _ ← Wire.create_packet eof_seq Wire.EOF_MARKER;
  eof_loop events eof_seq 0 0.

(** The main loop of send_file over what the socket yields; turn [i] reads
    the clock [clk i].  [inr] is the state at the [break]; [inl] is the state
    in which the loop sits in [recvfrom], the listed events used up. *)
Fixpoint data_phase (clk : nat → clock) (i : nat) (events : list recv_event)
    (st : state) : result (state + state) :=
  st1 ← send_new (stamp (clk i)) st;
  if all_acked st1 then Ok (inr st1)
  else match events with
       | [] => Ok (inl st1)
       | Datagram ack_packet :: events' =>
           st2 ← on_ack (clk i) ack_packet st1;
           data_phase clk (S i) events' st2
       | SockTimeout :: events' =>
           st2 ← on_timeout (clk i) st1;
           data_phase clk (S i) events' st2
       end.

End P1.

(** ** p2_server.py: the CUBIC sender *)

Module P2.
Import Tracker Sender.

Definition C_CUBIC : Q := 10000.
Definition BETA_CUBIC : Q := 3 # 10.
Definition CWND_DEC : Q := 5 # 10.
Definition MAX_CWND : Z := 10000.
Definition cwnd_floor : Q := inject_Z (10 * Wire.DATA_SIZE).
Definition cwnd_cap : Q := inject_Z (MAX_CWND * Wire.DATA_SIZE).

(** The congestion fields of [self]. *)
Record cubic := mk_cubic {
  cwnd : Q;
  Wmax : Q;
  epoch_start : option Q;
  K : Q;
  in_recovery : bool
}.

Definition cubic_init : cubic :=
  {| cwnd := inject_Z Wire.DATA_SIZE;
     Wmax := inject_Z (Wire.DATA_SIZE * 200);
     epoch_start := None; K := 0; in_recovery := false |}.

Record state := mk {
  packets : list (list byte);
  packet_bytes : list Z;
  trk : Tracker.t;
  est : Estimator.t;
  cc : cubic;
  next_seq : Z;
  last_cum_ack : option Z;
  dup_ack_count : Z;
  recovery_ack_point : option Z;
  lost_seq : option Z;
  congestion_last_sent : option Z;
  outbox : list (list byte);
  samples : list (Z * Q)
}.

Definition total_packets (st : state) : Z := Z.of_nat (length (packets st)).

Definition start (file_data : list byte) : state :=
  let pk := split_file file_data in
  {| packets := pk; packet_bytes := lengths pk;
     trk := Tracker.init; est := Estimator.init; cc := cubic_init;
     next_seq := 0; last_cum_ack := Some (-1); dup_ack_count := 0;
     recovery_ack_point := None; lost_seq := None;
     congestion_last_sent := None; outbox := []; samples := [] |}.

(** on_congestion_event *)
Definition on_congestion_event (severe : bool) (c : cubic) : cubic :=
  if severe then
    {| cwnd := cwnd_floor; Wmax := (cwnd c / 2)%Q;
       epoch_start := None; K := K c; in_recovery := in_recovery c |}
  else
    {| cwnd := (cwnd c * CWND_DEC)%Q; Wmax := cwnd c;
       epoch_start := None; K := K c; in_recovery := in_recovery c |}.

(** The window inflation [self.cwnd += DATA_SIZE]. *)
Definition inflate (c : cubic) : cubic :=
  {| cwnd := (cwnd c + inject_Z Wire.DATA_SIZE)%Q; Wmax := Wmax c;
     epoch_start := epoch_start c; K := K c; in_recovery := in_recovery c |}.

Definition set_recovery (b : bool) (c : cubic) : cubic :=
  {| cwnd := cwnd c; Wmax := Wmax c; epoch_start := epoch_start c;
     K := K c; in_recovery := b |}.

Section with_cube_root.

(** [x ** (1 / 3)] on floats has no rational model: it is a parameter. *)
Variable cube_root : Q → Q.

(** cubic_update *)
Definition cubic_update (now : Q) (c : cubic) : cubic :=
  if in_recovery c then c
  else match epoch_start c with
       | None =>
           {| cwnd := cwnd c; Wmax := Wmax c; epoch_start := Some now;
              K := cube_root ((Wmax c * BETA_CUBIC) / C_CUBIC)%Q;
              in_recovery := in_recovery c |}
       | Some epoch =>
           let t := (now - epoch)%Q in
           let Wt := (C_CUBIC * ((t - K c) ^ 3) + Wmax c)%Q in
           {| cwnd := Estimator.py_max cwnd_floor (Estimator.py_min Wt cwnd_cap);
              Wmax := Wmax c; epoch_start := epoch_start c; K := K c;
              in_recovery := in_recovery c |}
       end.

Definition with_send (st : state) (tr : Tracker.t) (pkt : list byte) : state :=
  {| packets := packets st; packet_bytes := packet_bytes st; trk := tr;
     est := est st; cc := cc st; next_seq := next_seq st + 1;
     last_cum_ack := last_cum_ack st; dup_ack_count := dup_ack_count st;
     recovery_ack_point := recovery_ack_point st; lost_seq := lost_seq st;
     congestion_last_sent := congestion_last_sent st;
     outbox := outbox st ++ [pkt]; samples := samples st |}.

(** The inner [while] that sends new packets while cwnd allows. *)
Fixpoint send_new_loop (fuel : nat) (stamp : Z → Q) (st : state) : result state :=
  match fuel with
  | O => Ok st
  | S fuel' =>
      if next_seq st <? total_packets st then
        len ← py_index (packet_bytes st) (next_seq st);
        if Qle_bool (inject_Z (bytes_in_flight (trk st) + len)) (cwnd (cc st)) then
          if in_recovery (cc st)
             && Qltb (cwnd (cc st)) (inject_Z (bytes_in_flight (trk st)))
          then Ok st
          else
            data ← py_index (packets st) (next_seq st);
            pkt ← Wire.create_packet (next_seq st) data;
            tr ← record_send (packet_bytes st) (next_seq st)
                             (stamp (next_seq st)) (trk st);
            send_new_loop fuel' stamp (with_send st tr pkt)
        else Ok st
      else Ok st
  end.

Definition send_new (stamp : Z → Q) (st : state) : result state :=
  send_new_loop (Z.to_nat (total_packets st - next_seq st)) stamp st.

Definition all_acked (st : state) : bool :=
  (total_packets st <=? next_seq st) && (size (unacked (trk st)) =? 0)%nat.

(** SACK blocks are used as received: [range(start, end + 1)]. *)
Definition collect_sack (un : gset Z) (blocks : list (Z * Z)) (acc : gset Z)
  : gset Z :=
  foldl (λ acc '(start, end_), collect_range un start end_ acc) acc blocks.

(** Lines 224-243: collect the newly acknowledged, then release them. *)
Definition process_acked (now : Q) (cum_ack : option Z) (sack_blocks : list (Z * Z))
    (packet_bytes : list Z) (s : Tracker.t * Estimator.t * list (Z * Q))
  : result (Tracker.t * Estimator.t * list (Z * Q)) :=
  by_cum ← collect_cum cum_ack (unacked s.1.1);
  let newly_acked := collect_sack (unacked s.1.1) sack_blocks by_cum in
  release packet_bytes now newly_acked s.

(** [cum_ack > congestion_last_sent], either side None or an int. *)
Definition py_gt2 (a b : option Z) : result bool :=
  match a, b with
  | Some x, Some y => Ok (y <? x)
  | _, _ => Raise TypeError
  end.

(** Duplicate-ACK detection, with the exit from recovery on progress. *)
Definition detect_dup (cum_ack : option Z) (st : state)
  : result (option Z * Z * bool * option Z) :=
  if py_eqb cum_ack (last_cum_ack st) then
    Ok (last_cum_ack st, dup_ack_count st + 1, in_recovery (cc st),
        recovery_ack_point st)
  else
    leave ← (if in_recovery (cc st)
             then py_gt2 cum_ack (congestion_last_sent st)
             else Ok false);
    if leave : bool then Ok (cum_ack, 0, false, None)
    else Ok (cum_ack, 0, in_recovery (cc st), recovery_ack_point st).

(** The [try] branch of the main loop, from [parse_ack] on. *)
Definition on_ack (clk : clock) (ack_packet : list byte) (st : state) : result state :=
  '(cum_ack, sack_blocks) ← Wire.parse_ack ack_packet;
  '(last, dup, rec, rap) ← detect_dup cum_ack st;
  let c0 := set_recovery rec (cc st) in
  '(tr1, out1, dup1, c1, rap1, lost1, cls1) ←
    (if (3 <=? dup) && (0 <? size (unacked (trk st)))%nat then
       if negb rec then
         oldest_unacked ← set_min (unacked (trk st));
         '(tr, out) ← retransmit (packets st) (λ _, t_fast clk) oldest_unacked
                                 (trk st, outbox st);
         Ok (tr, out, 0, on_congestion_event false (set_recovery true c0),
             cum_ack, cum_ack, Some (next_seq st - 1))
       else if dup mod 100 =? 0 then
         let timeouts := timed_out (set_order clk) (t_sweep clk) (Estimator.rto (est st)) (trk st) in
         '(tr, out) ← rfold (retransmit (packets st) (stamp clk)) timeouts
                            (trk st, outbox st);
         Ok (tr, out, dup, c0, rap, lost_seq st, congestion_last_sent st)
       else Ok (trk st, outbox st, dup, c0, rap, lost_seq st,
                congestion_last_sent st)
     else Ok (trk st, outbox st, dup, c0, rap, lost_seq st,
              congestion_last_sent st));
  let c2 := if (0 <? dup1) && in_recovery c1 then inflate c1 else c1 in
  '(tr2, est2, log2) ←
    process_acked (t_release clk) cum_ack sack_blocks (packet_bytes st)
                  (tr1, est st, samples st);
  let c3 := if negb (in_recovery c2) then cubic_update (t_cubic clk) c2 else c2 in
  Ok {| packets := packets st; packet_bytes := packet_bytes st; trk := tr2;
        est := est2; cc := c3; next_seq := next_seq st;
        last_cum_ack := last; dup_ack_count := dup1;
        recovery_ack_point := rap1; lost_seq := lost1;
        congestion_last_sent := cls1; outbox := out1; samples := log2 |}.

(** The [except socket.timeout] branch: a severe congestion event and a
    re-send of every expired packet. *)
Definition on_timeout (clk : clock) (st : state) : result state :=
  let timeouts := timed_out (set_order clk) (t_sweep clk) (Estimator.rto (est st)) (trk st) in
  match timeouts with
  | [] => Ok st
  | _ :: _ =>
      '(tr, out) ← rfold (retransmit (packets st) (stamp clk)) timeouts
                         (trk st, outbox st);
      Ok {| packets := packets st; packet_bytes := packet_bytes st; trk := tr;
            est := est st; cc := on_congestion_event true (cc st);
            next_seq := next_seq st; last_cum_ack := last_cum_ack st;
            dup_ack_count := dup_ack_count st;
            recovery_ack_point := recovery_ack_point st;
            lost_seq := lost_seq st;
            congestion_last_sent := congestion_last_sent st;
            outbox := out; samples := samples st |}
  end.

(** One turn of [while True]: [inr] is the [break] that ends the data phase. *)
Definition turn (clk : clock) (ev : recv_event) (st : state)
  : result (state + state) :=
  st1 ← send_new (stamp clk) st;
  if all_acked st1 then Ok (inr st1)
  else match ev with
       | Datagram ack_packet => inl <$> on_ack clk ack_packet st1
       | SockTimeout => inl <$> on_timeout clk st1
       end.

End with_cube_root.

(** The EOF phase: [for i in range(5)], nothing printed. *)
Fixpoint eof_loop (events : list recv_event) (eof_seq : Z) (attempts : nat)
    (sent : nat) {struct attempts} : result (nat * eof_outcome) :=
  match attempts with
  | O => Ok (sent, EofGaveUp false)
  | S attempts' =>
      match events with
      | [] => Ok (S sent, EofWaiting)
      | Datagram ack_packet :: events' =>
          '(cum_ack, _) ← Wire.parse_ack ack_packet;
          acked ← py_gt cum_ack eof_seq;
          if acked : bool then Ok (S sent, EofAcked)
          else eof_loop events' eof_seq attempts' (S sent)
      | SockTimeout :: events' => eof_loop events' eof_seq attempts' (S sent)
      end
  end.

Definition send_eof (events : list recv_event) (st : state)
  : result (nat * eof_outcome) :=
  let eof_seq := total_packets st in
  _ ← Wire.create_packet eof_seq Wire.EOF_MARKER;
  eof_loop events eof_seq 5 0.

(** The main loop of send_file, as for the fixed-window sender. *)
Fixpoint data_phase (cube_root : Q → Q) (clk : nat → clock) (i : nat)
    (events : list recv_event) (st : state) : result (state + state) :=
  st1 ← send_new (stamp (clk i)) st;
  if all_acked st1 then Ok (inr st1)
  else match events with
       | [] => Ok (inl st1)
       | Datagram ack_packet :: events' =>
           st2 ← on_ack cube_root (clk i) ack_packet st1;
           data_phase cube_root clk (S i) events' st2
       | SockTimeout :: events' =>
           st2 ← on_timeout (clk i) st1;
           data_phase cube_root clk (S i) events' st2
       end.

End P2.

(** ** p2_client.py: the receiver *)

Module Client.
Import Sender.

Record state := mk {
  receive_buffer : gmap Z (list byte);     (* seq -> data *)
  received_seqs : gset Z;
  next_expected_seq : Z;
  received_data : list byte;
  last_received_seq : option Z;
  sent : list (list byte)        (* ACK datagrams given to sendto, oldest first *)
}.

Definition init : state :=
  {| receive_buffer := ∅; received_seqs := ∅; next_expected_seq := 0;
     received_data := []; last_received_seq := None; sent := [] |}.

(** [while (start - 1) in self.received_seqs: start -= 1]: each turn meets a
    new element of the set, so [size] turns are enough. *)
Fixpoint expand_down (fuel : nat) (seqs : gset Z) (start : Z) : Z :=
  match fuel with
  | O => start
  | S fuel' =>
      if decide (start - 1 ∈ seqs) then expand_down fuel' seqs (start - 1)
      else start
  end.

Fixpoint expand_up (fuel : nat) (seqs : gset Z) (end_ : Z) : Z :=
  match fuel with
  | O => end_
  | S fuel' =>
      if decide (end_ + 1 ∈ seqs) then expand_up fuel' seqs (end_ + 1)
      else end_
  end.

(** The scan of [all_seqs] into maximal runs: [runs_from s e l] is the
    state of the scan with the block (s, e) open and [l] still to read. *)
Fixpoint runs_from (s e : Z) (l : list Z) : list (Z * Z) :=
  match l with
  | [] => [(s, e)]
  | x :: l' =>
      if x =? e + 1 then runs_from s x l'
      else (s, e) :: runs_from x x l'
  end.

Definition blocks_found (all_seqs : list Z) : list (Z * Z) :=
  match all_seqs with
  | [] => []
  | x :: l => runs_from x x l
  end.

(** [for (s, e) in blocks_found: if s <= recent_seq <= e: continue; ...; break] *)
Fixpoint other_block (recent_seq : Z) (found : list (Z * Z)) : list (Z * Z) :=
  match found with
  | [] => []
  | (s, e) :: found' =>
      if (s <=? recent_seq) && (recent_seq <=? e) then other_block recent_seq found'
      else [(s, e)]
  end.

Definition find_sack_blocks (seqs : gset Z) (recent_seq : option Z)
  : list (Z * Z) :=
  match recent_seq with
  | None => []
  | Some r =>
      if decide (r ∈ seqs) then
        let start := expand_down (size seqs) seqs r in
        let end_ := expand_up (size seqs) seqs r in
        take 2 ((start, end_) :: other_block r (blocks_found (sorted seqs)))
      else []
  end.

(** The in-order delivery loop; every turn pops one buffer entry. *)
Fixpoint deliver (fuel : nat) (st : state) : result state :=
  match fuel with
  | O => Ok st
  | S fuel' =>
      match receive_buffer st !! next_expected_seq st with
      | Some d =>
          if decide (next_expected_seq st ∈ received_seqs st) then
            deliver fuel'
              {| receive_buffer := delete (next_expected_seq st) (receive_buffer st);
                 received_seqs := received_seqs st ∖ {[next_expected_seq st]};
                 next_expected_seq := next_expected_seq st + 1;
                 received_data := received_data st ++ d;
                 last_received_seq := last_received_seq st;
                 sent := sent st |}
          else Raise KeyError
      | None => Ok st
      end
  end.

(** [if seq not in self.received_seqs: store it] *)
Definition store (seq : Z) (data : list byte) (st : state) : state :=
  if decide (seq ∈ received_seqs st) then st
  else {| receive_buffer := <[seq := data]> (receive_buffer st);
          received_seqs := {[seq]} ∪ received_seqs st;
          next_expected_seq := next_expected_seq st;
          received_data := received_data st;
          last_received_seq := last_received_seq st;
          sent := sent st |}.

Definition with_ack (st : state) (recent : option Z) (acks : list (list byte))
  : state :=
  {| receive_buffer := receive_buffer st; received_seqs := received_seqs st;
     next_expected_seq := next_expected_seq st;
     received_data := received_data st;
     last_received_seq := recent; sent := sent st ++ acks |}.

(** The ACK the receiver builds from its state and [recent]. *)
Definition current_ack (st : state) (recent : option Z) : result (list byte) :=
  Wire.create_ack (next_expected_seq st)
                  (find_sack_blocks (received_seqs st) recent).

(** One turn of the loop of receive_file on a datagram; the boolean is
    [true] when the turn ends in [break]. *)
Definition on_datagram (packet : list byte) (st : state) : result (state * bool) :=
  parsed ← Wire.parse_packet packet;
  match parsed with
  | None => Ok (st, false)
  | Some (seq, data) =>
      if bytes_eqb data Wire.EOF_MARKER then
        final_ack ← Wire.create_ack (seq + 1) [];
        Ok (with_ack st (last_received_seq st) (replicate 5 final_ack), true)
      else
        let st1 := store seq data st in
        st2 ← deliver (size (receive_buffer st1)) st1;
        ack_pkt ← current_ack st2 (Some seq);
        Ok (with_ack st2 (Some seq) [ack_pkt], false)
  end.

(** The [except socket.timeout] branch: the current ACK again. *)
Definition on_timeout (st : state) : result (state * bool) :=
  ack_pkt ← current_ack st (last_received_seq st);
  Ok (with_ack st (last_received_seq st) [ack_pkt], false).

Definition step (ev : recv_event) (st : state) : result (state * bool) :=
  match ev with
  | Datagram packet => on_datagram packet st
  | SockTimeout => on_timeout st
  end.

(** receive_file over the listed events; [Some bytes] is the content written
    to the output file after [break], [None] means the loop is still waiting. *)
Fixpoint receive_loop (events : list recv_event) (st : state)
  : result (state * bool) :=
  match events with
  | [] => Ok (st, false)
  | ev :: events' =>
      '(st', stop) ← step ev st;
      if stop : bool then Ok (st', true) else receive_loop events' st'
  end.

Definition receive_file (events : list recv_event) : result (option (list byte)) :=
  '(st, stop) ← receive_loop events init;
  Ok (if stop : bool then Some (received_data st) else None).

(** send_request: [for attempt in range(MAX_REQUEST_RETRIES)], one request
    and one wait of REQUEST_TIMEOUT per attempt; an empty response is passed
    over like a timeout.  The result holds the value returned ([None]: the
    events are used up inside [recvfrom]), the number of requests sent and the
    events left. *)
Definition MAX_REQUEST_RETRIES : nat := 5.

Fixpoint send_request_loop (attempts : nat) (events : list recv_event)
    (requests : nat) {struct attempts} : option bool * nat * list recv_event :=
  match attempts with
  | O => (Some false, requests, events)
  | S attempts' =>
      match events with
      | [] => (None, S requests, [])
      | Datagram [] :: events' =>
          send_request_loop attempts' events' (S requests)
      | Datagram (_ :: _) :: events' => (Some true, S requests, events')
      | SockTimeout :: events' =>
          send_request_loop attempts' events' (S requests)
      end
  end.

Definition send_request (events : list recv_event)
  : option bool * nat * list recv_event :=
  send_request_loop MAX_REQUEST_RETRIES events 0.

(** How start() ends: the server was not reached, the output file was
    written, receive_file raised (the error is printed, no file is written),
    or the client is still in [recvfrom]. *)
Inductive start_outcome : Type :=
  | NoContact
  | Written (data : list byte)
  | Failed (e : exn)
  | Waiting.

Definition start (events : list recv_event) : start_outcome :=
  match send_request events with
  | (Some true, _, rest) =>
      match receive_file rest with
      | Ok (Some data) => Written data
      | Ok None => Waiting
      | Raise e => Failed e
      end
  | (Some false, _, _) => NoContact
  | (None, _, _) => Waiting
  end.

End Client.

(** * Properties *)

(** ** The error monad *)

Lemma rbind_Ok {A B} (m : result A) (k : A → result B) (b : B) :
  m ≫= k = Ok b ↔ ∃ a, m = Ok a ∧ k a = Ok b.
Proof.
  destruct m as [a|e]; simpl; split.
  - eauto.
  - by intros (a' & [= ->] & ?).
  - done.
  - by intros (a' & ? & _).
Qed.

Lemma rfold_cons {A S} (body : A → S → result S) (x : A) (l : list A) (s : S) :
  rfold body (x :: l) s = body x s ≫= rfold body l.
Proof. done. Qed.

Lemma rfold_app {A S} (body : A → S → result S) (l1 l2 : list A) (s : S) :
  rfold body (l1 ++ l2) s = rfold body l1 s ≫= rfold body l2.
Proof.
  revert s. induction l1 as [|x l1 IH]; intros s; simpl; [done|].
  destruct (body x s) as [s'|e]; simpl; [apply IH | done].
Qed.

(** An invariant of the body is an invariant of the loop. *)
Lemma rfold_invariant {A S} (P : S → Prop) (body : A → S → result S)
    (l : list A) (s s' : S) :
  (∀ x t t', x ∈ l → P t → body x t = Ok t' → P t') →
  P s → rfold body l s = Ok s' → P s'.
Proof.
  revert s. induction l as [|x l IH]; intros s Hbody Hs; simpl.
  - by intros [= <-].
  - intros (t & Ht & Hrest)%rbind_Ok.
    eapply IH; [| |exact Hrest].
    + intros y u u' Hy. apply Hbody. by right.
    + eapply Hbody; [by left|exact Hs|exact Ht].
Qed.

(** [sorted(X)] lists the members of [X], each once. *)
Lemma elem_of_sorted (seqs : gset Z) x : x ∈ Sender.sorted seqs ↔ x ∈ seqs.
Proof.
  unfold Sender.sorted. rewrite merge_sort_Permutation. apply elem_of_elements.
Qed.

Lemma NoDup_sorted (seqs : gset Z) : NoDup (Sender.sorted seqs).
Proof.
  unfold Sender.sorted. rewrite merge_sort_Permutation. apply NoDup_elements.
Qed.

(** Whatever the order of the iteration, [list(X)] lists the members of
    [X], each once. *)
Lemma elem_of_scan place (seqs : gset Z) x : x ∈ Sender.scan place seqs ↔ x ∈ seqs.
Proof.
  unfold Sender.scan. rewrite merge_sort_Permutation. apply elem_of_elements.
Qed.


(** ** The loops stop by their own test

    The loops of the source are modelled with a bound on their turns; these
    lemmas show that each bound is large enough, so that the model leaves a
    loop exactly where the code does. *)

Module LoopsStop.
Import Tracker Sender.

(** A set that holds the interval [a, b] has at least b - a + 1 members. *)
Lemma interval_size (seqs : gset Z) a b :
  (∀ x, a ≤ x ≤ b → x ∈ seqs) → b - a + 1 ≤ Z.of_nat (size seqs).
Proof.
  intros Hin.
  assert (list_to_set (seqZ a (b - a + 1)) ⊆ seqs) as Hsub.
  { intros x Hx%elem_of_list_to_set%elem_of_seqZ. apply Hin. lia. }
  apply subseteq_size in Hsub.
  rewrite size_list_to_set in Hsub by apply NoDup_seqZ.
  rewrite length_seqZ in Hsub. lia.
Qed.

Lemma expand_down_stops_gen fuel (seqs : gset Z) r start :
  start ≤ r → (∀ x, start ≤ x ≤ r → x ∈ seqs) →
  Z.of_nat (size seqs) ≤ Z.of_nat fuel + (r - start) →
  Client.expand_down fuel seqs start - 1 ∉ seqs.
Proof.
  revert start. induction fuel as [|fuel IH]; intros start Hle Hin Hfuel; simpl.
  - pose proof (interval_size seqs start r Hin). lia.
  - destruct (decide (start - 1 ∈ seqs)) as [Hmem|]; [|done].
    apply IH; [lia| |lia]. intros x Hx.
    destruct (decide (x = start - 1)) as [->|]; [done|]. apply Hin. lia.
Qed.

Lemma expand_down_stops (seqs : gset Z) r :
  r ∈ seqs → Client.expand_down (size seqs) seqs r - 1 ∉ seqs.
Proof.
  intros Hr. apply (expand_down_stops_gen _ _ r); [lia| |lia].
  intros x Hx. by replace x with r by lia.
Qed.

Lemma expand_up_stops_gen fuel (seqs : gset Z) r end_ :
  r ≤ end_ → (∀ x, r ≤ x ≤ end_ → x ∈ seqs) →
  Z.of_nat (size seqs) ≤ Z.of_nat fuel + (end_ - r) →
  Client.expand_up fuel seqs end_ + 1 ∉ seqs.
Proof.
  revert end_. induction fuel as [|fuel IH]; intros end_ Hle Hin Hfuel; simpl.
  - pose proof (interval_size seqs r end_ Hin). lia.
  - destruct (decide (end_ + 1 ∈ seqs)) as [Hmem|]; [|done].
    apply IH; [lia| |lia]. intros x Hx.
    destruct (decide (x = end_ + 1)) as [->|]; [done|]. apply Hin. lia.
Qed.

Lemma expand_up_stops (seqs : gset Z) r :
  r ∈ seqs → Client.expand_up (size seqs) seqs r + 1 ∉ seqs.
Proof.
  intros Hr. apply (expand_up_stops_gen _ _ r); [lia| |lia].
  intros x Hx. by replace x with r by lia.
Qed.

Lemma deliver_stops fuel (st st' : Client.state) :
  (size (Client.receive_buffer st) ≤ fuel)%nat →
  Client.deliver fuel st = Ok st' →
  Client.receive_buffer st' !! Client.next_expected_seq st' = None.
Proof.
  revert st. induction fuel as [|fuel IH]; intros st Hsize; simpl.
  - intros [= <-]. assert (Client.receive_buffer st = ∅) as ->.
    { apply map_size_empty_inv. lia. }
    apply lookup_empty.
  - destruct (Client.receive_buffer st !! Client.next_expected_seq st)
      as [d|] eqn:E; [|by intros [= <-]].
    destruct (decide _); [|done]. apply IH. simpl.
    rewrite map_size_delete_Some by eauto. lia.
Qed.

Lemma split_from_concat fuel (file_data : list byte) offset :
  0 ≤ offset → Z.of_nat (length file_data) - offset ≤ Z.of_nat fuel →
  concat (split_from fuel file_data offset) = drop (Z.to_nat offset) file_data.
Proof.
  revert offset. induction fuel as [|fuel IH]; intros offset Hoff Hfuel; simpl.
  - rewrite drop_ge; [done|lia].
  - destruct (Z.ltb_spec offset (Z.of_nat (length file_data))); simpl.
    + rewrite IH by (unfold Wire.DATA_SIZE, Wire.MAX_PAYLOAD_SIZE, Wire.HEADER_SIZE; lia).
      unfold Wire.slice.
      replace (Z.to_nat (offset + Wire.DATA_SIZE))
        with (Z.to_nat offset + Z.to_nat (offset + Wire.DATA_SIZE - offset))%nat
        by (unfold Wire.DATA_SIZE, Wire.MAX_PAYLOAD_SIZE, Wire.HEADER_SIZE; lia).
      rewrite <- drop_drop. apply take_drop.
    + rewrite drop_ge; [done|lia].
Qed.

Lemma split_file_concat (file_data : list byte) :
  concat (split_file file_data) = file_data.
Proof.
  unfold split_file. rewrite split_from_concat by lia. done.
Qed.


Lemma p1_send_new_loop_stops fuel stamp (st st' : P1.state) :
  P1.total_packets st - P1.next_seq st ≤ Z.of_nat fuel →
  P1.send_new_loop fuel stamp st = Ok st' →
  P1.total_packets st' ≤ P1.next_seq st'
  ∨ ∃ len, py_index (P1.packet_bytes st') (P1.next_seq st') = Ok len
           ∧ P1.window_size st' < bytes_in_flight (P1.trk st') + len.
Proof.
  revert st. induction fuel as [|fuel IH]; intros st Hfuel; simpl.
  - intros [= <-]. left. lia.
  - destruct (Z.ltb_spec (P1.next_seq st) (P1.total_packets st)) as [Hlt|];
      [|intros [= <-]; by left].
    intros (len & Hlen & Hrest)%rbind_Ok.
    destruct (Z.leb_spec (bytes_in_flight (P1.trk st) + len) (P1.window_size st));
      [|injection Hrest as <-; right; eauto].
    apply rbind_Ok in Hrest as (data & _ & Hrest).
    apply rbind_Ok in Hrest as (pkt & _ & Hrest).
    apply rbind_Ok in Hrest as (tr & Hsend & Hrest).
    apply IH in Hrest; [done|]. unfold P1.total_packets in *. simpl. lia.
Qed.

Lemma p2_send_new_loop_stops fuel stamp (st st' : P2.state) :
  P2.total_packets st - P2.next_seq st ≤ Z.of_nat fuel →
  P2.send_new_loop fuel stamp st = Ok st' →
  P2.total_packets st' ≤ P2.next_seq st'
  ∨ (∃ len, py_index (P2.packet_bytes st') (P2.next_seq st') = Ok len
            ∧ Qle_bool (inject_Z (bytes_in_flight (P2.trk st') + len))
                       (P2.cwnd (P2.cc st')) = false)
  ∨ (P2.in_recovery (P2.cc st') = true
     ∧ Qltb (P2.cwnd (P2.cc st')) (inject_Z (bytes_in_flight (P2.trk st'))) = true).
Proof.
  revert st. induction fuel as [|fuel IH]; intros st Hfuel; simpl.
  - intros [= <-]. left. lia.
  - destruct (Z.ltb_spec (P2.next_seq st) (P2.total_packets st)) as [Hlt|];
      [|intros [= <-]; by left].
    intros (len & Hlen & Hrest)%rbind_Ok.
    destruct (Qle_bool _ _) eqn:Hfit;
      [|injection Hrest as <-; right; left; eauto].
    destruct (_ && _) eqn:Hdrain.
    { injection Hrest as <-. right. right. by apply andb_true_iff in Hdrain. }
    apply rbind_Ok in Hrest as (data & _ & Hrest).
    apply rbind_Ok in Hrest as (pkt & _ & Hrest).
    apply rbind_Ok in Hrest as (tr & Hsend & Hrest).
    apply IH in Hrest; [done|]. unfold P2.total_packets in *. simpl. lia.
Qed.

End LoopsStop.

(** ** Wire codec: encoding then decoding *)

Module WireFacts.
Import Wire.

Lemma Z_of_byte_of_Z n : Z_of_byte (byte_of_Z n) = n mod 2 ^ 8.
Proof.
  unfold Z_of_byte, byte_of_Z. change (2 ^ 8) with 256.
  pose proof (Z.mod_pos_bound n 256 eq_refl) as Hb.
  destruct (Byte.of_N (Z.to_N (n mod 256))) as [b|] eqn:E.
  - apply Byte.to_of_N in E. rewrite E. apply Z2N.id. lia.
  - apply Byte.of_N_None_iff in E. lia.
Qed.

Lemma Z_of_byte_nonneg b : 0 ≤ Z_of_byte b.
Proof. unfold Z_of_byte. lia. Qed.

Lemma testbit_byte_at n k i :
  0 ≤ k → 0 ≤ i →
  Z.testbit (Z.shiftl (Z.shiftr n k mod 2 ^ 8) k) i
  = (k <=? i) && (i <? k + 8) && Z.testbit n i.
Proof.
  intros Hk Hi. rewrite Z.shiftl_spec by done.
  destruct (Z.leb_spec k i) as [Hle|Hlt]; simpl.
  - rewrite Z.testbit_mod_pow2 by lia. rewrite Z.shiftr_spec by lia.
    replace (i - k + k) with i by lia.
    destruct (Z.ltb_spec (i - k) 8), (Z.ltb_spec i (k + 8)); try lia; done.
  - apply Z.testbit_neg_r. lia.
Qed.

Lemma unpack_pack_u32 n :
  0 ≤ n < 2 ^ 32 → pack_u32 n ≫= unpack_u32 = Ok n.
Proof.
  intros [Hlo Hhi]. unfold pack_u32.
  destruct (Z.leb_spec 0 n); [|lia]. destruct (Z.ltb_spec n (2 ^ 32)); [|lia].
  simpl. f_equal. rewrite !Z_of_byte_of_Z.
  rewrite <- (Z.shiftr_0_r n) at 4.
  rewrite <- (Z.shiftl_0_r (Z.shiftr n 0 mod 2 ^ 8)).
  apply Z.bits_inj'. intros i Hi.
  rewrite !Z.lor_spec, !testbit_byte_at by lia.
  destruct (Z.ltb_spec i 32) as [Hlt|Hge].
  - destruct (Z.testbit n i); [|by rewrite !andb_false_r].
    rewrite !andb_true_r.
    destruct (Z.leb_spec 24 i), (Z.leb_spec 16 i), (Z.leb_spec 8 i),
      (Z.leb_spec 0 i), (Z.ltb_spec i (24 + 8)), (Z.ltb_spec i (16 + 8)),
      (Z.ltb_spec i (8 + 8)), (Z.ltb_spec i (0 + 8));
      simpl; try reflexivity; lia.
  - assert (Z.testbit n i = false) as ->.
    { destruct (Z.eq_dec n 0) as [->|]; [apply Z.bits_0|].
      apply Z.bits_above_log2; [lia|].
      assert (Z.log2 n < 32) by (apply Z.log2_lt_pow2; lia). lia. }
    by rewrite !andb_false_r.
Qed.

Lemma pack_u32_Ok n :
  0 ≤ n < 2 ^ 32 →
  ∃ b3 b2 b1 b0, pack_u32 n = Ok [b3; b2; b1; b0]
                 ∧ unpack_u32 [b3; b2; b1; b0] = Ok n.
Proof.
  intros Hn. pose proof (unpack_pack_u32 n Hn) as Hrt. revert Hrt.
  unfold pack_u32.
  destruct (Z.leb_spec 0 n); [|lia]. destruct (Z.ltb_spec n (2 ^ 32)); [|lia].
  simpl. eauto 6.
Qed.

Lemma pack_u32_out_of_range n :
  ¬ (0 ≤ n < 2 ^ 32) → pack_u32 n = Raise StructError.
Proof.
  intros Hn. unfold pack_u32.
  destruct (Z.leb_spec 0 n), (Z.ltb_spec n (2 ^ 32)); simpl; try done; lia.
Qed.

Lemma unpack_u32_nonneg bs n : unpack_u32 bs = Ok n → 0 ≤ n.
Proof.
  destruct bs as [|b3 [|b2 [|b1 [|b0 [|]]]]]; simpl; try done.
  intros [= <-].
  repeat (apply Z.lor_nonneg; split);
    try apply Z.shiftl_nonneg; apply Z_of_byte_nonneg.
Qed.

(** The ACK without SACK blocks decodes to its cumulative value. *)
Lemma parse_create_ack_nil c :
  0 ≤ c < 2 ^ 32 →
  ∃ ack, create_ack c [] = Ok ack ∧ parse_ack ack = Ok (Some c, []).
Proof.
  intros Hc. destruct (pack_u32_Ok c Hc) as (b3 & b2 & b1 & b0 & Hp & Hu).
  exists ([b3; b2; b1; b0] ++ replicate 16 x00). split.
  - unfold create_ack. by rewrite Hp.
  - unfold parse_ack. simpl length.
    change (Z.of_nat 20 <? SEQ_NUM_SIZE + RESERVED_SIZE) with false.
    cbv iota. change (slice _ 0 4) with [b3; b2; b1; b0]. by rewrite Hu.
Qed.

Lemma parse_packet_short packet :
  (length packet < 20)%nat → parse_packet packet = Ok None.
Proof.
  intros Hlen. unfold parse_packet, HEADER_SIZE.
  by destruct (Z.ltb_spec (Z.of_nat (length packet)) 20); [|lia].
Qed.

Lemma parse_ack_short packet :
  (length packet < 20)%nat → parse_ack packet = Ok (None, []).
Proof.
  intros Hlen. unfold parse_ack, SEQ_NUM_SIZE, RESERVED_SIZE.
  by destruct (Z.ltb_spec (Z.of_nat (length packet)) (4 + 16)); [|lia].
Qed.

Lemma parse_packet_header hdr data :
  length hdr = 20%nat →
  parse_packet (hdr ++ data) = (λ seq, Some (seq, data)) <$> unpack_u32 (take 4 hdr).
Proof.
  intros Hlen. unfold parse_packet, HEADER_SIZE.
  rewrite length_app, Hlen.
  destruct (Z.ltb_spec (Z.of_nat (20 + length data)) 20); [lia|].
  assert (slice (hdr ++ data) 0 4 = take 4 hdr) as ->.
  { unfold slice. change (Z.to_nat (4 - 0)) with 4%nat.
    change (Z.to_nat 0) with 0%nat. rewrite drop_0.
    rewrite take_app_le by lia. done. }
  assert (drop (Z.to_nat 20) (hdr ++ data) = data) as ->.
  { change (Z.to_nat 20) with 20%nat. rewrite <- Hlen. apply drop_app_length. }
  done.
Qed.

End WireFacts.

(** ** Wire codec: the ACK datagram *)

Module RoundTrip.
Import Wire.

Lemma pack_u32_inv n bs :
  pack_u32 n = Ok bs →
  ∃ b3 b2 b1 b0,
    bs = [b3; b2; b1; b0]
    ∧ Z.lor (Z.shiftl (Z_of_byte b3) 24)
        (Z.lor (Z.shiftl (Z_of_byte b2) 16)
           (Z.lor (Z.shiftl (Z_of_byte b1) 8) (Z_of_byte b0))) = n.
Proof.
  intros Hpack. destruct (decide (0 ≤ n < 2 ^ 32)) as [Hn|Hn].
  - destruct (WireFacts.pack_u32_Ok n Hn) as (b3 & b2 & b1 & b0 & Hp & Hu).
    rewrite Hp in Hpack. injection Hpack as <-. injection Hu as Hu. eauto 6.
  - by rewrite WireFacts.pack_u32_out_of_range in Hpack.
Qed.

Lemma nonzero_pair s e : (s, e) ≠ (0, 0) → (s =? 0) && (e =? 0) = false.
Proof.
  intros Hne. destruct (Z.eqb_spec s 0) as [->|]; [|done].
  destruct (Z.eqb_spec e 0) as [->|]; done.
Qed.

(** An ACK built from a cumulative value and at most two non-zero SACK pairs
    decodes to the same fields. *)
Lemma ack_round_trip c blocks ack :
  create_ack c blocks = Ok ack →
  (length blocks ≤ 2)%nat → Forall (λ b, b ≠ (0, 0)) blocks →
  parse_ack ack = Ok (Some c, blocks).
Proof.
  unfold create_ack.
  intros (cb & (c3 & c2 & c1 & c0 & -> & Hc)%pack_u32_inv & Hrest)%rbind_Ok.
  apply rbind_Ok in Hrest as (parts & Hparts & [= <-]).
  intros Hlen Hnz.
  destruct blocks as [|[s1 e1] [|[s2 e2] [|]]]; simpl in Hlen; [| | |lia].
  - injection Hparts as <-.
    unfold parse_ack, parse_block. simpl. by rewrite Hc.
  - simpl in Hparts.
    apply rbind_Ok in Hparts as (ps & (p3 & p2 & p1 & p0 & -> & Hs)%pack_u32_inv & Hparts).
    apply rbind_Ok in Hparts as (pe & (q3 & q2 & q1 & q0 & -> & He)%pack_u32_inv & [= <-]).
    apply Forall_cons in Hnz as [Hnz1 _].
    unfold parse_ack, parse_block. simpl.
    rewrite Hc, Hs, He. by rewrite nonzero_pair.
  - simpl in Hparts.
    apply rbind_Ok in Hparts as (ps & (p3 & p2 & p1 & p0 & -> & Hs)%pack_u32_inv & Hparts).
    apply rbind_Ok in Hparts as (pe & (q3 & q2 & q1 & q0 & -> & He)%pack_u32_inv & Hparts).
    apply rbind_Ok in Hparts as (rest & Hparts & [= <-]).
    apply rbind_Ok in Hparts as (ps2 & (r3 & r2 & r1 & r0 & -> & Hs2)%pack_u32_inv & Hparts).
    apply rbind_Ok in Hparts as (pe2 & (t3 & t2 & t1 & t0 & -> & He2)%pack_u32_inv & [= <-]).
    apply Forall_cons in Hnz as [Hnz1 [Hnz2 _]%Forall_cons].
    unfold parse_ack, parse_block. simpl.
    rewrite Hc, Hs, He, Hs2, He2. by rewrite !nonzero_pair.
Qed.

Lemma ack_round_trip_witness :
  parse_ack [x00; x00; x00; x01; x00; x00; x00; x03; x00; x00; x00; x04;
             x00; x00; x00; x00; x00; x00; x00; x00]
  = Ok (Some 1, [(3, 4)]).
Proof.
  apply (ack_round_trip 1 [(3, 4)]).
  - reflexivity.
  - simpl. lia.
  - repeat constructor. discriminate.
Defined.

End RoundTrip.

(** ** The RTT / RTO estimator *)

Module EstimatorFacts.
Import Estimator.

Lemma Qltb_true x y : Qltb x y = true ↔ (x < y)%Q.
Proof.
  unfold Qltb. rewrite negb_true_iff. split.
  - intros H. apply Qnot_le_lt. intros Hle. apply Qle_bool_iff in Hle. congruence.
  - intros H. destruct (Qle_bool y x) eqn:E; [|done].
    apply Qle_bool_iff in E. lra.
Qed.

Lemma Qltb_false x y : Qltb x y = false ↔ (y <= x)%Q.
Proof.
  unfold Qltb. rewrite negb_false_iff. apply Qle_bool_iff.
Qed.

(** [max(lo, min(x, hi))] lands in [[lo, hi]]. *)
Lemma clamp_bounds lo hi x :
  (lo <= hi)%Q → (lo <= py_max lo (py_min x hi) <= hi)%Q.
Proof.
  intros Hlh. unfold py_max, py_min.
  destruct (Qltb hi x) eqn:E1.
  - apply Qltb_true in E1.
    destruct (Qltb lo hi) eqn:E2; [apply Qltb_true in E2|apply Qltb_false in E2]; lra.
  - apply Qltb_false in E1.
    destruct (Qltb lo x) eqn:E2; [apply Qltb_true in E2|apply Qltb_false in E2]; lra.
Qed.

(** After each update the RTO is the clamp of SRTT + 4 RTTVAR. *)
Lemma rto_after_update sample st :
  let st' := update_rto_on_sample sample st in
  rto st' = py_max (5 # 100) (py_min (estimated_rtt st' + 4 * dev_rtt st')%Q 5)
  ∧ (5 # 100 <= rto st' <= 5)%Q.
Proof.
  unfold update_rto_on_sample.
  destruct (Qeqb (estimated_rtt st) TIMEOUT_INITIAL); simpl;
    (split; [reflexivity | apply clamp_bounds; lra]).
Qed.

(** The first sample of a session. *)
Lemma first_sample sample :
  estimated_rtt (update_rto_on_sample sample init) = sample
  ∧ dev_rtt (update_rto_on_sample sample init) = (sample / 2)%Q.
Proof. done. Qed.

(** A sample met with an SRTT other than 1.0 is smoothed in. *)
Lemma smoothed_sample sample st :
  ¬ (estimated_rtt st == TIMEOUT_INITIAL)%Q →
  dev_rtt (update_rto_on_sample sample st)
    = ((1 - BETA) * dev_rtt st + BETA * Qabs (sample - estimated_rtt st))%Q
  ∧ estimated_rtt (update_rto_on_sample sample st)
    = ((1 - ALPHA) * estimated_rtt st + ALPHA * sample)%Q.
Proof.
  intros Hne. unfold update_rto_on_sample, Qeqb.
  destruct (Qeq_bool (estimated_rtt st) TIMEOUT_INITIAL) eqn:E; [|done].
  by apply Qeq_bool_iff in E.
Qed.

(** C7, at the samples 1.0 then 3.0: the second sample meets SRTT = 1.0,
    which the code reads as "no sample yet", and sets SRTT to 3 and RTTVAR
    to 3/2; the smoothing the claim prescribes for a second sample would give
    RTTVAR = 0.75 * 0.5 + 0.25 * |3 - 1| = 7/8 and SRTT = 0.875 + 0.375 = 5/4. *)
Theorem second_sample_taken_as_first :
  let st1 := update_rto_on_sample 1 init in
  let st2 := update_rto_on_sample 3 st1 in
  (estimated_rtt st1 == 1 ∧ dev_rtt st1 == 1 # 2
   ∧ estimated_rtt st2 == 3 ∧ dev_rtt st2 == 3 # 2)%Q
  ∧ ¬ (dev_rtt st2
       == (1 - BETA) * dev_rtt st1 + BETA * Qabs (3 - estimated_rtt st1))%Q
  ∧ ¬ (estimated_rtt st2 == (1 - ALPHA) * estimated_rtt st1 + ALPHA * 3)%Q.
Proof.
  cbv zeta. repeat split; try reflexivity; vm_compute; discriminate.
Qed.

End EstimatorFacts.

(** ** The CUBIC window *)

Module CubicFacts.
Import P2.

(** C4, as stated, fails in the initial state: the window starts at one
    DATA_SIZE, below the floor of ten. *)
Lemma initial_cwnd_below_floor :
  cwnd cubic_init == inject_Z Wire.DATA_SIZE
  ∧ ¬ (inject_Z (10 * Wire.DATA_SIZE) <= cwnd cubic_init)%Q.
Proof. split; [reflexivity|]. vm_compute. by intros H. Qed.

(** Halving on a triple duplicate ACK and the inflation per duplicate ACK do
    not clamp either. *)
Lemma halving_and_inflation_unclamped :
  let at_floor := {| cwnd := cwnd_floor; Wmax := cwnd_floor;
                     epoch_start := None; K := 0; in_recovery := true |} in
  let at_cap := {| cwnd := cwnd_cap; Wmax := cwnd_cap;
                   epoch_start := None; K := 0; in_recovery := true |} in
  (cwnd (on_congestion_event false at_floor) < cwnd_floor)%Q
  ∧ (cwnd_cap < cwnd (inflate at_cap))%Q.
Proof. by vm_compute. Qed.

(** C4, amended: a growth step of cubic_update (outside recovery, epoch
    already started) leaves cwnd within [10 DATA_SIZE, 10000 DATA_SIZE], for
    every clock reading and every value of K; a severe congestion event sets
    cwnd to 10 DATA_SIZE and W_max to half the cwnd held before it. *)
Theorem cwnd_clamped_by_growth_and_reset :
  (∀ (cube_root : Q → Q) (now w wmax epoch k : Q),
     let c := {| cwnd := w; Wmax := wmax; epoch_start := Some epoch;
                 K := k; in_recovery := false |} in
     (inject_Z (10 * Wire.DATA_SIZE) <= cwnd (cubic_update cube_root now c)
      <= inject_Z (10000 * Wire.DATA_SIZE))%Q)
  ∧ (∀ c : cubic,
       cwnd (on_congestion_event true c) = inject_Z (10 * Wire.DATA_SIZE)
       ∧ Wmax (on_congestion_event true c) = (cwnd c / 2)%Q).
Proof.
  split.
  - intros cube_root now w wmax epoch k. cbv zeta. unfold cubic_update.
    cbn [in_recovery epoch_start cwnd].
    apply EstimatorFacts.clamp_bounds. by vm_compute.
  - intros c. done.
Qed.

End CubicFacts.

(** ** Datagrams shorter than the header *)

Module ShortDatagram.
Import Tracker Sender.

Lemma collect_cum_None (un : gset Z) :
  un ≠ ∅ → collect_cum None un = Raise TypeError.
Proof.
  intros Hne. unfold collect_cum.
  destruct (elements un) as [|x l] eqn:E; [|done].
  destruct Hne. by apply leibniz_equiv, elements_empty_inv.
Qed.

(** The receiver drops a short datagram and keeps its state. *)
Lemma receiver_ignores_short packet (st : Client.state) :
  (length packet < 20)%nat → Client.on_datagram packet st = Ok (st, false).
Proof.
  intros Hlen. unfold Client.on_datagram.
  by rewrite WireFacts.parse_packet_short.
Qed.

(** C5, on the fixed-window sender: a datagram shorter than 20 bytes is not
    dropped.  parse_ack yields cum_ack = None, the duplicate-ACK fields are
    overwritten with (None, 0), and with a packet in flight the comparison
    [seq < cum_ack] raises TypeError, which ends send_file. *)
Theorem short_ack_raises_in_sender (clk : clock) (packet : list byte)
    (st : P1.state) (c : Z) :
  (length packet < 20)%nat →
  P1.last_cum_ack st = Some c →
  unacked (P1.trk st) ≠ ∅ →
  P1.on_ack clk packet st = Raise TypeError.
Proof.
  intros Hlen Hlast Hne. unfold P1.on_ack.
  rewrite WireFacts.parse_ack_short by done. simpl.
  rewrite Hlast. simpl. unfold P1.process_acked. simpl.
  by rewrite collect_cum_None.
Qed.

(** With nothing in flight the same datagram goes through, and leaves
    last_cum_ack = None behind. *)
Lemma short_ack_overwrites_dup_state (clk : clock) (packet : list byte)
    (st : P1.state) (c : Z) :
  (length packet < 20)%nat →
  P1.last_cum_ack st = Some c →
  unacked (P1.trk st) = ∅ →
  ∃ st', P1.on_ack clk packet st = Ok st'
         ∧ P1.last_cum_ack st' = None ∧ P1.dup_ack_count st' = 0.
Proof.
  intros Hlen Hlast Hemp. unfold P1.on_ack.
  rewrite WireFacts.parse_ack_short by done. simpl.
  rewrite Hlast. simpl. unfold P1.process_acked. simpl.
  rewrite Hemp. unfold collect_cum. rewrite elements_empty. simpl.
  unfold release, sorted. rewrite elements_empty. simpl. eauto.
Qed.

(** The CUBIC sender shares the defect. *)
Lemma short_ack_raises_in_cubic_sender (cube_root : Q → Q) (clk : clock)
    (packet : list byte) (st : P2.state) (c : Z) :
  (length packet < 20)%nat →
  P2.last_cum_ack st = Some c →
  unacked (P2.trk st) ≠ ∅ →
  P2.on_ack cube_root clk packet st = Raise TypeError.
Proof.
  intros Hlen Hlast Hne. unfold P2.on_ack.
  rewrite WireFacts.parse_ack_short by done. simpl.
  unfold P2.detect_dup. rewrite Hlast. simpl.
  destruct (P2.in_recovery (P2.cc st)); simpl; [done|].
  unfold P2.process_acked. simpl. by rewrite collect_cum_None.
Qed.

Definition one_byte_request : list byte := [x01].

(** The sender of the file "ab" with its single packet in flight. *)
Definition sender_with_packet_in_flight : P1.state :=
  {| P1.window_size := 5000; P1.packets := [[x61; x62]];
     P1.packet_bytes := [2];
     P1.trk := {| sent_once := {[0]}; unacked := {[0]};
                  send_times := {[0 := 100%Q]}; bytes_in_flight := 2 |};
     P1.est := Estimator.init; P1.next_seq := 1;
     P1.last_cum_ack := Some (-1); P1.dup_ack_count := 0;
     P1.outbox := [replicate 20 x00 ++ [x61; x62]]; P1.samples := [] |}.

Lemma sender_with_packet_in_flight_reached :
  P1.send_new (λ _, 100%Q) (P1.start 5000 [x61; x62])
  = Ok sender_with_packet_in_flight.
Proof. by vm_compute. Qed.

Lemma short_ack_raises_in_sender_witness :
  P1.on_ack (mk_clock (λ _, 101%Q) 101 101 101 101 (λ x, x)) one_byte_request
            sender_with_packet_in_flight
  = Raise TypeError.
Proof.
  apply (short_ack_raises_in_sender _ one_byte_request
           sender_with_packet_in_flight (-1)).
  - simpl. lia.
  - reflexivity.
  - intros H. apply (f_equal elements) in H. vm_compute in H. discriminate H.
Defined.

End ShortDatagram.

(** ** The receiver: end of stream *)

Module EndOfStream.
Import Sender Client.

(** The header of a data datagram whose sequence field holds the four
    given bytes. *)
Definition header (b3 b2 b1 b0 : byte) : list byte :=
  [b3; b2; b1; b0] ++ replicate 16 x00.

(** C10, as stated, fails at the sequence number 2^32 - 1: the cumulative
    value 2^32 does not fit the 4-byte field, create_ack raises struct.error,
    no ACK is sent and receive_file ends by the exception, before the
    output file is written. *)
Lemma eof_at_largest_seq_raises :
  Wire.parse_packet (header xff xff xff xff ++ Wire.EOF_MARKER)
    = Ok (Some (2 ^ 32 - 1, Wire.EOF_MARKER))
  ∧ on_datagram (header xff xff xff xff ++ Wire.EOF_MARKER) init
    = Raise StructError
  ∧ receive_file [Datagram (header xff xff xff xff ++ Wire.EOF_MARKER)]
    = Raise StructError.
Proof. by vm_compute. Qed.

(** C10, amended: a datagram whose payload is the three bytes "EOF" ends the
    stream whatever its sequence number s < 2^32 - 1 is: the ACK with
    cumulative value s + 1 and no SACK block is sent five times, the loop is
    left at once (later events are not read), and the state, the output
    included, is otherwise as before. *)
Theorem eof_by_payload_alone (hdr : list byte) (s : Z) (st : state)
    (later : list recv_event) :
  length hdr = 20%nat →
  Wire.unpack_u32 (take 4 hdr) = Ok s →
  s < 2 ^ 32 - 1 →
  ∃ final_ack,
    Wire.create_ack (s + 1) [] = Ok final_ack
    ∧ Wire.parse_ack final_ack = Ok (Some (s + 1), [])
    ∧ receive_loop (Datagram (hdr ++ Wire.EOF_MARKER) :: later) st
      = Ok ({| receive_buffer := receive_buffer st;
               received_seqs := received_seqs st;
               next_expected_seq := next_expected_seq st;
               received_data := received_data st;
               last_received_seq := last_received_seq st;
               sent := sent st ++ replicate 5 final_ack |}, true).
Proof.
  intros Hlen Hseq Hmax.
  pose proof (WireFacts.unpack_u32_nonneg _ _ Hseq) as Hnonneg.
  destruct (WireFacts.parse_create_ack_nil (s + 1)) as (ack & Hack & Hparse);
    [lia|].
  exists ack. split; [done|]. split; [done|].
  simpl. unfold on_datagram.
  rewrite WireFacts.parse_packet_header by done. rewrite Hseq. simpl.
  by rewrite Hack.
Qed.

Lemma eof_by_payload_alone_witness :
  ∃ final_ack,
    Wire.create_ack (7 + 1) [] = Ok final_ack
    ∧ Wire.parse_ack final_ack = Ok (Some (7 + 1), [])
    ∧ receive_loop [Datagram (header x00 x00 x00 x07 ++ Wire.EOF_MARKER)] init
      = Ok ({| receive_buffer := ∅; received_seqs := ∅;
               next_expected_seq := 0; received_data := [];
               last_received_seq := None;
               sent := [] ++ replicate 5 final_ack |}, true).
Proof.
  apply (eof_by_payload_alone (header x00 x00 x00 x07) 7 init []).
  - reflexivity.
  - reflexivity.
  - lia.
Defined.

(** C1, at the file whose only segment is the three bytes "EOF": the sender
    puts them in data packet 0, the receiver takes that packet for the end of
    the stream and writes an empty file. *)
Theorem eof_file_is_lost :
  P1.send_new (λ _, 100%Q) (P1.start 5000 Wire.EOF_MARKER)
    ≫= (λ st, receive_file (Datagram <$> P1.outbox st))
  = Ok (Some [])
  ∧ split_file Wire.EOF_MARKER = [Wire.EOF_MARKER].
Proof. by vm_compute. Qed.

(** The same on a longer file: 1180 bytes "a", then "EOF". *)
Lemma eof_tail_is_lost :
  let file_data := replicate 1180 x61 ++ Wire.EOF_MARKER in
  P1.send_new (λ _, 100%Q) (P1.start 5000 file_data)
    ≫= (λ st, receive_file (Datagram <$> P1.outbox st))
  = Ok (Some (replicate 1180 x61)).
Proof. by vm_compute. Qed.

End EndOfStream.

(** ** The receiver on a lossless run *)

Module Lossless.
Import Sender Client.

(** The datagrams of a lossless, in-order run: data packet [first_seq + i]
    for the i-th payload, then the EOF packet. *)
Fixpoint stream (first_seq : Z) (packets : list (list byte))
  : result (list (list byte)) :=
  match packets with
  | [] => eof ← Wire.create_packet first_seq Wire.EOF_MARKER; Ok [eof]
  | chunk :: packets' =>
      pkt ← Wire.create_packet first_seq chunk;
      rest ← stream (first_seq + 1) packets';
      Ok (pkt :: rest)
  end.

Lemma bytes_eqb_eq a b : bytes_eqb a b = true ↔ a = b.
Proof.
  revert b. induction a as [|x a IH]; intros [|y b]; simpl; try done.
  rewrite andb_true_iff, IH. split.
  - intros [->%Byte.byte_dec_bl ->]. done.
  - intros [= -> ->]. split; [by apply Byte.byte_dec_lb|done].
Qed.

Lemma parse_create_packet seq data pkt :
  Wire.create_packet seq data = Ok pkt →
  0 ≤ seq < 2 ^ 32 ∧ Wire.parse_packet pkt = Ok (Some (seq, data)).
Proof.
  unfold Wire.create_packet. intros (hd & Hpack & [= <-])%rbind_Ok.
  assert (0 ≤ seq < 2 ^ 32) as Hseq.
  { destruct (decide (0 ≤ seq < 2 ^ 32)) as [|Hn]; [done|].
    by rewrite WireFacts.pack_u32_out_of_range in Hpack. }
  split; [done|].
  destruct (WireFacts.pack_u32_Ok seq Hseq) as (b3 & b2 & b1 & b0 & Hp & Hu).
  rewrite Hp in Hpack. injection Hpack as <-.
  change (Wire.parse_packet (([b3; b2; b1; b0] ++ Wire.zeros Wire.RESERVED_SIZE)
                             ++ data) = Ok (Some (seq, data))).
  rewrite WireFacts.parse_packet_header by done.
  change (take 4 _) with [b3; b2; b1; b0]. by rewrite Hu.
Qed.

(** Nothing is buffered, [k] packets are delivered and make up [acc]. *)
Definition in_sync (st : state) (k : Z) (acc : list byte) : Prop :=
  receive_buffer st = ∅ ∧ received_seqs st = ∅
  ∧ next_expected_seq st = k ∧ received_data st = acc.

Lemma in_order_packet st k acc chunk pkt :
  in_sync st k acc → chunk ≠ Wire.EOF_MARKER → k + 1 < 2 ^ 32 →
  Wire.create_packet k chunk = Ok pkt →
  ∃ st', on_datagram pkt st = Ok (st', false) ∧ in_sync st' (k + 1) (acc ++ chunk).
Proof.
  intros (Hbuf & Hseqs & Hnext & Hdata) Hneq Hk [Hk0 Hparse]%parse_create_packet.
  unfold on_datagram. rewrite Hparse. simpl.
  destruct (bytes_eqb chunk Wire.EOF_MARKER) eqn:E;
    [by apply bytes_eqb_eq in E|].
  unfold store. rewrite Hseqs, Hbuf.
  destruct (decide (k ∈ (∅ : gset Z))) as [Hin|_]; [by apply not_elem_of_empty in Hin|].
  cbn [receive_buffer].
  rewrite map_size_insert_None, map_size_empty by apply lookup_empty. simpl. rewrite Hnext, lookup_insert_eq.
  destruct (decide (k ∈ {[k]} ∪ (∅ : gset Z))) as [_|Hn];
    [|destruct Hn; apply elem_of_union_l; by apply elem_of_singleton].
  unfold current_ack. simpl.
  assert (({[k]} ∪ ∅) ∖ {[k]} = (∅ : gset Z)) as ->.
  { apply set_eq. intros x.
    rewrite elem_of_difference, elem_of_union, elem_of_singleton, elem_of_empty.
    tauto. }
  unfold find_sack_blocks.
  destruct (decide (k ∈ (∅ : gset Z))) as [Hin|_]; [by apply not_elem_of_empty in Hin|].
  destruct (WireFacts.parse_create_ack_nil (k + 1)) as (ack & -> & _); [lia|].
  simpl. eexists. split; [done|]. repeat split; simpl; [|by rewrite Hdata].
  by rewrite delete_insert_eq, delete_empty.
Qed.

Lemma in_order_stream packets : ∀ st k acc datagrams,
  in_sync st k acc →
  Forall (λ chunk, chunk ≠ Wire.EOF_MARKER) packets →
  k + Z.of_nat (length packets) + 1 < 2 ^ 32 →
  stream k packets = Ok datagrams →
  ∃ st', receive_loop (Datagram <$> datagrams) st = Ok (st', true)
         ∧ received_data st' = acc ++ concat packets.
Proof.
  induction packets as [|chunk packets IH];
    intros st k acc datagrams Hsync Hne Hk; simpl.
  - intros (eof & Heof & [= <-])%rbind_Ok.
    apply parse_create_packet in Heof as [Hk0 Hparse]. simpl.
    unfold on_datagram. rewrite Hparse. simpl.
    destruct (WireFacts.parse_create_ack_nil (k + 1)) as (ack & -> & _);
      [simpl in Hk; lia|].
    simpl. eexists. split; [done|]. simpl.
    destruct Hsync as (_ & _ & _ & ->). by rewrite app_nil_r.
  - intros (pkt & Hpkt & (rest & Hrest & [= <-])%rbind_Ok)%rbind_Ok.
    apply Forall_cons in Hne as [Hne1 Hne].
    destruct (in_order_packet st k acc chunk pkt) as (st1 & Hstep & Hsync1);
      [done|done|simpl in Hk; lia|done|].
    destruct (IH st1 (k + 1) (acc ++ chunk) rest) as (st' & Hloop & Hdata);
      [done|done|simpl in Hk; lia|done|].
    exists st'. split.
    + simpl. rewrite Hstep. simpl. exact Hloop.
    + by rewrite Hdata, <- app_assoc.
Qed.

(** Where no payload is the three bytes "EOF", the receiver that gets the
    data packets in order, then the EOF packet, writes the source file. *)
Lemma lossless_in_order_fidelity (file_data : list byte) datagrams :
  Forall (λ chunk, chunk ≠ Wire.EOF_MARKER) (split_file file_data) →
  Z.of_nat (length (split_file file_data)) + 1 < 2 ^ 32 →
  stream 0 (split_file file_data) = Ok datagrams →
  receive_file (Datagram <$> datagrams) = Ok (Some file_data).
Proof.
  intros Hne Hlen Hstream.
  destruct (in_order_stream (split_file file_data) init 0 [] datagrams)
    as (st' & Hloop & Hdata); [done|done|lia|done|].
  unfold receive_file. rewrite Hloop. simpl.
  by rewrite Hdata, LoopsStop.split_file_concat.
Qed.

Lemma lossless_in_order_fidelity_witness :
  receive_file (Datagram <$> [header_of 0 ++ [x61; x62];
                              header_of 1 ++ Wire.EOF_MARKER])
  = Ok (Some [x61; x62]).
Proof.
  apply (lossless_in_order_fidelity [x61; x62]).
  - repeat constructor. discriminate.
  - reflexivity.
  - reflexivity.
Defined.

End Lossless.

(** ** The receiver: SACK blocks *)

Module SackBlocks.
Import Sender Client.

(** A block all of whose members are in [seqs]. *)
Definition block_within (seqs : gset Z) (b : Z * Z) : Prop :=
  b.1 ≤ b.2 ∧ ∀ x, b.1 ≤ x ≤ b.2 → x ∈ seqs.

Lemma expand_down_within fuel (seqs : gset Z) r start :
  start ≤ r → (∀ x, start ≤ x ≤ r → x ∈ seqs) →
  expand_down fuel seqs start ≤ r
  ∧ ∀ x, expand_down fuel seqs start ≤ x ≤ r → x ∈ seqs.
Proof.
  revert start. induction fuel as [|fuel IH]; intros start Hle Hin; simpl.
  - done.
  - destruct (decide (start - 1 ∈ seqs)) as [Hmem|]; [|done].
    apply IH; [lia|]. intros x Hx.
    destruct (decide (x = start - 1)) as [->|]; [done|]. apply Hin. lia.
Qed.

Lemma expand_up_within fuel (seqs : gset Z) r end_ :
  r ≤ end_ → (∀ x, r ≤ x ≤ end_ → x ∈ seqs) →
  r ≤ expand_up fuel seqs end_
  ∧ ∀ x, r ≤ x ≤ expand_up fuel seqs end_ → x ∈ seqs.
Proof.
  revert end_. induction fuel as [|fuel IH]; intros end_ Hle Hin; simpl.
  - done.
  - destruct (decide (end_ + 1 ∈ seqs)) as [Hmem|]; [|done].
    apply IH; [lia|]. intros x Hx.
    destruct (decide (x = end_ + 1)) as [->|]; [done|]. apply Hin. lia.
Qed.

Lemma runs_from_within (seqs : gset Z) l s e :
  block_within seqs (s, e) → (∀ x, x ∈ l → x ∈ seqs) →
  Forall (block_within seqs) (runs_from s e l).
Proof.
  revert s e. induction l as [|x l IH]; intros s e [Hse Hin] Hl; simpl in *.
  - constructor; [done | constructor].
  - assert (x ∈ seqs) as Hx by (apply Hl; by left).
    assert (∀ y, y ∈ l → y ∈ seqs) as Hl' by (intros y ?; apply Hl; by right).
    destruct (Z.eqb_spec x (e + 1)) as [->|Hne].
    + apply IH; [|done]. split; simpl; [lia|]. intros y Hy.
      destruct (decide (y = e + 1)) as [->|]; [done|]. apply Hin. lia.
    + constructor; [done|]. apply IH; [|done].
      split; simpl; [lia|]. intros y Hy. by replace y with x by lia.
Qed.

Lemma other_block_within (seqs : gset Z) r found :
  Forall (block_within seqs) found →
  Forall (block_within seqs) (other_block r found).
Proof.
  induction 1 as [|[s e] found Hb _ IH]; simpl; [done|].
  destruct ((s <=? r) && (r <=? e)); [done|].
  constructor; [done | constructor].
Qed.

(** Whatever the state, an emitted block is non-empty and lists only
    sequence numbers held in received_seqs. *)
Lemma find_sack_blocks_within (seqs : gset Z) (recent : option Z) :
  Forall (block_within seqs) (find_sack_blocks seqs recent).
Proof.
  unfold find_sack_blocks. destruct recent as [r|]; [|done].
  destruct (decide (r ∈ seqs)) as [Hr|]; [|done].
  apply Forall_take. constructor.
  - destruct (expand_down_within (size seqs) seqs r r) as [Hd1 Hd2]; [lia| |].
    { intros x Hx. by replace x with r by lia. }
    destruct (expand_up_within (size seqs) seqs r r) as [Hu1 Hu2]; [lia| |].
    { intros x Hx. by replace x with r by lia. }
    split; simpl; [lia|]. intros x Hx.
    destruct (Z.le_gt_cases x r); [apply Hd2 | apply Hu2]; lia.
  - apply other_block_within. unfold blocks_found.
    destruct (sorted seqs) as [|x l] eqn:E; [done|].
    apply runs_from_within.
    + split; simpl; [lia|]. intros y Hy. replace y with x by lia.
      apply elem_of_sorted. rewrite E. by left.
    + intros y Hy. apply elem_of_sorted. rewrite E. by right.
Qed.

(** Every buffered sequence number is at or above the delivery cursor. *)
Definition above_cursor (st : state) : Prop :=
  ∀ x, x ∈ received_seqs st → next_expected_seq st ≤ x.

Lemma deliver_above_cursor fuel st st' :
  above_cursor st → deliver fuel st = Ok st' → above_cursor st'.
Proof.
  revert st. induction fuel as [|fuel IH]; intros st Habove; simpl.
  - by intros [= <-].
  - destruct (receive_buffer st !! next_expected_seq st); [|by intros [= <-]].
    destruct (decide _); [|done]. apply IH. intros x. simpl.
    rewrite elem_of_difference, elem_of_singleton. intros [Hx Hne].
    apply Habove in Hx. lia.
Qed.

(** A data packet is stored, the delivery loop runs, one ACK is sent. *)
Lemma on_datagram_data packet seq data st st' :
  Wire.parse_packet packet = Ok (Some (seq, data)) →
  on_datagram packet st = Ok (st', false) →
  ∃ st2 ack,
    deliver (size (receive_buffer (store seq data st))) (store seq data st)
      = Ok st2
    ∧ current_ack st2 (Some seq) = Ok ack
    ∧ st' = with_ack st2 (Some seq) [ack].
Proof.
  intros Hparse. unfold on_datagram. rewrite Hparse. simpl.
  destruct (bytes_eqb data Wire.EOF_MARKER).
  { by intros (ack & _ & [= _ ?])%rbind_Ok. }
  intros (st2 & Hdel & (ack & Hack & [= <-])%rbind_Ok)%rbind_Ok. eauto.
Qed.

(** While no packet below the cursor arrives, every emitted block starts at
    or above next_expected_seq and lists buffered packets only. *)
Lemma fresh_packet_sack_valid packet seq data st st' :
  above_cursor st →
  Wire.parse_packet packet = Ok (Some (seq, data)) →
  next_expected_seq st ≤ seq →
  on_datagram packet st = Ok (st', false) →
  above_cursor st'
  ∧ Forall (λ b, next_expected_seq st' ≤ b.1 ∧ block_within (received_seqs st') b)
           (find_sack_blocks (received_seqs st') (Some seq)).
Proof.
  intros Habove Hparse Hseq Hstep.
  destruct (on_datagram_data _ _ _ _ _ Hparse Hstep) as (st2 & ack & Hdel & _ & ->).
  assert (above_cursor st2) as Habove2.
  { eapply deliver_above_cursor; [|exact Hdel]. unfold store.
    destruct (decide (seq ∈ received_seqs st)); [done|].
    intros x. simpl. rewrite elem_of_union, elem_of_singleton.
    intros [->|Hx]; [done|by apply Habove]. }
  split; [done|].
  change (received_seqs (with_ack st2 (Some seq) [ack])) with (received_seqs st2).
  change (next_expected_seq (with_ack st2 (Some seq) [ack]))
    with (next_expected_seq st2).
  eapply Forall_impl; [apply find_sack_blocks_within|].
  intros b Hb. split; [|done]. apply Habove2, Hb. destruct Hb. lia.
Qed.

(** Packet 2 arrives first: it is buffered and reported. *)
Definition after_packet_2 : state :=
  {| receive_buffer := {[2 := [x61]]}; received_seqs := {[2]};
     next_expected_seq := 0; received_data := [];
     last_received_seq := Some 2;
     sent := [[x00; x00; x00; x00; x00; x00; x00; x02; x00; x00; x00; x02;
               x00; x00; x00; x00; x00; x00; x00; x00]] |}.

Lemma fresh_packet_sack_valid_witness :
  above_cursor after_packet_2
  ∧ Forall (λ b, next_expected_seq after_packet_2 ≤ b.1
                 ∧ block_within (received_seqs after_packet_2) b)
           (find_sack_blocks (received_seqs after_packet_2) (Some 2)).
Proof.
  apply (fresh_packet_sack_valid (header_of 2 ++ [x61]) 2 [x61] init).
  - intros x Hx. by apply not_elem_of_empty in Hx.
  - reflexivity.
  - simpl. lia.
  - by vm_compute.
Defined.

(** C3, at the arrivals 0, 1, 1: the second copy of packet 1 comes after
    packet 1 was delivered and dropped from received_seqs, so it is stored
    again, and the ACK for it carries the block (1, 1) below the cumulative
    value 2. *)
Theorem delivered_duplicate_is_sacked :
  let data0 := header_of 0 ++ [x61] in
  let data1 := header_of 1 ++ [x62] in
  receive_loop [Datagram data0; Datagram data1; Datagram data1] init
    ≫= (λ r, Ok (next_expected_seq r.1, received_data r.1,
                 elements (received_seqs r.1), Wire.parse_ack <$> sent r.1))
  = Ok (2, [x61; x62], [1],
        [Ok (Some 1, []); Ok (Some 2, []); Ok (Some 2, [(1, 1)])]).
Proof. by vm_compute. Qed.

End SackBlocks.

(** ** The tracker: in-flight accounting and release *)

Module TrackerFacts.
Import Tracker Sender.

(** The payload length of [seq], and its sum over a set of sequence numbers. *)
Definition payload_len (packets : list (list byte)) (seq : Z) : Z :=
  match py_index packets seq with
  | Ok data => Z.of_nat (length data)
  | Raise _ => 0
  end.

Definition payload_sum (packets : list (list byte)) (X : gset Z) : Z :=
  set_fold (λ seq acc, payload_len packets seq + acc) 0 X.

Lemma payload_sum_empty packets : payload_sum packets ∅ = 0.
Proof. apply set_fold_empty. Qed.

Lemma payload_sum_insert packets (X : gset Z) seq :
  seq ∉ X →
  payload_sum packets ({[seq]} ∪ X)
  = payload_len packets seq + payload_sum packets X.
Proof.
  intros Hnotin. unfold payload_sum.
  rewrite (set_fold_disj_union_strong (=) _ _ {[seq]} X).
  - rewrite set_fold_singleton, Z.add_0_r.
    rewrite <- (Z.add_0_r (payload_len packets seq)) at 1.
    apply (set_fold_comm_acc_strong (=) _ (λ acc, payload_len packets seq + acc)).
    + solve_proper.
    + intros; lia.
  - solve_proper.
  - intros; lia.
  - by apply disjoint_singleton_l.
Qed.

Lemma payload_sum_delete packets (X : gset Z) seq :
  seq ∈ X →
  payload_sum packets (X ∖ {[seq]})
  = payload_sum packets X - payload_len packets seq.
Proof.
  intros Hin.
  assert (X = {[seq]} ∪ X ∖ {[seq]}) as HX.
  { apply set_eq. intros x. rewrite elem_of_union, elem_of_difference,
      elem_of_singleton. destruct (decide (x = seq)) as [->|]; tauto. }
  rewrite HX at 2. rewrite payload_sum_insert; [lia|].
  rewrite elem_of_difference, elem_of_singleton. tauto.
Qed.

Lemma py_index_Ok {A} (l : list A) (i : Z) :
  0 ≤ i < Z.of_nat (length l) → ∃ a, py_index l i = Ok a ∧ l !! Z.to_nat i = Some a.
Proof.
  intros Hi. unfold py_index.
  destruct (Z.ltb_spec i 0); [lia|].
  destruct (Z.leb_spec 0 i); [|lia].
  destruct (Z.ltb_spec i (Z.of_nat (length l))); [|lia]. simpl.
  destruct (l !! Z.to_nat i) as [a|] eqn:E; [eauto|].
  apply lookup_ge_None in E. lia.
Qed.

Lemma py_index_lengths packets seq :
  0 ≤ seq < Z.of_nat (length packets) →
  py_index (lengths packets) seq = Ok (payload_len packets seq).
Proof.
  intros Hseq. unfold payload_len.
  destruct (py_index_Ok packets seq Hseq) as (d & -> & Hd).
  destruct (py_index_Ok (lengths packets) seq) as (n & -> & Hn).
  { unfold lengths. by rewrite length_fmap. }
  unfold lengths in Hn. rewrite list_lookup_fmap, Hd in Hn. by injection Hn as <-.
Qed.

(** The accounting invariant of a tracker over the packets of a session. *)
Record in_flight_ok (packets : list (list byte)) (packet_bytes : list Z)
    (tr : Tracker.t) : Prop := mk_ok {
  ok_lengths : packet_bytes = lengths packets;
  ok_sent : unacked tr ⊆ sent_once tr;
  ok_range : ∀ seq, seq ∈ unacked tr → 0 ≤ seq < Z.of_nat (length packets);
  ok_flight : bytes_in_flight tr = payload_sum packets (unacked tr)
}.

Lemma in_flight_ok_init packets :
  in_flight_ok packets (lengths packets) Tracker.init.
Proof.
  split; simpl; [done|done| |by rewrite payload_sum_empty].
  intros seq Hseq. by apply not_elem_of_empty in Hseq.
Qed.

Lemma record_send_ok packets pb seq now tr tr' :
  in_flight_ok packets pb tr → 0 ≤ seq < Z.of_nat (length packets) →
  record_send pb seq now tr = Ok tr' → in_flight_ok packets pb tr'.
Proof.
  intros [Hlen Hsent Hrange Hflight] Hseq. unfold record_send.
  destruct (decide (seq ∈ sent_once tr)) as [Hin|Hnotin].
  - intros [= <-]. by split.
  - rewrite Hlen, py_index_lengths by done. simpl. intros [= <-].
    split; simpl.
    + done.
    + by apply union_mono_l.
    + intros x [->%elem_of_singleton|Hx]%elem_of_union; [done|by apply Hrange].
    + rewrite payload_sum_insert; [lia|]. intros Hun. by apply Hnotin, Hsent.
Qed.

(** A re-send touches send_times and nothing else. *)
Definition same_flight (tr tr' : Tracker.t) : Prop :=
  sent_once tr' = sent_once tr ∧ unacked tr' = unacked tr
  ∧ bytes_in_flight tr' = bytes_in_flight tr.

Lemma retransmit_same_flight packets stamp seq tr out tr' out' :
  retransmit packets stamp seq (tr, out) = Ok (tr', out') →
  same_flight tr tr' ∧ send_times tr' !! seq = Some (stamp seq).
Proof.
  unfold retransmit.
  intros (data & _ & (pkt & _ & [= <- <-])%rbind_Ok)%rbind_Ok.
  split; [done|]. simpl. apply lookup_insert_eq.
Qed.

Lemma sweep_same_flight packets stamp seqs tr out tr' out' :
  rfold (retransmit packets stamp) seqs (tr, out) = Ok (tr', out') →
  same_flight tr tr'.
Proof.
  intros Hrun.
  apply (rfold_invariant (λ s, same_flight tr s.1)) in Hrun; [done| |done].
  intros seq [tr1 out1] [tr2 out2] _ (? & ? & ?) Hstep.
  apply retransmit_same_flight in Hstep as [(? & ? & ?) _].
  simpl in *. repeat split; congruence.
Qed.

Lemma same_flight_ok packets pb tr tr' :
  same_flight tr tr' → in_flight_ok packets pb tr → in_flight_ok packets pb tr'.
Proof.
  intros (Hs & Hu & Hb) [Hlen Hsent Hrange Hflight].
  split; rewrite ?Hs, ?Hu, ?Hb; done.
Qed.

(** *** Which sequence numbers an ACK collects *)

Lemma collect_cum_loop c l (acc : gset Z) :
  ∃ S, rfold (λ seq acc, b ← py_lt seq (Some c);
                         Ok (if b : bool then {[seq]} ∪ acc else acc)) l acc
       = Ok S
       ∧ ∀ x : Z, x ∈ S ↔ x ∈ acc ∨ (x ∈ l ∧ x < c).
Proof.
  revert acc. induction l as [|y l IH]; intros acc.
  - exists acc. split; [done|]. intros x. rewrite elem_of_nil. tauto.
  - destruct (IH (if y <? c then {[y]} ∪ acc else acc)) as (S & HS & Hmem).
    exists S. split; [by rewrite <- HS|]. intros x. rewrite Hmem, elem_of_cons.
    destruct (Z.ltb_spec y c).
    + rewrite elem_of_union, elem_of_singleton.
      destruct (decide (x = y)) as [->|]; tauto.
    + destruct (decide (x = y)) as [->|]; [|tauto].
      split; intros [?|[? ?]]; try tauto; lia.
Qed.

Lemma collect_cum_Some c (un : gset Z) :
  ∃ S, collect_cum (Some c) un = Ok S ∧ ∀ x, x ∈ S ↔ x ∈ un ∧ x < c.
Proof.
  destruct (collect_cum_loop c (elements un) ∅) as (S & HS & Hmem).
  exists S. split; [done|]. intros x.
  rewrite Hmem, elem_of_elements, elem_of_empty. tauto.
Qed.

Lemma collect_cum_empty cum : collect_cum cum ∅ = Ok ∅.
Proof. unfold collect_cum. by rewrite elements_empty. Qed.

(** [collect_cum] either raises (cum_ack is None, something is unacked) or
    returns the unacked sequence numbers below cum_ack. *)
Lemma collect_cum_cases cum (un : gset Z) :
  (cum = None ∧ un ≠ ∅ ∧ collect_cum cum un = Raise TypeError)
  ∨ ∃ S, collect_cum cum un = Ok S
         ∧ ∀ x, x ∈ S ↔ x ∈ un ∧ ∃ c, cum = Some c ∧ x < c.
Proof.
  destruct cum as [c|].
  - right. destruct (collect_cum_Some c un) as (S & HS & Hmem).
    exists S. split; [done|]. intros x. rewrite Hmem. split.
    + intros [Hx Hlt]. eauto.
    + by intros [Hx (c' & [= <-] & Hlt)].
  - destruct (decide (un = ∅)) as [->|Hne].
    + right. exists ∅. split; [apply collect_cum_empty|].
      intros x. rewrite elem_of_empty. split; [done|]. by intros [_ (c & ? & _)].
    + left. split; [done|]. split; [done|].
      by apply ShortDatagram.collect_cum_None.
Qed.

Lemma elem_of_collect_list (un : gset Z) l (acc : gset Z) (x : Z) :
  x ∈ foldl (λ acc seq, if decide (seq ∈ un) then {[seq]} ∪ acc else acc) acc l
  ↔ x ∈ acc ∨ (x ∈ un ∧ x ∈ l).
Proof.
  revert acc. induction l as [|y l IH]; intros acc; simpl.
  - rewrite elem_of_nil. tauto.
  - rewrite IH, elem_of_cons. destruct (decide (y ∈ un)) as [Hy|Hy].
    + rewrite elem_of_union, elem_of_singleton.
      destruct (decide (x = y)) as [->|]; tauto.
    + destruct (decide (x = y)) as [->|]; tauto.
Qed.

Lemma elem_of_collect_range (un : gset Z) s e (acc : gset Z) (x : Z) :
  x ∈ collect_range un s e acc ↔ x ∈ acc ∨ (x ∈ un ∧ s ≤ x ≤ e).
Proof.
  unfold collect_range. rewrite elem_of_collect_list, elem_of_seqZ.
  split; (intros [?|[? ?]]; [tauto|right; split; [done|lia]]).
Qed.

(** *** The release loop *)

Lemma release_one_sets pb now seq tr est log tr' est' log' :
  release_one pb now seq (tr, est, log) = Ok (tr', est', log') →
  unacked tr' = unacked tr ∖ {[seq]} ∧ sent_once tr' = sent_once tr
  ∧ ∃ len, py_index pb seq = Ok len
           ∧ bytes_in_flight tr' = bytes_in_flight tr - len.
Proof.
  unfold release_one. intros (len & Hlen & Hrest)%rbind_Ok.
  assert ((if decide (seq ∈ unacked tr) then unacked tr ∖ {[seq]}
           else unacked tr) = unacked tr ∖ {[seq]}) as Hun.
  { destruct (decide (seq ∈ unacked tr)) as [|Hn]; [done|].
    apply set_eq. intros x. rewrite elem_of_difference, elem_of_singleton.
    split; [|tauto]. intros Hx. split; [done|]. by intros ->. }
  rewrite Hun in Hrest.
  destruct (send_times tr !! seq); injection Hrest as <- <- <-; simpl; eauto.
Qed.

Lemma release_loop_sets pb now l tr est log tr' est' log' :
  rfold (release_one pb now) l (tr, est, log) = Ok (tr', est', log') →
  unacked tr' = unacked tr ∖ list_to_set l ∧ sent_once tr' = sent_once tr.
Proof.
  revert tr est log. induction l as [|seq l IH]; intros tr est log; simpl.
  - intros [= <- <- <-]. split; [|done].
    apply set_eq. intros x. rewrite elem_of_difference, elem_of_empty. tauto.
  - intros ([[tr1 est1] log1] & Hone & Hrest)%rbind_Ok.
    apply release_one_sets in Hone as (Hu1 & Hs1 & _).
    apply IH in Hrest as [Hu Hs]. split; [|congruence].
    rewrite Hu, Hu1. apply set_eq. intros x.
    rewrite !elem_of_difference, elem_of_union, elem_of_singleton. tauto.
Qed.

Lemma release_one_ok packets pb now seq tr est log tr' est' log' :
  in_flight_ok packets pb tr → seq ∈ unacked tr →
  release_one pb now seq (tr, est, log) = Ok (tr', est', log') →
  in_flight_ok packets pb tr'.
Proof.
  intros [Hlen Hsent Hrange Hflight] Hseq Hone.
  apply release_one_sets in Hone as (Hu & Hs & len & Hidx & Hb).
  rewrite Hlen, py_index_lengths in Hidx by auto. injection Hidx as <-.
  split.
  - done.
  - rewrite Hu, Hs. intros x [Hx _]%elem_of_difference. by apply Hsent.
  - rewrite Hu. intros x [Hx _]%elem_of_difference. by apply Hrange.
  - rewrite Hb, Hu, payload_sum_delete by done. lia.
Qed.

Lemma release_loop_ok packets pb now l tr est log tr' est' log' :
  NoDup l → (∀ x, x ∈ l → x ∈ unacked tr) →
  in_flight_ok packets pb tr →
  rfold (release_one pb now) l (tr, est, log) = Ok (tr', est', log') →
  in_flight_ok packets pb tr'.
Proof.
  intros Hnd. revert tr est log.
  induction Hnd as [|seq l Hnotin Hnd IH]; intros tr est log Hin Hok; simpl.
  - by intros [= <- <- <-].
  - intros ([[tr1 est1] log1] & Hone & Hrest)%rbind_Ok.
    assert (seq ∈ unacked tr) as Hseq by (apply Hin; by left).
    eapply IH; [| |exact Hrest].
    + apply release_one_sets in Hone as (Hu1 & _).
      intros x Hx. rewrite Hu1, elem_of_difference, elem_of_singleton.
      split; [apply Hin; by right|]. by intros ->.
    + eapply release_one_ok; [exact Hok|exact Hseq|exact Hone].
Qed.

(** The loop runs to its end when every member is a packet index. *)
Lemma release_loop_total pb now l s :
  (∀ x, x ∈ l → 0 ≤ x < Z.of_nat (length pb)) →
  ∃ s', rfold (release_one pb now) l s = Ok s'.
Proof.
  revert s. induction l as [|seq l IH]; intros [[tr est] log] Hrange; simpl.
  - eauto.
  - destruct (py_index_Ok pb seq) as (len & Hlen & _); [apply Hrange; by left|].
    unfold release_one at 1. rewrite Hlen. simpl.
    destruct (send_times tr !! seq); simpl;
      apply IH; intros x Hx; apply Hrange; by right.
Qed.

Lemma release_empty pb now s : release pb now ∅ s = Ok s.
Proof. unfold release, sorted. by rewrite elements_empty. Qed.

(** *** Which samples the release loop feeds to the estimator *)

(** The sample taken for [seq] at time [now]: none without a record. *)
Definition sample_of (now : Q) (times : gmap Z Q) (seq : Z) : option (Z * Q) :=
  (λ t0, (seq, (now - t0)%Q)) <$> times !! seq.

Definition feed (est : Estimator.t) (fed : list (Z * Q)) : Estimator.t :=
  foldl (λ e p, Estimator.update_rto_on_sample p.2 e) est fed.

Lemma omap_ext_in {A B} (f g : A → option B) (l : list A) :
  (∀ x, x ∈ l → f x = g x) → omap f l = omap g l.
Proof.
  induction l as [|y l IH]; intros Hfg; csimpl; [done|].
  rewrite (Hfg y) by (by left). rewrite IH; [done|].
  intros x Hx. apply Hfg. by right.
Qed.

Lemma omap_cons_option {A B} (f : A → option B) (x : A) (l : list A) :
  omap f (x :: l) = option_list (f x) ++ omap f l.
Proof. csimpl. by destruct (f x). Qed.

Lemma release_one_samples pb now seq tr est log tr' est' log' :
  release_one pb now seq (tr, est, log) = Ok (tr', est', log') →
  send_times tr' = delete seq (send_times tr)
  ∧ log' = log ++ option_list (sample_of now (send_times tr) seq)
  ∧ est' = feed est (option_list (sample_of now (send_times tr) seq)).
Proof.
  unfold release_one, sample_of. intros (len & _ & Hone)%rbind_Ok.
  destruct (send_times tr !! seq) as [t0|] eqn:E; injection Hone as <- <- <-;
    simpl.
  - done.
  - by rewrite app_nil_r, delete_id.
Qed.

Lemma release_loop_samples pb now l tr est log tr' est' log' :
  NoDup l →
  rfold (release_one pb now) l (tr, est, log) = Ok (tr', est', log') →
  log' = log ++ omap (sample_of now (send_times tr)) l
  ∧ est' = feed est (omap (sample_of now (send_times tr)) l).
Proof.
  intros Hnd. revert tr est log.
  induction Hnd as [|seq l Hnotin Hnd IH]; intros tr est log.
  - intros [= <- <- <-]. by rewrite app_nil_r.
  - change (rfold (release_one pb now) (seq :: l) (tr, est, log))
      with (release_one pb now seq (tr, est, log) ≫= rfold (release_one pb now) l).
    intros ([[tr1 est1] log1] & Hone & Hrest)%rbind_Ok.
    apply IH in Hrest as [-> ->].
    apply release_one_samples in Hone as (-> & -> & ->).
    rewrite omap_cons_option.
    rewrite (omap_ext_in (sample_of now (delete seq (send_times tr)))
                         (sample_of now (send_times tr))).
    + unfold feed. by rewrite <- app_assoc, foldl_app.
    + intros x Hx. unfold sample_of. rewrite lookup_delete_ne; [done|].
      by intros ->.
Qed.


End TrackerFacts.

(** ** The fixed-window sender *)

Module P1Facts.
Import Tracker Sender TrackerFacts.

(** [x] is acknowledged by the ACK (cum_ack, blocks), blocks clipped to the
    packets of the session. *)
Definition covers (total : Z) (cum_ack : option Z) (blocks : list (Z * Z))
    (x : Z) : Prop :=
  (∃ c, cum_ack = Some c ∧ x < c)
  ∨ Exists (λ b, Z.max 0 b.1 ≤ x ≤ Z.min b.2 (total - 1)) blocks.

Lemma p1_elem_of_collect_sack total (un : gset Z) blocks (acc : gset Z) (x : Z) :
  x ∈ P1.collect_sack total un blocks acc
  ↔ x ∈ acc
    ∨ (x ∈ un ∧ Exists (λ b, Z.max 0 b.1 ≤ x ≤ Z.min b.2 (total - 1)) blocks).
Proof.
  unfold P1.collect_sack. revert acc.
  induction blocks as [|[start end_] blocks IH]; intros acc; simpl.
  - rewrite Exists_nil. tauto.
  - rewrite IH, elem_of_collect_range, Exists_cons. simpl. tauto.
Qed.

(** The newly acknowledged set is the covered part of [unacked], unless
    the cumulative comparison raises. *)
Lemma p1_newly_acked_spec total cum_ack blocks (un : gset Z) :
  (cum_ack = None ∧ un ≠ ∅ ∧ collect_cum cum_ack un = Raise TypeError)
  ∨ ∃ by_cum, collect_cum cum_ack un = Ok by_cum
      ∧ ∀ x, x ∈ P1.collect_sack total un blocks by_cum
             ↔ x ∈ un ∧ covers total cum_ack blocks x.
Proof.
  destruct (collect_cum_cases cum_ack un) as [?|(S & HS & Hmem)]; [by left|].
  right. exists S. split; [done|]. intros x.
  rewrite p1_elem_of_collect_sack, Hmem. unfold covers. tauto.
Qed.

Lemma p1_process_acked_unfold now cum_ack blocks total pb tr est log :
  P1.process_acked now cum_ack blocks total pb (tr, est, log)
  = collect_cum cum_ack (unacked tr)
      ≫= λ by_cum, release pb now (P1.collect_sack total (unacked tr) blocks by_cum)
                           (tr, est, log).
Proof. done. Qed.

Lemma p1_process_acked_idempotent now now' cum_ack blocks total pb s :
  P1.process_acked now cum_ack blocks total pb s
    ≫= P1.process_acked now' cum_ack blocks total pb
  = P1.process_acked now cum_ack blocks total pb s.
Proof.
  destruct s as [[tr est] log].
  rewrite (p1_process_acked_unfold now).
  destruct (p1_newly_acked_spec total cum_ack blocks (unacked tr))
    as [(_ & _ & ->)|(S & HS & HN)]; [done|]. rewrite HS. simpl.
  destruct (release pb now _ (tr, est, log)) as [[[tr1 est1] log1]|e] eqn:Hrel;
    [|done]. simpl.
  apply release_loop_sets in Hrel as [Hun _].
  rewrite p1_process_acked_unfold.
  destruct (p1_newly_acked_spec total cum_ack blocks (unacked tr1))
    as [(-> & Hne & _)|(S' & -> & HN')].
  - rewrite ShortDatagram.collect_cum_None in HS; [done|].
    intros Hemp. apply Hne. rewrite Hun, Hemp. apply set_eq. intros x.
    rewrite elem_of_difference, elem_of_empty. tauto.
  - simpl. assert (P1.collect_sack total (unacked tr1) blocks S' = ∅) as ->.
    { apply set_eq. intros x.
      rewrite HN', Hun, elem_of_difference, elem_of_empty.
      split; [|done]. intros [[Hx Hnot] Hc]. apply Hnot.
      by apply elem_of_list_to_set, elem_of_sorted, HN. }
    apply release_empty.
Qed.


(** *** The accounting invariant along the send loop *)

Definition inv (st : P1.state) : Prop :=
  in_flight_ok (P1.packets st) (P1.packet_bytes st) (P1.trk st)
  ∧ 0 ≤ P1.next_seq st.

Lemma p1_start_inv window_size file_data : inv (P1.start window_size file_data).
Proof. split; [apply in_flight_ok_init | done]. Qed.

Lemma p1_send_new_loop_inv fuel stamp st st' :
  inv st → P1.send_new_loop fuel stamp st = Ok st' → inv st'.
Proof.
  revert st. induction fuel as [|fuel IH]; intros st [Hok Hnext]; simpl.
  - by intros [= <-].
  - destruct (Z.ltb_spec (P1.next_seq st) (P1.total_packets st)) as [Hlt|];
      [|by intros [= <-]].
    intros (len & _ & Hrest)%rbind_Ok.
    destruct (bytes_in_flight (P1.trk st) + len <=? P1.window_size st);
      [|by injection Hrest as <-].
    apply rbind_Ok in Hrest as (data & _ & Hrest).
    apply rbind_Ok in Hrest as (pkt & _ & Hrest).
    apply rbind_Ok in Hrest as (tr & Hsend & Hrest).
    apply IH in Hrest; [done|]. split; simpl; [|lia].
    eapply record_send_ok; [exact Hok| |exact Hsend].
    unfold P1.total_packets in Hlt. lia.
Qed.

Lemma p1_send_new_inv stamp st st' :
  inv st → P1.send_new stamp st = Ok st' → inv st'.
Proof. apply p1_send_new_loop_inv. Qed.

Lemma p1_process_acked_ok packets now cum_ack blocks total pb tr est log tr' est' log' :
  in_flight_ok packets pb tr →
  P1.process_acked now cum_ack blocks total pb (tr, est, log)
    = Ok (tr', est', log') →
  in_flight_ok packets pb tr'.
Proof.
  intros Hok. rewrite p1_process_acked_unfold.
  destruct (p1_newly_acked_spec total cum_ack blocks (unacked tr))
    as [(_ & _ & ->)|(S & -> & HN)]; [done|]. simpl.
  apply release_loop_ok; [apply NoDup_sorted| |done].
  intros x Hx%elem_of_sorted%HN. tauto.
Qed.

Lemma p1_on_ack_inv clk ack_packet st st' :
  inv st → P1.on_ack clk ack_packet st = Ok st' → inv st'.
Proof.
  intros [Hok Hnext]. unfold P1.on_ack.
  intros ([cum_ack blocks] & _ & Hrest)%rbind_Ok.
  destruct (py_eqb cum_ack (P1.last_cum_ack st)).
  all: apply rbind_Ok in Hrest as ([[tr1 out1] dup1] & Hfast & Hrest).
  all: apply rbind_Ok in Hrest as ([[tr2 est2] log2] & Hproc & [= <-]).
  all: split; simpl; [|done].
  all: eapply p1_process_acked_ok; [|exact Hproc].
  all: destruct (_ && _) in Hfast; [|by injection Hfast as <- <- <-].
  all: apply rbind_Ok in Hfast as (oldest & _ & Hfast).
  all: apply rbind_Ok in Hfast as ([tr out] & Hre & [= <- <- <-]).
  all: apply retransmit_same_flight in Hre as [Hsame _].
  all: by eapply same_flight_ok.
Qed.

Lemma p1_on_timeout_inv clk st st' :
  inv st → P1.on_timeout clk st = Ok st' → inv st'.
Proof.
  intros [Hok Hnext]. unfold P1.on_timeout.
  intros ([tr out] & Hsweep & [= <-])%rbind_Ok. split; simpl; [|done].
  apply sweep_same_flight in Hsweep. by eapply same_flight_ok.
Qed.

(** The states of the send loop between its phases. *)
Inductive reachable : P1.state → Prop :=
  | reach_start window_size file_data :
      reachable (P1.start window_size file_data)
  | reach_send_new stamp st st' :
      reachable st → P1.send_new stamp st = Ok st' → reachable st'
  | reach_on_ack clk ack_packet st st' :
      reachable st → P1.on_ack clk ack_packet st = Ok st' → reachable st'
  | reach_on_timeout clk st st' :
      reachable st → P1.on_timeout clk st = Ok st' → reachable st'.

(** A turn of the main loop stays within the reachable states. *)
Lemma p1_turn_reachable clk ev st r :
  reachable st → P1.turn clk ev st = Ok r →
  match r with inl st' | inr st' => reachable st' end.
Proof.
  intros Hst. unfold P1.turn. intros (st1 & Hsend & Hrest)%rbind_Ok.
  assert (reachable st1) as Hst1 by (by eapply reach_send_new).
  destruct (P1.all_acked st1); [by injection Hrest as <-|].
  destruct ev as [ack_packet|].
  - destruct (P1.on_ack clk ack_packet st1) as [st2|] eqn:E; [|done].
    injection Hrest as <-. by eapply reach_on_ack.
  - destruct (P1.on_timeout clk st1) as [st2|] eqn:E; [|done].
    injection Hrest as <-. by eapply reach_on_timeout.
Qed.

Lemma p1_reachable_inv st : reachable st → inv st.
Proof.
  induction 1; eauto using p1_start_inv, p1_send_new_inv, p1_on_ack_inv, p1_on_timeout_inv.
Qed.

End P1Facts.

(** ** The CUBIC sender *)

Module P2Facts.
Import Tracker Sender TrackerFacts.

(** [x] is acknowledged by the ACK (cum_ack, blocks), blocks as received. *)
Definition covers (cum_ack : option Z) (blocks : list (Z * Z)) (x : Z) : Prop :=
  (∃ c, cum_ack = Some c ∧ x < c) ∨ Exists (λ b, b.1 ≤ x ≤ b.2) blocks.

Lemma p2_elem_of_collect_sack (un : gset Z) blocks (acc : gset Z) (x : Z) :
  x ∈ P2.collect_sack un blocks acc
  ↔ x ∈ acc ∨ (x ∈ un ∧ Exists (λ b, b.1 ≤ x ≤ b.2) blocks).
Proof.
  unfold P2.collect_sack. revert acc.
  induction blocks as [|[start end_] blocks IH]; intros acc; simpl.
  - rewrite Exists_nil. tauto.
  - rewrite IH, elem_of_collect_range, Exists_cons. simpl. tauto.
Qed.

Lemma p2_newly_acked_spec cum_ack blocks (un : gset Z) :
  (cum_ack = None ∧ un ≠ ∅ ∧ collect_cum cum_ack un = Raise TypeError)
  ∨ ∃ by_cum, collect_cum cum_ack un = Ok by_cum
      ∧ ∀ x, x ∈ P2.collect_sack un blocks by_cum
             ↔ x ∈ un ∧ covers cum_ack blocks x.
Proof.
  destruct (collect_cum_cases cum_ack un) as [?|(S & HS & Hmem)]; [by left|].
  right. exists S. split; [done|]. intros x.
  rewrite p2_elem_of_collect_sack, Hmem. unfold covers. tauto.
Qed.

Lemma p2_process_acked_unfold now cum_ack blocks pb tr est log :
  P2.process_acked now cum_ack blocks pb (tr, est, log)
  = collect_cum cum_ack (unacked tr)
      ≫= λ by_cum, release pb now (P2.collect_sack (unacked tr) blocks by_cum)
                           (tr, est, log).
Proof. done. Qed.

Lemma p2_process_acked_idempotent now now' cum_ack blocks pb s :
  P2.process_acked now cum_ack blocks pb s
    ≫= P2.process_acked now' cum_ack blocks pb
  = P2.process_acked now cum_ack blocks pb s.
Proof.
  destruct s as [[tr est] log].
  rewrite (p2_process_acked_unfold now).
  destruct (p2_newly_acked_spec cum_ack blocks (unacked tr))
    as [(_ & _ & ->)|(S & HS & HN)]; [done|]. rewrite HS. simpl.
  destruct (release pb now _ (tr, est, log)) as [[[tr1 est1] log1]|e] eqn:Hrel;
    [|done]. simpl.
  apply release_loop_sets in Hrel as [Hun _].
  rewrite p2_process_acked_unfold.
  destruct (p2_newly_acked_spec cum_ack blocks (unacked tr1))
    as [(-> & Hne & _)|(S' & -> & HN')].
  - rewrite ShortDatagram.collect_cum_None in HS; [done|].
    intros Hemp. apply Hne. rewrite Hun, Hemp. apply set_eq. intros x.
    rewrite elem_of_difference, elem_of_empty. tauto.
  - simpl. assert (P2.collect_sack (unacked tr1) blocks S' = ∅) as ->.
    { apply set_eq. intros x.
      rewrite HN', Hun, elem_of_difference, elem_of_empty.
      split; [|done]. intros [[Hx Hnot] Hc]. apply Hnot.
      by apply elem_of_list_to_set, elem_of_sorted, HN. }
    apply release_empty.
Qed.


(** *** The accounting invariant along the send loop *)

Definition inv (st : P2.state) : Prop :=
  in_flight_ok (P2.packets st) (P2.packet_bytes st) (P2.trk st)
  ∧ 0 ≤ P2.next_seq st.

Lemma p2_start_inv file_data : inv (P2.start file_data).
Proof. split; [apply in_flight_ok_init | done]. Qed.

Lemma p2_process_acked_ok packets now cum_ack blocks pb tr est log tr' est' log' :
  in_flight_ok packets pb tr →
  P2.process_acked now cum_ack blocks pb (tr, est, log) = Ok (tr', est', log') →
  in_flight_ok packets pb tr'.
Proof.
  intros Hok. rewrite p2_process_acked_unfold.
  destruct (p2_newly_acked_spec cum_ack blocks (unacked tr))
    as [(_ & _ & ->)|(S & -> & HN)]; [done|]. simpl.
  apply release_loop_ok; [apply NoDup_sorted| |done].
  intros x Hx%elem_of_sorted%HN. tauto.
Qed.

Lemma p2_send_new_loop_inv fuel stamp st st' :
  inv st → P2.send_new_loop fuel stamp st = Ok st' → inv st'.
Proof.
  revert st. induction fuel as [|fuel IH]; intros st [Hok Hnext]; simpl.
  - by intros [= <-].
  - destruct (Z.ltb_spec (P2.next_seq st) (P2.total_packets st)) as [Hlt|];
      [|by intros [= <-]].
    intros (len & _ & Hrest)%rbind_Ok.
    destruct (Qle_bool _ _); [|by injection Hrest as <-].
    destruct (_ && _); [by injection Hrest as <-|].
    apply rbind_Ok in Hrest as (data & _ & Hrest).
    apply rbind_Ok in Hrest as (pkt & _ & Hrest).
    apply rbind_Ok in Hrest as (tr & Hsend & Hrest).
    apply IH in Hrest; [done|]. split; simpl; [|lia].
    eapply record_send_ok; [exact Hok| |exact Hsend].
    unfold P2.total_packets in Hlt. lia.
Qed.

Lemma p2_send_new_inv stamp st st' :
  inv st → P2.send_new stamp st = Ok st' → inv st'.
Proof. apply p2_send_new_loop_inv. Qed.

Section with_cube_root.
Context (cube_root : Q → Q).

(** What the duplicate-ACK branch of on_ack does to the tracker. *)
Lemma on_ack_tracker clk ack_packet st st' :
  P2.on_ack cube_root clk ack_packet st = Ok st' →
  ∃ tr1 cum_ack blocks est log,
    same_flight (P2.trk st) tr1
    ∧ P2.process_acked (t_release clk) cum_ack blocks (P2.packet_bytes st)
                       (tr1, P2.est st, P2.samples st)
      = Ok (P2.trk st', est, log)
    ∧ P2.packets st' = P2.packets st
    ∧ P2.packet_bytes st' = P2.packet_bytes st
    ∧ P2.next_seq st' = P2.next_seq st.
Proof.
  unfold P2.on_ack.
  intros ([cum_ack blocks] & _ & Hrest)%rbind_Ok.
  apply rbind_Ok in Hrest as ([[[last dup] rec] rap] & _ & Hrest).
  apply rbind_Ok in Hrest
    as ([[[[[[tr1 out1] dup1] c1] rap1] lost1] cls1] & Hdup & Hrest).
  apply rbind_Ok in Hrest as ([[tr2 est2] log2] & Hproc & [= <-]). simpl.
  exists tr1, cum_ack, blocks, est2, log2.
  split; [|by repeat split].
  destruct (_ && _) in Hdup; [|by injection Hdup as <- <- <- <- <- <- <-].
  destruct (negb rec) in Hdup.
  - apply rbind_Ok in Hdup as (oldest & _ & Hdup).
    apply rbind_Ok in Hdup as ([tr out] & Hre & [= <- <- <- <- <- <- <-]).
    by apply retransmit_same_flight in Hre as [Hsame _].
  - destruct (dup `mod` 100 =? 0) in Hdup;
      [|by injection Hdup as <- <- <- <- <- <- <-].
    apply rbind_Ok in Hdup as ([tr out] & Hsweep & [= <- <- <- <- <- <- <-]).
    by apply sweep_same_flight in Hsweep.
Qed.

Lemma p2_on_ack_inv clk ack_packet st st' :
  inv st → P2.on_ack cube_root clk ack_packet st = Ok st' → inv st'.
Proof.
  intros [Hok Hnext] Hack.
  apply on_ack_tracker in Hack
    as (tr1 & cum_ack & blocks & est & log & Hsame & Hproc & Hp & Hpb & Hn).
  split; [|lia]. rewrite Hp, Hpb.
  eapply p2_process_acked_ok; [|exact Hproc]. by eapply same_flight_ok.
Qed.

Lemma on_timeout_same_flight clk st st' :
  P2.on_timeout clk st = Ok st' →
  same_flight (P2.trk st) (P2.trk st')
  ∧ P2.packets st' = P2.packets st
  ∧ P2.packet_bytes st' = P2.packet_bytes st
  ∧ P2.next_seq st' = P2.next_seq st.
Proof.
  unfold P2.on_timeout. destruct (timed_out _ _ _ _) as [|seq seqs].
  - by intros [= <-].
  - intros ([tr out] & Hsweep & [= <-])%rbind_Ok. simpl.
    by apply sweep_same_flight in Hsweep.
Qed.

Lemma p2_on_timeout_inv clk st st' :
  inv st → P2.on_timeout clk st = Ok st' → inv st'.
Proof.
  intros [Hok Hnext] (Hsame & Hp & Hpb & Hn)%on_timeout_same_flight.
  split; [|lia]. rewrite Hp, Hpb. by eapply same_flight_ok.
Qed.

(** The states of the send loop between its phases. *)
Inductive reachable : P2.state → Prop :=
  | reach_start file_data : reachable (P2.start file_data)
  | reach_send_new stamp st st' :
      reachable st → P2.send_new stamp st = Ok st' → reachable st'
  | reach_on_ack clk ack_packet st st' :
      reachable st → P2.on_ack cube_root clk ack_packet st = Ok st' →
      reachable st'
  | reach_on_timeout clk st st' :
      reachable st → P2.on_timeout clk st = Ok st' → reachable st'.

(** A turn of the main loop stays within the reachable states. *)
Lemma p2_turn_reachable clk ev st r :
  reachable st → P2.turn cube_root clk ev st = Ok r →
  match r with inl st' | inr st' => reachable st' end.
Proof.
  intros Hst. unfold P2.turn. intros (st1 & Hsend & Hrest)%rbind_Ok.
  assert (reachable st1) as Hst1 by (by eapply reach_send_new).
  destruct (P2.all_acked st1); [by injection Hrest as <-|].
  destruct ev as [ack_packet|].
  - destruct (P2.on_ack cube_root clk ack_packet st1) as [st2|] eqn:E; [|done].
    injection Hrest as <-. by eapply reach_on_ack.
  - destruct (P2.on_timeout clk st1) as [st2|] eqn:E; [|done].
    injection Hrest as <-. by eapply reach_on_timeout.
Qed.

Lemma p2_reachable_inv st : reachable st → inv st.
Proof.
  induction 1; eauto using p2_start_inv, p2_send_new_inv, p2_on_ack_inv, p2_on_timeout_inv.
Qed.

End with_cube_root.

End P2Facts.

(** ** The senders' turns run to their end

    Under the accounting invariant, and for a file of at most 2^32 packets,
    an ACK of 20 bytes or more and a timer sweep raise nothing. *)

Module Progress.
Import Tracker Sender TrackerFacts.

#[local] Arguments retransmit : simpl never.
#[local] Arguments py_eqb : simpl never.
#[local] Arguments P1.process_acked : simpl never.

Lemma foldr_min_elem x (l : list Z) : foldr Z.min x l ∈ x :: l.
Proof.
  induction l as [|y l IH]; simpl; [by left|].
  destruct (Z.min_spec y (foldr Z.min x l)) as [[_ ->]|[_ ->]].
  - right. by left.
  - apply elem_of_cons in IH as [->|IH]; [by left|]. right. by right.
Qed.

Lemma set_min_Ok (X : gset Z) :
  (0 < size X)%nat → ∃ m, set_min X = Ok m ∧ m ∈ X.
Proof.
  intros Hsize. unfold set_min.
  destruct (elements X) as [|x l] eqn:E.
  - apply elements_empty_inv, leibniz_equiv in E. subst X.
    rewrite size_empty in Hsize. lia.
  - eexists. split; [done|]. apply elem_of_elements. rewrite E.
    apply foldr_min_elem.
Qed.

Lemma unpack_u32_Ok (bs : list byte) :
  length bs = 4%nat → ∃ n, Wire.unpack_u32 bs = Ok n.
Proof.
  destruct bs as [|b3 [|b2 [|b1 [|b0 [|]]]]]; simpl; try done. eauto.
Qed.

Lemma length_slice (bs : list byte) i j :
  0 ≤ i ≤ j → j ≤ Z.of_nat (length bs) →
  length (Wire.slice bs i j) = Z.to_nat (j - i).
Proof.
  intros Hij Hj. unfold Wire.slice. rewrite length_take, length_drop. lia.
Qed.

Lemma parse_block_Ok (sack_bytes : list byte) i :
  0 ≤ i → i + 8 ≤ Z.of_nat (length sack_bytes) →
  ∃ bl, Wire.parse_block sack_bytes i = Ok bl.
Proof.
  intros Hi Hlen. unfold Wire.parse_block.
  destruct (unpack_u32_Ok (Wire.slice sack_bytes i (i + 4))) as (s & ->).
  { rewrite length_slice by lia. lia. }
  destruct (unpack_u32_Ok (Wire.slice sack_bytes (i + 4) (i + 8))) as (e & ->).
  { rewrite length_slice by lia. lia. }
  simpl. destruct (_ && _); eauto.
Qed.

(** A datagram of 20 bytes or more parses to an integer cum_ack. *)
Lemma parse_ack_long (ack_packet : list byte) :
  (20 ≤ length ack_packet)%nat →
  ∃ c blocks, Wire.parse_ack ack_packet = Ok (Some c, blocks).
Proof.
  intros Hlen. unfold Wire.parse_ack, Wire.SEQ_NUM_SIZE, Wire.RESERVED_SIZE.
  destruct (Z.ltb_spec (Z.of_nat (length ack_packet)) (4 + 16)); [lia|].
  destruct (unpack_u32_Ok (Wire.slice ack_packet 0 4)) as (c & ->).
  { rewrite length_slice by lia. lia. }
  simpl.
  destruct (parse_block_Ok (Wire.slice ack_packet 4 (4 + 16)) 0) as (b0 & ->);
    [lia|rewrite length_slice by lia; lia|].
  destruct (parse_block_Ok (Wire.slice ack_packet 4 (4 + 16)) 8) as (b1 & ->);
    [lia|rewrite length_slice by lia; lia|].
  simpl. eauto.
Qed.

Lemma retransmit_Ok packets pb stamp seq tr out :
  in_flight_ok packets pb tr → seq ∈ unacked tr →
  Z.of_nat (length packets) ≤ 2 ^ 32 →
  ∃ tr' out', retransmit packets stamp seq (tr, out) = Ok (tr', out').
Proof.
  intros [_ _ Hrange _] Hseq Htotal. apply Hrange in Hseq.
  unfold retransmit.
  destruct (py_index_Ok packets seq Hseq) as (data & -> & _). simpl.
  unfold Wire.create_packet.
  destruct (WireFacts.pack_u32_Ok seq) as (b3 & b2 & b1 & b0 & -> & _); [lia|].
  simpl. eauto.
Qed.

Lemma sweep_Ok packets pb stamp seqs tr out :
  in_flight_ok packets pb tr → (∀ x, x ∈ seqs → x ∈ unacked tr) →
  Z.of_nat (length packets) ≤ 2 ^ 32 →
  ∃ tr' out', rfold (retransmit packets stamp) seqs (tr, out) = Ok (tr', out').
Proof.
  intros Hok Hin Htotal. revert tr out Hok Hin.
  induction seqs as [|seq seqs IH]; intros tr out Hok Hin; [simpl; eauto|].
  rewrite rfold_cons.
  destruct (retransmit_Ok packets pb stamp seq tr out) as (tr1 & out1 & Hre);
    [done|apply Hin; by left|done|].
  rewrite Hre. simpl.
  apply retransmit_same_flight in Hre as [Hsame _].
  apply IH; [by eapply same_flight_ok|].
  intros x Hx. destruct Hsame as (_ & -> & _). apply Hin. by right.
Qed.

Lemma timed_out_unacked place now rto tr x :
  x ∈ timed_out place now rto tr → x ∈ unacked tr.
Proof.
  unfold timed_out. rewrite list_elem_of_In. intros [Hx _]%filter_In.
  by apply (elem_of_scan place), list_elem_of_In.
Qed.

Lemma p1_process_acked_Ok packets now c blocks total pb tr est log :
  in_flight_ok packets pb tr →
  ∃ s', P1.process_acked now (Some c) blocks total pb (tr, est, log) = Ok s'.
Proof.
  intros Hok. rewrite P1Facts.p1_process_acked_unfold.
  destruct (P1Facts.p1_newly_acked_spec total (Some c) blocks (unacked tr))
    as [(? & _)|(S & -> & HN)]; [done|]. simpl.
  apply release_loop_total. intros x Hx%elem_of_sorted%HN.
  destruct Hok as [-> _ Hrange _]. unfold lengths. rewrite length_fmap.
  apply Hrange. tauto.
Qed.

(** Under the invariant, an ACK of 20 bytes or more is processed to the end. *)
Lemma p1_on_ack_returns clk ack_packet st :
  P1Facts.inv st → P1.total_packets st ≤ 2 ^ 32 →
  (20 ≤ length ack_packet)%nat →
  ∃ st', P1.on_ack clk ack_packet st = Ok st'.
Proof.
  intros [Hok _] Htotal Hlen. unfold P1.on_ack.
  destruct (parse_ack_long ack_packet Hlen) as (c & blocks & ->). simpl.
  assert (∀ tr1, same_flight (P1.trk st) tr1 →
    ∃ s', P1.process_acked (t_release clk) (Some c) blocks
            (P1.total_packets st) (P1.packet_bytes st)
            (tr1, P1.est st, P1.samples st) = Ok s') as Hrest.
  { intros tr1 Hsame.
    eapply p1_process_acked_Ok. by eapply same_flight_ok. }
  destruct (py_eqb (Some c) (P1.last_cum_ack st)); simpl.
  - destruct ((3 <=? P1.dup_ack_count st + 1)
              && (0 <? size (unacked (P1.trk st)))%nat) eqn:Hfast.
    + apply andb_true_iff in Hfast as [_ Hsize%Nat.ltb_lt].
      destruct (set_min_Ok _ Hsize) as (m & -> & Hm). simpl.
      destruct (retransmit_Ok (P1.packets st) (P1.packet_bytes st)
                  (λ _, t_fast clk) m (P1.trk st) (P1.outbox st))
        as (tr1 & out1 & Hre); [done|done|done|].
      rewrite Hre. simpl.
      apply retransmit_same_flight in Hre as [Hsame _].
      destruct (Hrest tr1 Hsame) as ([[tr2 est2] log2] & ->). simpl. eauto.
    + simpl.
      destruct (Hrest (P1.trk st)) as ([[tr2 est2] log2] & ->); [done|].
      simpl. eauto.
  - destruct (Hrest (P1.trk st)) as ([[tr2 est2] log2] & ->); [done|].
    simpl. eauto.
Qed.

Lemma p1_on_timeout_returns clk st :
  P1Facts.inv st → P1.total_packets st ≤ 2 ^ 32 →
  ∃ st', P1.on_timeout clk st = Ok st'.
Proof.
  intros [Hok _] Htotal. unfold P1.on_timeout.
  destruct (sweep_Ok (P1.packets st) (P1.packet_bytes st) (stamp clk)
              (timed_out (set_order clk) (t_sweep clk) (Estimator.rto (P1.est st)) (P1.trk st))
              (P1.trk st) (P1.outbox st)) as (tr & out & ->);
    [done|apply timed_out_unacked|done|].
  simpl. eauto.
Qed.

(** *** The CUBIC sender *)

(** In recovery the anchor congestion_last_sent is an integer. *)
Definition recovery_ok (st : P2.state) : Prop :=
  P2.in_recovery (P2.cc st) = true → is_Some (P2.congestion_last_sent st).

Lemma in_recovery_cubic_update cube_root now c :
  P2.in_recovery (P2.cubic_update cube_root now c) = P2.in_recovery c.
Proof.
  unfold P2.cubic_update. destruct (P2.in_recovery c) eqn:E; [done|].
  by destruct (P2.epoch_start c).
Qed.

Lemma in_recovery_congestion severe c :
  P2.in_recovery (P2.on_congestion_event severe c) = P2.in_recovery c.
Proof. by destruct severe. Qed.

Lemma p2_send_new_loop_recovery fuel stamp st st' :
  recovery_ok st → P2.send_new_loop fuel stamp st = Ok st' → recovery_ok st'.
Proof.
  revert st. induction fuel as [|fuel IH]; intros st Hrec; simpl.
  - by intros [= <-].
  - destruct (P2.next_seq st <? P2.total_packets st); [|by intros [= <-]].
    intros (len & _ & Hrest)%rbind_Ok.
    destruct (Qle_bool _ _); [|by injection Hrest as <-].
    destruct (_ && _); [by injection Hrest as <-|].
    apply rbind_Ok in Hrest as (data & _ & Hrest).
    apply rbind_Ok in Hrest as (pkt & _ & Hrest).
    apply rbind_Ok in Hrest as (tr & _ & Hrest).
    by apply IH in Hrest.
Qed.

Section with_cube_root.
Context (cube_root : Q → Q).

Lemma p2_on_ack_recovery clk ack_packet st st' :
  recovery_ok st → P2.on_ack cube_root clk ack_packet st = Ok st' →
  recovery_ok st'.
Proof.
  intros Hrec. unfold P2.on_ack.
  intros ([cum_ack blocks] & _ & Hrest)%rbind_Ok.
  apply rbind_Ok in Hrest as ([[[last dup] rec] rap] & Hdet & Hrest).
  apply rbind_Ok in Hrest
    as ([[[[[[tr1 out1] dup1] c1] rap1] lost1] cls1] & Hdup & Hrest).
  apply rbind_Ok in Hrest as ([[tr2 est2] log2] & _ & [= <-]).
  unfold recovery_ok. simpl.
  assert (P2.in_recovery c1 = true → is_Some cls1) as Hc1.
  { assert (rec = true → is_Some (P2.congestion_last_sent st)) as Hr.
    { revert Hdet. unfold P2.detect_dup.
      destruct (py_eqb cum_ack (P2.last_cum_ack st)).
      - intros [= _ _ <- _]. exact Hrec.
      - intros (leave & _ & Hl)%rbind_Ok.
        destruct leave; injection Hl as _ _ <- _; [done|exact Hrec]. }
    destruct (_ && _) in Hdup;
      [|by injection Hdup as _ _ _ <- _ _ <-].
    destruct (negb rec) in Hdup.
    - apply rbind_Ok in Hdup as (oldest & _ & Hdup).
      apply rbind_Ok in Hdup as ([tr out] & _ & [= _ _ _ <- _ _ <-]). eauto.
    - destruct (dup `mod` 100 =? 0) in Hdup;
        [|by injection Hdup as _ _ _ <- _ _ <-].
      by apply rbind_Ok in Hdup as ([tr out] & _ & [= _ _ _ <- _ _ <-]). }
  destruct ((0 <? dup1) && P2.in_recovery c1) eqn:Hinf.
  - apply andb_true_iff in Hinf as [_ Hin]. simpl. intros _. by apply Hc1.
  - destruct (P2.in_recovery c1) eqn:E; simpl; [by intros _; apply Hc1|].
    rewrite in_recovery_cubic_update. by rewrite E.
Qed.

Lemma p2_on_timeout_recovery clk st st' :
  recovery_ok st → P2.on_timeout clk st = Ok st' → recovery_ok st'.
Proof.
  intros Hrec. unfold P2.on_timeout. destruct (timed_out _ _ _ _).
  - by intros [= <-].
  - by intros ([tr out] & _ & [= <-])%rbind_Ok.
Qed.

Lemma p2_reachable_recovery st :
  P2Facts.reachable cube_root st → recovery_ok st.
Proof.
  induction 1;
    eauto using p2_send_new_loop_recovery, p2_on_ack_recovery,
      p2_on_timeout_recovery.
  by intros [=].
Qed.

Lemma p2_process_acked_Ok packets now c blocks pb tr est log :
  in_flight_ok packets pb tr →
  ∃ s', P2.process_acked now (Some c) blocks pb (tr, est, log) = Ok s'.
Proof.
  intros Hok. rewrite P2Facts.p2_process_acked_unfold.
  destruct (P2Facts.p2_newly_acked_spec (Some c) blocks (unacked tr))
    as [(? & _)|(S & -> & HN)]; [done|]. simpl.
  apply release_loop_total. intros x Hx%elem_of_sorted%HN.
  destruct Hok as [-> _ Hrange _]. unfold lengths. rewrite length_fmap.
  apply Hrange. tauto.
Qed.

#[local] Arguments P2.process_acked : simpl never.
#[local] Arguments timed_out : simpl never.

(** Under the invariants, an ACK of 20 bytes or more is processed to the end. *)
Lemma p2_on_ack_returns clk ack_packet st :
  P2Facts.inv st → recovery_ok st → P2.total_packets st ≤ 2 ^ 32 →
  (20 ≤ length ack_packet)%nat →
  ∃ st', P2.on_ack cube_root clk ack_packet st = Ok st'.
Proof.
  intros [Hok _] Hrec Htotal Hlen. unfold P2.on_ack.
  destruct (parse_ack_long ack_packet Hlen) as (c & blocks & ->). simpl.
  assert (∀ tr1, same_flight (P2.trk st) tr1 →
    ∃ s', P2.process_acked (t_release clk) (Some c) blocks
            (P2.packet_bytes st) (tr1, P2.est st, P2.samples st) = Ok s')
    as Hrest.
  { intros tr1 Hsame. eapply p2_process_acked_Ok. by eapply same_flight_ok. }
  assert (∃ last dup rec rap, P2.detect_dup (Some c) st = Ok (last, dup, rec, rap))
    as (last & dup & rec & rap & ->).
  { unfold P2.detect_dup. destruct (py_eqb _ _); [eauto 6|].
    destruct (P2.in_recovery (P2.cc st)) eqn:E; simpl.
    - destruct (Hrec E) as [cls ->]. simpl. destruct (cls <? c); eauto 6.
    - eauto 6. }
  simpl.
  destruct ((3 <=? dup) && (0 <? size (unacked (P2.trk st)))%nat) eqn:Hfast.
  - apply andb_true_iff in Hfast as [_ Hsize%Nat.ltb_lt].
    destruct (negb rec).
    + destruct (set_min_Ok _ Hsize) as (m & -> & Hm). simpl.
      destruct (retransmit_Ok (P2.packets st) (P2.packet_bytes st)
                  (λ _, t_fast clk) m (P2.trk st) (P2.outbox st))
        as (tr1 & out1 & Hre); [done|done|done|].
      rewrite Hre. simpl.
      apply retransmit_same_flight in Hre as [Hsame _].
      destruct (Hrest tr1 Hsame) as ([[tr2 est2] log2] & ->). simpl. eauto.
    + destruct (dup `mod` 100 =? 0).
      * destruct (sweep_Ok (P2.packets st) (P2.packet_bytes st) (stamp clk)
              (timed_out (set_order clk) (t_sweep clk) (Estimator.rto (P2.est st)) (P2.trk st))
              (P2.trk st) (P2.outbox st)) as (tr1 & out1 & Hsw);
          [done|apply timed_out_unacked|done|].
        rewrite Hsw. simpl. apply sweep_same_flight in Hsw.
        destruct (Hrest tr1 Hsw) as ([[tr2 est2] log2] & ->). simpl. eauto.
      * simpl.
        destruct (Hrest (P2.trk st)) as ([[tr2 est2] log2] & ->); [done|].
        simpl. eauto.
  - simpl.
    destruct (Hrest (P2.trk st)) as ([[tr2 est2] log2] & ->); [done|].
    simpl. eauto.
Qed.

Lemma p2_on_timeout_returns clk st :
  P2Facts.inv st → P2.total_packets st ≤ 2 ^ 32 →
  ∃ st', P2.on_timeout clk st = Ok st'.
Proof.
  intros [Hok _] Htotal. unfold P2.on_timeout.
  destruct (timed_out _ _ _ _) as [|seq seqs] eqn:E; [eauto|].
  destruct (sweep_Ok (P2.packets st) (P2.packet_bytes st) (stamp clk)
              (seq :: seqs) (P2.trk st) (P2.outbox st)) as (tr & out & ->);
    [done| |done|by simpl; eauto].
  intros x Hx. rewrite <- E in Hx. by apply timed_out_unacked in Hx.
Qed.

End with_cube_root.

End Progress.

(** ** The EOF phase of the two senders *)

Module EofPhase.
Import Sender.



Fixpoint timeouts (events : list recv_event) : Z :=
  match events with
  | [] => 0
  | SockTimeout :: events' => 1 + timeouts events'
  | Datagram _ :: events' => timeouts events'
  end.


Section loops.
Context (eof_seq : Z).








End loops.

(** With fewer than 2^32 packets the EOF packet is built and the phase is
    the loop, entered with no timeout counted and nothing sent. *)
Lemma p1_send_eof_is_loop events (st : P1.state) :
  0 ≤ P1.total_packets st < 2 ^ 32 →
  P1.send_eof events st = P1.eof_loop events (P1.total_packets st) 0 0.
Proof.
  intros Htotal. unfold P1.send_eof, Wire.create_packet.
  by destruct (WireFacts.pack_u32_Ok _ Htotal) as (b3 & b2 & b1 & b0 & -> & _).
Qed.

Lemma p2_send_eof_is_loop events (st : P2.state) :
  0 ≤ P2.total_packets st < 2 ^ 32 →
  P2.send_eof events st = P2.eof_loop events (P2.total_packets st) 5 0.
Proof.
  intros Htotal. unfold P2.send_eof, Wire.create_packet.
  by destruct (WireFacts.pack_u32_Ok _ Htotal) as (b3 & b2 & b1 & b0 & -> & _).
Qed.




End EofPhase.

(** ** The tracker: accounting, idempotence, RTT samples *)

Module TrackerTheorems.
Import Tracker Sender TrackerFacts.

(** C6: in every state either sender reaches between the phases of its
    send loop (start, admission of new packets, ACK processing, timer sweep),
    bytes_in_flight is the sum of the payload lengths of the unacked packets,
    all of which are packets of the session; and a re-send, alone (fast
    retransmit) or in a sweep (timer, stall in recovery), leaves unacked and
    bytes_in_flight as they are. *)
Theorem bytes_in_flight_accounting :
  (∀ st, P1Facts.reachable st →
     bytes_in_flight (P1.trk st) = payload_sum (P1.packets st) (unacked (P1.trk st))
     ∧ ∀ seq, seq ∈ unacked (P1.trk st) → 0 ≤ seq < P1.total_packets st)
  ∧ (∀ cube_root st, P2Facts.reachable cube_root st →
     bytes_in_flight (P2.trk st) = payload_sum (P2.packets st) (unacked (P2.trk st))
     ∧ ∀ seq, seq ∈ unacked (P2.trk st) → 0 ≤ seq < P2.total_packets st)
  ∧ (∀ packets stamp seq tr out tr' out',
       retransmit packets stamp seq (tr, out) = Ok (tr', out') →
       bytes_in_flight tr' = bytes_in_flight tr ∧ unacked tr' = unacked tr)
  ∧ (∀ packets stamp seqs tr out tr' out',
       rfold (retransmit packets stamp) seqs (tr, out) = Ok (tr', out') →
       bytes_in_flight tr' = bytes_in_flight tr ∧ unacked tr' = unacked tr)
  ∧ (∀ clk st st', P1.on_timeout clk st = Ok st' →
       bytes_in_flight (P1.trk st') = bytes_in_flight (P1.trk st))
  ∧ (∀ clk st st', P2.on_timeout clk st = Ok st' →
       bytes_in_flight (P2.trk st') = bytes_in_flight (P2.trk st)).
Proof.
  split; [|split; [|split; [|split; [|split]]]].
  - intros st [[_ _ Hrange Hflight] _]%P1Facts.p1_reachable_inv. split; [done|].
    intros seq Hseq. by apply Hrange.
  - intros cube_root st [[_ _ Hrange Hflight] _]%P2Facts.p2_reachable_inv.
    split; [done|]. intros seq Hseq. by apply Hrange.
  - intros * [(_ & Hu & Hb) _]%retransmit_same_flight. done.
  - intros * (_ & Hu & Hb)%sweep_same_flight. done.
  - intros clk st st'. unfold P1.on_timeout.
    intros ([tr out] & Hsweep & [= <-])%rbind_Ok. simpl.
    by apply sweep_same_flight in Hsweep as (_ & _ & ?).
  - intros clk st st' ((_ & _ & Hb) & _)%P2Facts.on_timeout_same_flight. done.
Qed.

Lemma bytes_in_flight_accounting_witness :
  bytes_in_flight (P1.trk ShortDatagram.sender_with_packet_in_flight)
  = payload_sum (P1.packets ShortDatagram.sender_with_packet_in_flight)
                (unacked (P1.trk ShortDatagram.sender_with_packet_in_flight))
  ∧ ∀ seq, seq ∈ unacked (P1.trk ShortDatagram.sender_with_packet_in_flight) →
           0 ≤ seq < P1.total_packets ShortDatagram.sender_with_packet_in_flight.
Proof.
  apply (proj1 bytes_in_flight_accounting).
  eapply P1Facts.reach_send_new; [apply P1Facts.reach_start|].
  apply ShortDatagram.sender_with_packet_in_flight_reached.
Defined.

(** C9: lines 153-176 of p1_server.py and 224-243 of p2_server.py (collect
    the newly acknowledged, release them), run twice on the same ACK, end as
    they end when run once: in the same exception, or in the same tracker,
    estimator and sample log.  The second run may read a later clock. *)
Theorem ack_processing_idempotent :
  (∀ now now' cum_ack blocks total pb (s : Tracker.t * Estimator.t * list (Z * Q)),
     P1.process_acked now cum_ack blocks total pb s
       ≫= P1.process_acked now' cum_ack blocks total pb
     = P1.process_acked now cum_ack blocks total pb s)
  ∧ (∀ now now' cum_ack blocks pb (s : Tracker.t * Estimator.t * list (Z * Q)),
     P2.process_acked now cum_ack blocks pb s
       ≫= P2.process_acked now' cum_ack blocks pb
     = P2.process_acked now cum_ack blocks pb s).
Proof.
  split; intros.
  - apply P1Facts.p1_process_acked_idempotent.
  - apply P2Facts.p2_process_acked_idempotent.
Qed.




End TrackerTheorems.

(** ** Wire codec: bounds and the data datagram *)

Module CodecBounds.
Import Wire.

Lemma Z_of_byte_bound b : 0 ≤ Z_of_byte b < 2 ^ 8.
Proof.
  unfold Z_of_byte. pose proof (Byte.to_N_bounded b). change (2 ^ 8) with 256. lia.
Qed.

Lemma lor_le_add a b : 0 ≤ a → 0 ≤ b → Z.lor a b ≤ a + b.
Proof.
  intros Ha Hb. pose proof (Z.add_lor_land a b).
  assert (0 ≤ Z.land a b) by (by apply Z.land_nonneg; left). lia.
Qed.

(** A decoded 32-bit field is within 0 .. 2^32 - 1. *)
Lemma unpack_u32_range bs n : unpack_u32 bs = Ok n → 0 ≤ n < 2 ^ 32.
Proof.
  intros Hn. split; [by eapply WireFacts.unpack_u32_nonneg|]. revert Hn.
  destruct bs as [|b3 [|b2 [|b1 [|b0 [|]]]]]; simpl; try done.
  intros [= <-].
  pose proof (Z_of_byte_bound b3). pose proof (Z_of_byte_bound b2).
  pose proof (Z_of_byte_bound b1). pose proof (Z_of_byte_bound b0).
  rewrite !Z.shiftl_mul_pow2 by lia.
  set (x3 := Z_of_byte b3 * 2 ^ 24). set (x2 := Z_of_byte b2 * 2 ^ 16).
  set (x1 := Z_of_byte b1 * 2 ^ 8). set (x0 := Z_of_byte b0).
  assert (0 ≤ x3 ≤ 255 * 2 ^ 24) by (unfold x3; lia).
  assert (0 ≤ x2 ≤ 255 * 2 ^ 16) by (unfold x2; lia).
  assert (0 ≤ x1 ≤ 255 * 2 ^ 8) by (unfold x1; lia).
  assert (0 ≤ x0 ≤ 255) by (unfold x0; lia).
  pose proof (lor_le_add x1 x0).
  assert (0 ≤ Z.lor x1 x0) by (apply Z.lor_nonneg; lia).
  pose proof (lor_le_add x2 (Z.lor x1 x0)).
  assert (0 ≤ Z.lor x2 (Z.lor x1 x0)) by (apply Z.lor_nonneg; lia).
  pose proof (lor_le_add x3 (Z.lor x2 (Z.lor x1 x0))).
  lia.
Qed.

Lemma unpack_u32_four (bs : list byte) :
  length bs = 4%nat → ∃ n, unpack_u32 bs = Ok n ∧ 0 ≤ n < 2 ^ 32.
Proof.
  intros Hlen. destruct (Progress.unpack_u32_Ok bs Hlen) as (n & Hn).
  exists n. split; [done|]. by eapply unpack_u32_range.
Qed.

Lemma parse_block_bounded (sack_bytes : list byte) i :
  0 ≤ i → i + 8 ≤ Z.of_nat (length sack_bytes) →
  ∃ bl, parse_block sack_bytes i = Ok bl
        ∧ (length bl ≤ 1)%nat
        ∧ Forall (λ b, b ≠ (0, 0) ∧ 0 ≤ b.1 < 2 ^ 32 ∧ 0 ≤ b.2 < 2 ^ 32) bl.
Proof.
  intros Hi Hlen. unfold parse_block.
  destruct (unpack_u32_four (slice sack_bytes i (i + 4))) as (s & -> & Hs).
  { rewrite Progress.length_slice by lia. lia. }
  destruct (unpack_u32_four (slice sack_bytes (i + 4) (i + 8))) as (e & -> & He).
  { rewrite Progress.length_slice by lia. lia. }
  simpl. destruct ((s =? 0) && (e =? 0)) eqn:Hz.
  - exists []. split; [done|]. split; [simpl; lia|constructor].
  - exists [(s, e)]. split; [done|]. split; [simpl; lia|].
    constructor; [|constructor]. split; [|done].
    intros [= -> ->]. done.
Qed.

(** parse_ack raises on no datagram.  A datagram under 20 bytes gives
    (None, []); any other gives an integer cumulative value and at most two
    SACK pairs, none of them (0, 0), every field within 0 .. 2^32 - 1; bytes
    after the twentieth are not read. *)
Theorem parse_ack_total (ack_packet : list byte) :
  ∃ cum_ack blocks,
    parse_ack ack_packet = Ok (cum_ack, blocks)
    ∧ (cum_ack = None ↔ (length ack_packet < 20)%nat)
    ∧ (∀ c, cum_ack = Some c → 0 ≤ c < 2 ^ 32)
    ∧ ((length ack_packet < 20)%nat → blocks = [])
    ∧ (length blocks ≤ 2)%nat
    ∧ Forall (λ b, b ≠ (0, 0) ∧ 0 ≤ b.1 < 2 ^ 32 ∧ 0 ≤ b.2 < 2 ^ 32) blocks
    ∧ parse_ack (take 20 ack_packet) = Ok (cum_ack, blocks).
Proof.
  destruct (decide (length ack_packet < 20)%nat) as [Hshort|Hlong].
  - exists None, []. rewrite WireFacts.parse_ack_short by done.
    rewrite WireFacts.parse_ack_short by (rewrite length_take; lia).
    repeat split; try done; simpl; try lia.
  - unfold parse_ack, SEQ_NUM_SIZE, RESERVED_SIZE.
    rewrite length_take.
    destruct (Z.ltb_spec (Z.of_nat (length ack_packet)) (4 + 16)); [lia|].
    destruct (Z.ltb_spec (Z.of_nat (20 `min` length ack_packet)) (4 + 16)); [lia|].
    assert (slice (take 20 ack_packet) 0 4 = slice ack_packet 0 4) as ->.
    { unfold slice. rewrite !drop_0. change (Z.to_nat (4 - 0)) with 4%nat.
      rewrite take_take. done. }
    assert (slice (take 20 ack_packet) 4 (4 + 16) = slice ack_packet 4 (4 + 16))
      as ->.
    { unfold slice. change (Z.to_nat (4 + 16 - 4)) with 16%nat.
      change (Z.to_nat 4) with 4%nat. rewrite !take_drop_commute.
      rewrite take_take. done. }
    destruct (unpack_u32_four (slice ack_packet 0 4)) as (c & -> & Hc).
    { rewrite Progress.length_slice by lia. lia. }
    simpl.
    destruct (parse_block_bounded (slice ack_packet 4 (4 + 16)) 0)
      as (b0 & -> & Hl0 & Hb0);
      [lia|rewrite Progress.length_slice by lia; lia|].
    destruct (parse_block_bounded (slice ack_packet 4 (4 + 16)) 8)
      as (b1 & -> & Hl1 & Hb1);
      [lia|rewrite Progress.length_slice by lia; lia|].
    simpl. exists (Some c), (b0 ++ b1).
    split; [done|]. split; [split; [done|lia]|].
    split; [by intros ? [= <-]|]. split; [lia|].
    split; [rewrite length_app; lia|]. split; [by apply Forall_app|done].
Qed.

(** create_packet accepts exactly the sequence numbers 0 .. 2^32 - 1; the
    datagram is 20 bytes longer than the payload and parse_packet returns the
    sequence number and the payload. *)
Theorem data_packet_round_trip (seq : Z) (data : list byte) :
  (0 ≤ seq < 2 ^ 32 →
   ∃ pkt, create_packet seq data = Ok pkt
          ∧ length pkt = (20 + length data)%nat
          ∧ parse_packet pkt = Ok (Some (seq, data)))
  ∧ (¬ (0 ≤ seq < 2 ^ 32) → create_packet seq data = Raise StructError).
Proof.
  split.
  - intros Hseq.
    destruct (WireFacts.pack_u32_Ok seq Hseq) as (b3 & b2 & b1 & b0 & Hp & _).
    unfold create_packet at 1. rewrite Hp. simpl. eexists. split; [done|].
    split; [done|].
    apply (Lossless.parse_create_packet seq data). unfold create_packet.
    by rewrite Hp.
  - intros Hseq. unfold create_packet.
    by rewrite WireFacts.pack_u32_out_of_range.
Qed.

Lemma data_packet_round_trip_witness :
  ∃ pkt, create_packet 7 [x61] = Ok pkt
         ∧ length pkt = (20 + length [x61])%nat
         ∧ parse_packet pkt = Ok (Some (7, [x61])).
Proof. apply (proj1 (data_packet_round_trip 7 [x61])). lia. Defined.

End CodecBounds.

(** ** The split of the file into payloads *)

Module Chunking.
Import Sender.

Lemma split_from_length fuel (file_data : list byte) offset :
  0 ≤ offset → Z.of_nat (length file_data) - offset ≤ Z.of_nat fuel →
  Z.of_nat (length (split_from fuel file_data offset))
  = Z.max 0 ((Z.of_nat (length file_data) - offset + 1179) / 1180).
Proof.
  revert offset. induction fuel as [|fuel IH]; intros offset Hoff Hfuel.
  - simpl. assert ((Z.of_nat (length file_data) - offset + 1179) / 1180 ≤ 0).
    { apply Z.lt_succ_r, Z.div_lt_upper_bound; lia. }
    lia.
  - cbn [split_from].
    destruct (Z.ltb_spec offset (Z.of_nat (length file_data))) as [Hlt|Hge].
    + cbn [length]. rewrite Nat2Z.inj_succ, IH
        by (unfold Wire.DATA_SIZE, Wire.MAX_PAYLOAD_SIZE, Wire.HEADER_SIZE; lia).
      change Wire.DATA_SIZE with 1180.
      replace (Z.of_nat (length file_data) - offset + 1179)
        with (Z.of_nat (length file_data) - (offset + 1180) + 1179 + 1 * 1180)
        by lia.
      rewrite Z.div_add by lia.
      assert (0 ≤ (Z.of_nat (length file_data) - (offset + 1180) + 1179) / 1180)
        by (apply Z.div_pos; lia).
      lia.
    + simpl. assert ((Z.of_nat (length file_data) - offset + 1179) / 1180 ≤ 0).
      { apply Z.lt_succ_r, Z.div_lt_upper_bound; lia. }
      lia.
Qed.

Lemma split_from_lookup fuel (file_data : list byte) offset (i : nat) chunk :
  0 ≤ offset →
  split_from fuel file_data offset !! i = Some chunk →
  chunk = take 1180 (drop (Z.to_nat offset + 1180 * i) file_data)
  ∧ offset + 1180 * Z.of_nat i < Z.of_nat (length file_data).
Proof.
  revert offset i. induction fuel as [|fuel IH]; intros offset i Hoff; [done|].
  cbn [split_from].
  destruct (Z.ltb_spec offset (Z.of_nat (length file_data))) as [Hlt|Hge];
    [|done].
  destruct i as [|i].
  - intros [= <-]. split; [|lia]. unfold Wire.slice.
    replace (Z.to_nat (offset + Wire.DATA_SIZE - offset)) with 1180%nat
      by (unfold Wire.DATA_SIZE, Wire.MAX_PAYLOAD_SIZE, Wire.HEADER_SIZE; lia).
    by rewrite Nat.mul_0_r, Nat.add_0_r.
  - cbn [lookup list_lookup]. intros Hi.
    apply IH in Hi as [-> Hi];
      [|unfold Wire.DATA_SIZE, Wire.MAX_PAYLOAD_SIZE, Wire.HEADER_SIZE; lia].
    change Wire.DATA_SIZE with 1180 in *. split; [|lia].
    do 2 f_equal. lia.
Qed.

(** The payloads cut the file into consecutive pieces of DATA_SIZE = 1180
    bytes: there are ceil(len / 1180) of them (none for the empty file), the
    i-th is bytes 1180 i .. 1180 i + 1179 of the file, every one but the last
    is full, none is empty, and together they are the file. *)
Theorem split_file_partition (file_data : list byte) :
  concat (split_file file_data) = file_data
  ∧ Z.of_nat (length (split_file file_data))
    = (Z.of_nat (length file_data) + 1179) / 1180
  ∧ ∀ (i : nat) chunk, split_file file_data !! i = Some chunk →
      chunk = take 1180 (drop (1180 * i) file_data)
      ∧ (0 < length chunk ≤ 1180)%nat
      ∧ ((S i < length (split_file file_data))%nat → length chunk = 1180%nat).
Proof.
  split; [apply LoopsStop.split_file_concat|].
  assert (Z.of_nat (length (split_file file_data))
          = (Z.of_nat (length file_data) + 1179) / 1180) as Hcount.
  { unfold split_file. rewrite split_from_length by lia.
    rewrite Z.sub_0_r.
    assert (0 ≤ (Z.of_nat (length file_data) + 1179) / 1180)
      by (apply Z.div_pos; lia).
    lia. }
  split; [done|]. intros i chunk Hi.
  apply split_from_lookup in Hi as [-> Hi]; [|lia].
  change (Z.to_nat 0) with 0%nat. rewrite Nat.add_0_l.
  split; [done|]. rewrite length_take, length_drop. split; [lia|].
  intros Hnext.
  assert (Z.of_nat (S i) < (Z.of_nat (length file_data) + 1179) / 1180) as Hlt
    by lia.
  assert (1180 * (Z.of_nat (S i) + 1) ≤ (Z.of_nat (length file_data) + 1179))
    by (pose proof (Z.mul_div_le (Z.of_nat (length file_data) + 1179) 1180); nia).
  lia.
Qed.

End Chunking.

(** ** The receiver over arbitrary arrivals *)

Module ReceiverFacts.
Import Sender Client.

#[local] Arguments find_sack_blocks : simpl never.
#[local] Arguments Wire.create_ack : simpl never.
#[local] Arguments Wire.parse_packet : simpl never.

(** *** ACK construction *)

Lemma pack_u32_raises n e : Wire.pack_u32 n = Raise e → e = StructError.
Proof. unfold Wire.pack_u32. destruct (_ && _); [done|]. by intros [= <-]. Qed.

Lemma pack_blocks_raises bl e : Wire.pack_blocks bl = Raise e → e = StructError.
Proof.
  induction bl as [|[s e'] bl IH]; simpl; [done|].
  destruct (Wire.pack_u32 s) as [ps|e1] eqn:Es; simpl;
    [|intros [= <-]; by eapply pack_u32_raises].
  destruct (Wire.pack_u32 e') as [pe|e1] eqn:Ee; simpl;
    [|intros [= <-]; by eapply pack_u32_raises].
  destruct (Wire.pack_blocks bl) as [rest|e1]; simpl; [done|].
  intros [= <-]. by apply IH.
Qed.

Lemma create_ack_raises c bl e : Wire.create_ack c bl = Raise e → e = StructError.
Proof.
  unfold Wire.create_ack.
  destruct (Wire.pack_u32 c) as [ps|e1] eqn:Es; simpl;
    [|intros [= <-]; by eapply pack_u32_raises].
  destruct (Wire.pack_blocks (take 2 bl)) as [parts|e1] eqn:Eb; simpl; [done|].
  intros [= <-]. by eapply pack_blocks_raises.
Qed.

Definition in_u32 (b : Z * Z) : Prop := 0 ≤ b.1 < 2 ^ 32 ∧ 0 ≤ b.2 < 2 ^ 32.

Lemma pack_blocks_Ok bl :
  Forall in_u32 bl →
  ∃ parts, Wire.pack_blocks bl = Ok parts
           ∧ length parts = (2 * length bl)%nat
           ∧ Forall (λ p, length p = 4%nat) parts.
Proof.
  induction 1 as [|[s e] bl [Hs He] _ (parts & IH & Hlen & Hall)]; simpl.
  - exists []. by repeat split.
  - simpl in Hs, He.
    destruct (WireFacts.pack_u32_Ok s Hs) as (s3 & s2 & s1 & s0 & -> & _).
    destruct (WireFacts.pack_u32_Ok e He) as (e3 & e2 & e1 & e0 & -> & _).
    rewrite IH. simpl. eexists. split; [done|]. split; [simpl; lia|].
    by repeat constructor.
Qed.

Lemma length_concat_fours (parts : list (list byte)) :
  Forall (λ p, length p = 4%nat) parts →
  length (concat parts) = (4 * length parts)%nat.
Proof.
  induction 1 as [|p parts Hp _ IH]; simpl; [done|].
  rewrite length_app, Hp, IH. lia.
Qed.

(** An ACK whose fields fit 32 bits is built, and is 20 bytes long. *)
Lemma create_ack_Ok c bl :
  0 ≤ c < 2 ^ 32 → Forall in_u32 bl →
  ∃ ack, Wire.create_ack c bl = Ok ack ∧ length ack = 20%nat.
Proof.
  intros Hc Hbl. unfold Wire.create_ack.
  destruct (WireFacts.pack_u32_Ok c Hc) as (b3 & b2 & b1 & b0 & -> & _).
  destruct (pack_blocks_Ok (take 2 bl)) as (parts & -> & Hlen & Hall);
    [by apply Forall_take|].
  simpl. eexists. split; [done|]. cbn [length]. do 4 f_equal.
  rewrite length_concat_fours.
  - unfold Wire.pad_parts. rewrite length_app, length_replicate, Hlen.
    rewrite length_take. lia.
  - unfold Wire.pad_parts. apply Forall_app. split; [done|].
    by apply Forall_replicate.
Qed.

Lemma create_ack_length c bl ack :
  Wire.create_ack c bl = Ok ack → length ack = 20%nat.
Proof.
  unfold Wire.create_ack.
  intros (ps & Hps & (parts & Hparts & [= <-])%rbind_Ok)%rbind_Ok.
  apply RoundTrip.pack_u32_inv in Hps as (b3 & b2 & b1 & b0 & -> & _).
  assert (∀ l parts, Wire.pack_blocks l = Ok parts →
            length parts = (2 * length l)%nat
            ∧ Forall (λ p, length p = 4%nat) parts) as Hpb.
  { clear. induction l as [|[s e] l IH]; intros parts; simpl.
    - by intros [= <-].
    - intros (ps & (s3 & s2 & s1 & s0 & -> & _)%RoundTrip.pack_u32_inv
              & (pe & (e3 & e2 & e1 & e0 & -> & _)%RoundTrip.pack_u32_inv
                 & (rest & [Hl Hall]%IH & [= <-])%rbind_Ok)%rbind_Ok)%rbind_Ok.
      split; [simpl; lia|]. by repeat constructor. }
  apply Hpb in Hparts as [Hlen Hall].
  cbn [length app]. do 4 f_equal. rewrite length_concat_fours.
  - unfold Wire.pad_parts. rewrite length_app, length_replicate, Hlen.
    rewrite length_take. lia.
  - unfold Wire.pad_parts. apply Forall_app. split; [done|].
    by apply Forall_replicate.
Qed.

(** *** The buffer and the set of buffered sequence numbers agree *)

Definition buffer_ok (st : state) : Prop :=
  ∀ x, x ∈ received_seqs st ↔ is_Some (receive_buffer st !! x).

Lemma buffer_ok_init : buffer_ok init.
Proof.
  intros x. unfold init. cbn [received_seqs receive_buffer]. split.
  - by intros ?%elem_of_empty.
  - intros [d Hd]. by rewrite lookup_empty in Hd.
Qed.

Lemma buffer_ok_store seq data st : buffer_ok st → buffer_ok (store seq data st).
Proof.
  intros Hok. unfold store. destruct (decide (seq ∈ received_seqs st)); [done|].
  intros x. simpl. rewrite elem_of_union, elem_of_singleton, (Hok x).
  destruct (decide (x = seq)) as [->|Hne].
  - rewrite lookup_insert_eq. split; [eauto|by left].
  - rewrite lookup_insert_ne by done. split; [by intros [?|?]|by right].
Qed.

(** The delivery loop never fails on [set.remove], appends what it pops, and
    only moves the cursor forward. *)
Lemma deliver_ok fuel st :
  buffer_ok st →
  ∃ st', deliver fuel st = Ok st' ∧ buffer_ok st'
         ∧ next_expected_seq st ≤ next_expected_seq st'
         ∧ received_data st `prefix_of` received_data st'
         ∧ sent st' = sent st ∧ last_received_seq st' = last_received_seq st
         ∧ (∀ x, x ∈ received_seqs st' → x ∈ received_seqs st)
         ∧ (∀ x, x ∈ received_seqs st → next_expected_seq st' ≤ x →
                 x ∈ received_seqs st').
Proof.
  revert st. induction fuel as [|fuel IH]; intros st Hok; simpl.
  { exists st. split_and!; try done; lia. }
  destruct (receive_buffer st !! next_expected_seq st) as [d|] eqn:E;
    [|exists st; split_and!; try done; lia].
  destruct (decide _) as [Hin|Hn]; [|destruct Hn; apply Hok; eauto].
  match goal with |- ∃ st', deliver fuel ?s = _ ∧ _ =>
    destruct (IH s) as (st' & -> & Hok' & Hnext & Hpre & Hsent & Hlast & Hsub & Hkeep)
  end.
  { intros x. simpl. rewrite elem_of_difference, elem_of_singleton, (Hok x).
    destruct (decide (x = next_expected_seq st)) as [->|Hne].
    - rewrite lookup_delete_eq. split; [tauto|]. by intros [? ?].
    - rewrite lookup_delete_ne by done. tauto. }
  simpl in *. exists st'. split; [done|]. split; [done|]. split; [lia|].
  split; [by etrans; [apply prefix_app_r|exact Hpre]|].
  split; [done|]. split; [done|]. split.
  - intros x Hx%Hsub. apply elem_of_difference in Hx. tauto.
  - intros x Hx Hle. apply Hkeep; [|done].
    apply elem_of_difference. split; [done|]. rewrite elem_of_singleton. lia.
Qed.

(** *** One turn of the receive loop *)

Lemma parse_packet_cases (packet : list byte) :
  Wire.parse_packet packet = Ok None
  ∨ ∃ seq data, Wire.parse_packet packet = Ok (Some (seq, data))
                ∧ 0 ≤ seq < 2 ^ 32.
Proof.
  destruct (decide (length packet < 20)%nat) as [Hshort|Hlong].
  { left. by apply WireFacts.parse_packet_short. }
  right. unfold Wire.parse_packet, Wire.HEADER_SIZE.
  destruct (Z.ltb_spec (Z.of_nat (length packet)) 20); [lia|].
  destruct (CodecBounds.unpack_u32_four (Wire.slice packet 0 4))
    as (seq & -> & Hseq).
  { rewrite Progress.length_slice by lia. lia. }
  simpl. eauto.
Qed.

Lemma is_eof_dec (data : list byte) :
  data = Wire.EOF_MARKER ∨ data ≠ Wire.EOF_MARKER.
Proof.
  destruct (bytes_eqb data Wire.EOF_MARKER) eqn:E.
  - left. by apply Lossless.bytes_eqb_eq.
  - right. intros Heq%Lossless.bytes_eqb_eq. congruence.
Qed.

Lemma on_datagram_data_unfold packet seq data st :
  Wire.parse_packet packet = Ok (Some (seq, data)) → data ≠ Wire.EOF_MARKER →
  on_datagram packet st
  = deliver (size (receive_buffer (store seq data st))) (store seq data st)
      ≫= λ st2, current_ack st2 (Some seq)
      ≫= λ ack_pkt, Ok (with_ack st2 (Some seq) [ack_pkt], false).
Proof.
  intros Hparse Hne. unfold on_datagram. rewrite Hparse. simpl.
  destruct (bytes_eqb data Wire.EOF_MARKER) eqn:E; [|done].
  by apply Lossless.bytes_eqb_eq in E.
Qed.

Lemma on_datagram_eof_unfold packet seq st :
  Wire.parse_packet packet = Ok (Some (seq, Wire.EOF_MARKER)) →
  on_datagram packet st
  = Wire.create_ack (seq + 1) []
      ≫= λ final_ack,
           Ok (with_ack st (last_received_seq st) (replicate 5 final_ack), true).
Proof. intros Hparse. unfold on_datagram. by rewrite Hparse. Qed.

Lemma receive_loop_app events more st st' :
  receive_loop events st = Ok (st', false) →
  receive_loop (events ++ more) st = receive_loop more st'.
Proof.
  revert st. induction events as [|ev events IH]; intros st; simpl.
  - by intros [= <-].
  - intros ([st1 stop] & Hstep & Hrest)%rbind_Ok. rewrite Hstep. simpl.
    destruct stop; [done|]. by apply IH.
Qed.

(** The SACK blocks of a state whose buffered numbers fit 32 bits do. *)
Lemma sack_blocks_in_u32 (seqs : gset Z) recent :
  (∀ x, x ∈ seqs → 0 ≤ x < 2 ^ 32) →
  Forall in_u32 (find_sack_blocks seqs recent).
Proof.
  intros Hrange. eapply Forall_impl; [apply SackBlocks.find_sack_blocks_within|].
  intros [s e] [Hse Hin]. simpl in *. split; simpl.
  - apply Hrange, Hin. lia.
  - apply Hrange, Hin. lia.
Qed.

(** *** What the receiver can raise *)

(** The cursor and the buffered numbers stay below [B]. *)
Definition bounded (B : Z) (st : state) : Prop :=
  0 ≤ next_expected_seq st ≤ B ∧ ∀ x, x ∈ received_seqs st → 0 ≤ x < B.

Lemma deliver_bounded B fuel st st' :
  bounded B st → deliver fuel st = Ok st' → bounded B st'.
Proof.
  revert st. induction fuel as [|fuel IH]; intros st [Hnext Hseqs]; simpl.
  - by intros [= <-].
  - destruct (receive_buffer st !! next_expected_seq st); [|by intros [= <-]].
    destruct (decide _) as [Hin|]; [|done]. apply IH. split; simpl.
    + apply Hseqs in Hin. lia.
    + intros x [Hx _]%elem_of_difference. by apply Hseqs.
Qed.

Lemma store_bounded B seq data st :
  bounded B st → 0 ≤ seq < B → bounded B (store seq data st).
Proof.
  intros [Hnext Hseqs] Hseq. unfold store.
  destruct (decide (seq ∈ received_seqs st)); [done|]. split; simpl; [done|].
  intros x [->%elem_of_singleton|Hx]%elem_of_union; [done|by apply Hseqs].
Qed.

Lemma current_ack_Ok B st recent :
  bounded B st → B < 2 ^ 32 →
  ∃ ack, current_ack st recent = Ok ack ∧ length ack = 20%nat.
Proof.
  intros [Hnext Hseqs] HB. apply create_ack_Ok; [lia|].
  apply sack_blocks_in_u32. intros x Hx%Hseqs. lia.
Qed.

(** A turn ends in the next state or in struct.error, and in the state when
    sequence number 2^32 - 1 has not been seen. *)
Lemma step_safe ev st :
  buffer_ok st →
  (∃ st' stop, step ev st = Ok (st', stop) ∧ buffer_ok st')
  ∨ step ev st = Raise StructError.
Proof.
  intros Hok. destruct ev as [packet|]; simpl.
  - destruct (parse_packet_cases packet) as [Hnone|(seq & data & Hparse & Hseq)].
    { left. unfold on_datagram. rewrite Hnone. simpl. eauto. }
    destruct (is_eof_dec data) as [->|Hne].
    + rewrite (on_datagram_eof_unfold _ _ _ Hparse).
      destruct (Wire.create_ack (seq + 1) []) as [ack|e] eqn:E; simpl.
      * left. eauto.
      * right. by apply create_ack_raises in E as ->.
    + rewrite (on_datagram_data_unfold _ _ _ _ Hparse Hne).
      destruct (deliver_ok (size (receive_buffer (store seq data st)))
                  (store seq data st)) as (st2 & -> & Hok2 & _);
        [by apply buffer_ok_store|]. simpl.
      destruct (current_ack st2 (Some seq)) as [ack|e] eqn:E; simpl.
      * left. eauto.
      * right. by apply create_ack_raises in E as ->.
  - unfold on_timeout.
    destruct (current_ack st (last_received_seq st)) as [ack|e] eqn:E; simpl.
    + left. eauto.
    + right. by apply create_ack_raises in E as ->.
Qed.

(** No datagram of the list carries the sequence number 2^32 - 1. *)
Definition below_last_seq (ev : recv_event) : Prop :=
  match ev with
  | Datagram packet =>
      ∀ data, Wire.parse_packet packet ≠ Ok (Some (2 ^ 32 - 1, data))
  | SockTimeout => True
  end.

Lemma step_bounded ev st :
  buffer_ok st → bounded (2 ^ 32 - 1) st → below_last_seq ev →
  ∃ st' stop, step ev st = Ok (st', stop)
              ∧ buffer_ok st' ∧ bounded (2 ^ 32 - 1) st'.
Proof.
  intros Hok Hb Hev. destruct ev as [packet|]; simpl in *.
  - destruct (parse_packet_cases packet) as [Hnone|(seq & data & Hparse & Hseq)].
    { unfold on_datagram. rewrite Hnone. simpl. eauto. }
    assert (seq < 2 ^ 32 - 1) as Hlt.
    { destruct (decide (seq = 2 ^ 32 - 1)) as [->|]; [|lia].
      by destruct (Hev data). }
    destruct (is_eof_dec data) as [->|Hne].
    + rewrite (on_datagram_eof_unfold _ _ _ Hparse).
      destruct (create_ack_Ok (seq + 1) []) as (ack & -> & _); [lia|done|].
      simpl. eauto.
    + rewrite (on_datagram_data_unfold _ _ _ _ Hparse Hne).
      destruct (deliver_ok (size (receive_buffer (store seq data st)))
                  (store seq data st)) as (st2 & Hdel & Hok2 & _);
        [by apply buffer_ok_store|]. rewrite Hdel. simpl.
      assert (bounded (2 ^ 32 - 1) st2) as Hb2.
      { eapply deliver_bounded; [|exact Hdel]. apply store_bounded; [done|lia]. }
      destruct (current_ack_Ok _ st2 (Some seq) Hb2) as (ack & -> & _); [lia|].
      simpl. eauto.
  - unfold on_timeout.
    destruct (current_ack_Ok _ st (last_received_seq st) Hb) as (ack & -> & _);
      [lia|].
    simpl. eauto.
Qed.

Lemma receive_loop_safe events st :
  buffer_ok st →
  (∃ st' stop, receive_loop events st = Ok (st', stop))
  ∨ receive_loop events st = Raise StructError.
Proof.
  revert st. induction events as [|ev events IH]; intros st Hok; simpl.
  { left. eauto. }
  destruct (step_safe ev st Hok) as [(st1 & stop & -> & Hok1)| ->];
    [|by right]. simpl.
  destruct stop; [left; eauto|]. by apply IH.
Qed.

Lemma receive_loop_bounded events st :
  buffer_ok st → bounded (2 ^ 32 - 1) st → Forall below_last_seq events →
  ∃ st' stop, receive_loop events st = Ok (st', stop).
Proof.
  intros Hok Hb Hall. revert st Hok Hb.
  induction Hall as [|ev events Hev _ IH]; intros st Hok Hb; simpl; [eauto|].
  destruct (step_bounded ev st Hok Hb Hev) as (st1 & stop & -> & Hok1 & Hb1).
  simpl. destruct stop; [eauto|]. by apply IH.
Qed.

(** Whatever arrives and in whatever order, receive_file raises nothing but
    struct.error (never the KeyError of [set.remove] or a TypeError), and it
    raises nothing at all when no datagram carries sequence number
    2^32 - 1. *)
Theorem receiver_raises_only_on_seq_overflow (events : list recv_event) :
  ((∃ out, receive_file events = Ok out)
   ∨ receive_file events = Raise StructError)
  ∧ (Forall below_last_seq events → ∃ out, receive_file events = Ok out).
Proof.
  unfold receive_file. split.
  - destruct (receive_loop_safe events init buffer_ok_init)
      as [(st & stop & ->)| ->]; [|by right].
    left. simpl. eauto.
  - intros Hall.
    destruct (receive_loop_bounded events init) as (st & stop & ->);
      [apply buffer_ok_init| |done|].
    + split; simpl; [lia|]. by intros x ?%elem_of_empty.
    + simpl. eauto.
Qed.

Lemma receiver_raises_only_on_seq_overflow_witness :
  ∃ out, receive_file [Datagram (header_of 3 ++ [x61]); SockTimeout;
                       Datagram [x01]] = Ok out.
Proof.
  apply (proj2 (receiver_raises_only_on_seq_overflow _)).
  repeat constructor; intros data; discriminate.
Defined.

End ReceiverFacts.

(** ** The receiver: data packets in any order, with duplicates *)

Module AnyOrder.
Import Sender Client ReceiverFacts.

#[local] Arguments find_sack_blocks : simpl never.
#[local] Arguments Wire.create_ack : simpl never.
#[local] Arguments Wire.parse_packet : simpl never.

(** An event of the data phase of a session with payloads [packets]: a
    timeout, a datagram too short to be parsed, or a data packet whose
    sequence number and payload are those of one of the payloads. *)
Definition data_event (packets : list (list byte)) (ev : recv_event) : Prop :=
  match ev with
  | SockTimeout => True
  | Datagram pkt =>
      Wire.parse_packet pkt = Ok None
      ∨ ∃ (i : nat) chunk, packets !! i = Some chunk
          ∧ Wire.parse_packet pkt = Ok (Some (Z.of_nat i, chunk))
  end.

(** The sequence numbers carried by the datagrams of a list of events. *)
Definition arrival (ev : recv_event) : gset Z :=
  match ev with
  | Datagram pkt =>
      match Wire.parse_packet pkt with
      | Ok (Some (seq, _)) => {[seq]}
      | _ => ∅
      end
  | SockTimeout => ∅
  end.

Definition arrivals (events : list recv_event) : gset Z :=
  ⋃ (arrival <$> events).

(** The receiver has got the packets [arrived] of [packets]: the first
    next_expected_seq payloads are delivered, in order, and the others that
    arrived are buffered under their numbers. *)
Record tracks (packets : list (list byte)) (arrived : gset Z) (st : state)
  : Prop := mk_tracks {
  tr_buffer : buffer_ok st;
  tr_cursor : 0 ≤ next_expected_seq st ≤ Z.of_nat (length packets);
  tr_data : received_data st
            = concat (take (Z.to_nat (next_expected_seq st)) packets);
  tr_chunks : ∀ x d, receive_buffer st !! x = Some d →
                     0 ≤ x ∧ packets !! Z.to_nat x = Some d;
  tr_arrived : ∀ x, x ∈ arrived → next_expected_seq st ≤ x →
                    x ∈ received_seqs st
}.

Lemma tracks_init packets : tracks packets ∅ init.
Proof.
  split; simpl.
  - apply buffer_ok_init.
  - lia.
  - done.
  - intros x d Hx. by rewrite lookup_empty in Hx.
  - by intros x ?%elem_of_empty.
Qed.

Lemma tracks_store packets arrived (i : nat) chunk st :
  tracks packets arrived st → packets !! i = Some chunk →
  tracks packets ({[Z.of_nat i]} ∪ arrived) (store (Z.of_nat i) chunk st).
Proof.
  intros [Hbuf Hcur Hdata Hchunks Harr] Hi. unfold store.
  destruct (decide (Z.of_nat i ∈ received_seqs st)) as [Hin|Hnotin].
  - split; try done.
    intros x [->%elem_of_singleton|Hx]%elem_of_union Hle; [done|by apply Harr].
  - split; simpl.
    + by apply (buffer_ok_store (Z.of_nat i) chunk) in Hbuf;
        unfold store in Hbuf; destruct (decide _).
    + done.
    + done.
    + intros x d. destruct (decide (x = Z.of_nat i)) as [->|Hne].
      * rewrite lookup_insert_eq. intros [= <-]. split; [lia|].
        by rewrite Nat2Z.id.
      * rewrite lookup_insert_ne by done. apply Hchunks.
    + intros x [->%elem_of_singleton|Hx]%elem_of_union Hle.
      * apply elem_of_union_l. by apply elem_of_singleton.
      * apply elem_of_union_r. by apply Harr.
Qed.

Lemma tracks_deliver packets arrived fuel st st' :
  tracks packets arrived st → deliver fuel st = Ok st' →
  tracks packets arrived st'.
Proof.
  revert st. induction fuel as [|fuel IH];
    intros st [Hbuf Hcur Hdata Hchunks Harr]; simpl.
  - by intros [= <-].
  - destruct (receive_buffer st !! next_expected_seq st) as [d|] eqn:E;
      [|by intros [= <-]].
    destruct (decide _) as [Hin|]; [|done].
    destruct (Hchunks _ _ E) as [Hk0 Hk].
    assert (Z.to_nat (next_expected_seq st) < length packets)%nat as Hlt
      by (by eapply lookup_lt_Some).
    apply IH. split; simpl.
    + intros x. simpl. rewrite elem_of_difference, elem_of_singleton, (Hbuf x).
      destruct (decide (x = next_expected_seq st)) as [->|Hne].
      * rewrite lookup_delete_eq. split; [tauto|]. by intros [? ?].
      * rewrite lookup_delete_ne by done. tauto.
    + lia.
    + replace (Z.to_nat (next_expected_seq st + 1))
        with (S (Z.to_nat (next_expected_seq st))) by lia.
      rewrite (take_S_r _ _ _ Hk), concat_app, Hdata. simpl.
      by rewrite app_nil_r.
    + intros x d'. destruct (decide (x = next_expected_seq st)) as [->|Hne].
      * by rewrite lookup_delete_eq.
      * rewrite lookup_delete_ne by done. apply Hchunks.
    + intros x Hx Hle. apply elem_of_difference. split; [apply Harr; [done|lia]|].
      rewrite elem_of_singleton. lia.
Qed.

Lemma tracks_with_ack packets arrived st recent acks :
  tracks packets arrived st → tracks packets arrived (with_ack st recent acks).
Proof. by intros []. Qed.

Lemma tracks_bounded packets arrived st :
  tracks packets arrived st → bounded (Z.of_nat (length packets)) st.
Proof.
  intros [Hbuf Hcur _ Hchunks _]. split; [done|].
  intros x [d Hd]%Hbuf. apply Hchunks in Hd as [? Hd].
  apply lookup_lt_Some in Hd. lia.
Qed.

(** A turn of the data phase: the state follows, the loop goes on, and the
    packet at the cursor is not in the buffer. *)
Lemma tracks_step packets arrived ev st :
  Z.of_nat (length packets) < 2 ^ 32 →
  Forall (λ chunk, chunk ≠ Wire.EOF_MARKER) packets →
  tracks packets arrived st →
  receive_buffer st !! next_expected_seq st = None →
  data_event packets ev →
  ∃ st', step ev st = Ok (st', false)
         ∧ tracks packets (arrival ev ∪ arrived) st'
         ∧ receive_buffer st' !! next_expected_seq st' = None.
Proof.
  intros Htotal Hne Htr Hgap Hev.
  destruct ev as [pkt|]; simpl in *.
  - destruct Hev as [Hnone|(i & chunk & Hi & Hparse)].
    + unfold on_datagram. rewrite Hnone. simpl. exists st. split; [done|].
      split; [|done]. by rewrite union_empty_l_L.
    + rewrite Hparse.
      assert (chunk ≠ Wire.EOF_MARKER) as Hchunk.
      { rewrite Forall_forall in Hne. apply Hne. by eapply list_elem_of_lookup_2. }
      rewrite (on_datagram_data_unfold _ _ _ _ Hparse Hchunk).
      pose proof (tracks_store _ _ _ _ _ Htr Hi) as Htr1.
      destruct (deliver_ok (size (receive_buffer (store (Z.of_nat i) chunk st)))
                  (store (Z.of_nat i) chunk st)) as (st2 & Hdel & _);
        [apply Htr1|].
      rewrite Hdel. simpl.
      pose proof (tracks_deliver _ _ _ _ _ Htr1 Hdel) as Htr2.
      destruct (current_ack_Ok _ st2 (Some (Z.of_nat i)) (tracks_bounded _ _ _ Htr2))
        as (ack & -> & _); [done|].
      simpl. eexists. split; [done|]. split.
      * by apply tracks_with_ack.
      * simpl. by eapply LoopsStop.deliver_stops; [|exact Hdel].
  - unfold on_timeout.
    destruct (current_ack_Ok _ st (last_received_seq st) (tracks_bounded _ _ _ Htr))
      as (ack & -> & _); [done|].
    simpl. eexists. split; [done|]. split; [|done].
    apply tracks_with_ack. by rewrite union_empty_l_L.
Qed.

Lemma tracks_run packets events : ∀ arrived st,
  Z.of_nat (length packets) < 2 ^ 32 →
  Forall (λ chunk, chunk ≠ Wire.EOF_MARKER) packets →
  tracks packets arrived st →
  receive_buffer st !! next_expected_seq st = None →
  Forall (data_event packets) events →
  ∃ st', receive_loop events st = Ok (st', false)
         ∧ tracks packets (arrivals events ∪ arrived) st'
         ∧ receive_buffer st' !! next_expected_seq st' = None.
Proof.
  induction events as [|ev events IH]; intros arrived st Htotal Hne Htr Hgap Hall.
  - exists st. split; [done|]. split; [|done].
    destruct Htr as [? ? ? ? Harr]. split; try done.
    intros x Hx. apply Harr. unfold arrivals in Hx. simpl in Hx.
    by rewrite union_empty_l_L in Hx.
  - apply Forall_cons in Hall as [Hev Hall].
    destruct (tracks_step packets arrived ev st) as (st1 & Hstep & Htr1 & Hgap1);
      [done..|].
    destruct (IH (arrival ev ∪ arrived) st1) as (st' & Hloop & Htr' & Hgap');
      [done..|].
    exists st'. split; [simpl; by rewrite Hstep|]. split; [|done].
    destruct Htr' as [? ? ? ? Harr]. split; try done.
    intros x Hx. apply Harr. unfold arrivals in *. simpl in Hx.
    revert Hx. rewrite !elem_of_union. tauto.
Qed.

(** Once every packet has arrived the cursor is past the last one. *)
Lemma tracks_complete packets arrived st :
  tracks packets arrived st →
  receive_buffer st !! next_expected_seq st = None →
  (∀ i : nat, (i < length packets)%nat → Z.of_nat i ∈ arrived) →
  received_data st = concat packets.
Proof.
  intros [Hbuf Hcur Hdata _ Harr] Hgap Hall.
  destruct (decide (next_expected_seq st = Z.of_nat (length packets))) as [Heq|Hne].
  - rewrite Hdata, Heq, Nat2Z.id. by rewrite firstn_all.
  - assert (next_expected_seq st ∈ received_seqs st) as [d Hd]%Hbuf.
    { apply Harr; [|lia].
      replace (next_expected_seq st)
        with (Z.of_nat (Z.to_nat (next_expected_seq st))) by lia.
      apply Hall. lia. }
    congruence.
Qed.

(** The run of receive_file over such events, then an EOF datagram. *)
Lemma reassembly (packets : list (list byte)) (events : list recv_event)
    (eof : list byte) (s : Z) :
  Z.of_nat (length packets) < 2 ^ 32 →
  Forall (λ chunk, chunk ≠ Wire.EOF_MARKER) packets →
  Forall (data_event packets) events →
  (∀ i : nat, (i < length packets)%nat → Z.of_nat i ∈ arrivals events) →
  Wire.parse_packet eof = Ok (Some (s, Wire.EOF_MARKER)) → s ≠ 2 ^ 32 - 1 →
  receive_file (events ++ [Datagram eof]) = Ok (Some (concat packets)).
Proof.
  intros Htotal Hne Hall Hcover Heof Hs.
  destruct (tracks_run packets events ∅ init) as (st & Hloop & Htr & Hgap);
    [done|done|apply tracks_init|done|done|].
  unfold receive_file. rewrite (receive_loop_app _ _ _ _ Hloop). simpl.
  rewrite (on_datagram_eof_unfold _ _ _ Heof).
  destruct (parse_packet_cases eof) as [Hnone|(s' & d' & Hp & Hrange)];
    [congruence|].
  assert (s' = s) as -> by congruence.
  destruct (create_ack_Ok (s + 1) []) as (ack & -> & _); [lia|done|].
  simpl. do 2 f_equal. eapply tracks_complete; [exact Htr|exact Hgap|].
  intros i Hi. apply elem_of_union_l. by apply Hcover.
Qed.

(** Fidelity under reordering and duplication.  The data packets of a
    session arrive in any order, any number of times each, between timeouts
    and short datagrams; no payload is the three bytes "EOF"; every packet
    has arrived at least once when a datagram with the payload "EOF" comes.
    Then receive_file writes the payloads in sequence order, each once: for
    the payloads of a file, the file. *)
Theorem any_order_fidelity (packets : list (list byte))
    (events : list recv_event) (eof : list byte) (s : Z) :
  Z.of_nat (length packets) < 2 ^ 32 →
  Forall (λ chunk, chunk ≠ Wire.EOF_MARKER) packets →
  Forall (data_event packets) events →
  (∀ i : nat, (i < length packets)%nat → Z.of_nat i ∈ arrivals events) →
  Wire.parse_packet eof = Ok (Some (s, Wire.EOF_MARKER)) → s ≠ 2 ^ 32 - 1 →
  receive_file (events ++ [Datagram eof]) = Ok (Some (concat packets))
  ∧ ∀ file_data, packets = split_file file_data →
      receive_file (events ++ [Datagram eof]) = Ok (Some file_data).
Proof.
  intros Htotal Hne Hall Hcover Heof Hs.
  pose proof (reassembly packets events eof s Htotal Hne Hall Hcover Heof Hs)
    as Hrun.
  split; [done|]. intros file_data ->.
  by rewrite Hrun, LoopsStop.split_file_concat.
Qed.

(** Packets 1, 0, a timeout, 1 again, then EOF. *)
Lemma any_order_fidelity_witness :
  receive_file ([Datagram (header_of 1 ++ [x62]); Datagram (header_of 0 ++ [x61]);
                 SockTimeout; Datagram (header_of 1 ++ [x62])]
                ++ [Datagram (header_of 2 ++ Wire.EOF_MARKER)])
  = Ok (Some [x61; x62]).
Proof.
  refine (proj1 (any_order_fidelity [[x61]; [x62]] _ _ 2 _ _ _ _ _ _)).
  - simpl. lia.
  - repeat constructor; discriminate.
  - apply Forall_cons. split; [right; by exists 1%nat, [x62]|].
    apply Forall_cons. split; [right; by exists 0%nat, [x61]|].
    apply Forall_cons. split; [done|].
    apply Forall_cons. split; [right; by exists 1%nat, [x62]|]. constructor.
  - intros [|[|i]] Hi; [by vm_compute|by vm_compute|simpl in Hi; lia].
  - reflexivity.
  - lia.
Defined.

End AnyOrder.

(** ** The receiver: what is written and sent only grows *)

Module ReceiverOutput.
Import Sender Client ReceiverFacts.

#[local] Arguments find_sack_blocks : simpl never.
#[local] Arguments Wire.create_ack : simpl never.
#[local] Arguments Wire.parse_packet : simpl never.

(** [st'] continues [st]: the cursor is not behind, the delivered bytes and
    the ACKs sent are extended, and the new ACKs are [n] datagrams of 20
    bytes. *)
Definition extends (n : nat) (st st' : state) : Prop :=
  next_expected_seq st ≤ next_expected_seq st'
  ∧ received_data st `prefix_of` received_data st'
  ∧ ∃ acks, sent st' = sent st ++ acks ∧ length acks = n
            ∧ Forall (λ ack, length ack = 20%nat) acks.

(** The ACKs one turn sends: none for a short datagram, five for an EOF
    datagram, one otherwise. *)
Definition acks_of (ev : recv_event) : nat :=
  match ev with
  | SockTimeout => 1
  | Datagram pkt =>
      match Wire.parse_packet pkt with
      | Ok (Some (_, data)) => if bytes_eqb data Wire.EOF_MARKER then 5 else 1
      | _ => 0
      end
  end.

Lemma extends_refl st : extends 0 st st.
Proof.
  split; [lia|]. split; [done|]. exists []. by rewrite app_nil_r.
Qed.

Lemma extends_trans n m st1 st2 st3 :
  extends n st1 st2 → extends m st2 st3 → extends (n + m) st1 st3.
Proof.
  intros (Hn1 & Hp1 & acks1 & Hs1 & Hl1 & Ha1) (Hn2 & Hp2 & acks2 & Hs2 & Hl2 & Ha2).
  split; [lia|]. split; [by etrans|]. exists (acks1 ++ acks2).
  split; [by rewrite Hs2, Hs1, app_assoc|]. split; [rewrite length_app; lia|].
  by apply Forall_app.
Qed.

Lemma step_extends ev st st' stop :
  buffer_ok st → step ev st = Ok (st', stop) →
  buffer_ok st' ∧ extends (acks_of ev) st st'.
Proof.
  intros Hok. destruct ev as [packet|]; simpl.
  - destruct (parse_packet_cases packet) as [Hnone|(seq & data & Hparse & Hseq)].
    { unfold on_datagram. rewrite Hnone. simpl. intros [= <- <-].
      split; [done|apply extends_refl]. }
    rewrite Hparse. destruct (is_eof_dec data) as [->|Hne].
    + rewrite (on_datagram_eof_unfold _ _ _ Hparse).
      intros (ack & Hack%create_ack_length & [= <- <-])%rbind_Ok.
      split; [done|]. split; [simpl; lia|]. split; [done|].
      exists (replicate 5 ack). split; [done|]. split; [done|].
      by apply Forall_replicate.
    + rewrite (on_datagram_data_unfold _ _ _ _ Hparse Hne).
      destruct (bytes_eqb data Wire.EOF_MARKER) eqn:E;
        [by apply Lossless.bytes_eqb_eq in E|].
      destruct (deliver_ok (size (receive_buffer (store seq data st)))
                  (store seq data st))
        as (st2 & -> & Hok2 & Hnext & Hpre & Hsent & _);
        [by apply buffer_ok_store|]. simpl.
      intros (ack & Hack%create_ack_length & [= <- <-])%rbind_Ok.
      split; [done|].
      assert (next_expected_seq (store seq data st) = next_expected_seq st
              ∧ received_data (store seq data st) = received_data st
              ∧ sent (store seq data st) = sent st) as (Hn & Hd & Hs).
      { unfold store. by destruct (decide _). }
      rewrite Hn in Hnext. rewrite Hd in Hpre. rewrite Hs in Hsent.
      split; [done|]. split; [done|]. exists [ack]. simpl. rewrite Hsent.
      split; [done|]. split; [done|]. by constructor.
  - unfold on_timeout.
    intros (ack & Hack%create_ack_length & [= <- <-])%rbind_Ok.
    split; [done|]. split; [simpl; lia|]. split; [done|].
    exists [ack]. split; [done|]. split; [done|]. by constructor.
Qed.

Lemma receive_loop_extends events st st' stop :
  buffer_ok st → receive_loop events st = Ok (st', stop) →
  buffer_ok st'
  ∧ ∃ n, extends n st st' ∧ (n ≤ length events + if stop then 4 else 0)%nat.
Proof.
  revert st. induction events as [|ev events IH]; intros st Hok; simpl.
  - intros [= <- <-]. split; [done|]. exists 0%nat.
    split; [apply extends_refl|lia].
  - intros ([st1 stop1] & Hstep & Hrest)%rbind_Ok.
    destruct (step_extends _ _ _ _ Hok Hstep) as [Hok1 Hext1].
    assert (acks_of ev ≤ 5)%nat as H5.
    { destruct ev as [pkt|]; simpl; [|lia].
      destruct (Wire.parse_packet pkt) as [[[? d]|]|]; try lia.
      destruct (bytes_eqb d _); lia. }
    destruct stop1.
    + injection Hrest as <- <-. split; [done|]. exists (acks_of ev).
      split; [done|lia].
    + assert (acks_of ev ≤ 1)%nat as H1.
      { destruct ev as [pkt|]; simpl in *; [|lia].
        destruct (parse_packet_cases pkt) as [Hnone|(seq & data & Hparse & _)].
        - rewrite Hnone. lia.
        - rewrite Hparse. destruct (is_eof_dec data) as [->|Hne].
          + rewrite (on_datagram_eof_unfold _ _ _ Hparse) in Hstep.
            by apply rbind_Ok in Hstep as (? & _ & [=]).
          + destruct (bytes_eqb data _) eqn:E; [|lia].
            by apply Lossless.bytes_eqb_eq in E. }
      destruct (IH st1 Hok1 Hrest) as (Hok' & n & Hext & Hn).
      split; [done|]. exists (acks_of ev + n)%nat.
      split; [by eapply extends_trans|lia].
Qed.

(** Along any run of receive_file, whatever arrives: the bytes delivered at
    one point are a prefix of the bytes delivered at any later point, the
    cursor next_expected_seq never moves back, and everything the receiver
    sends is a 20-byte ACK, at most one per event (five for the final EOF). *)
Theorem receiver_output_only_grows (events more : list recv_event)
    (st st' : state) (stop : bool) :
  receive_loop events init = Ok (st, false) →
  receive_loop (events ++ more) init = Ok (st', stop) →
  next_expected_seq st ≤ next_expected_seq st'
  ∧ received_data st `prefix_of` received_data st'
  ∧ sent st `prefix_of` sent st'
  ∧ Forall (λ ack, length ack = 20%nat) (sent st')
  ∧ (length (sent st') ≤ length (events ++ more) + 4)%nat.
Proof.
  intros Hrun Hmore. rewrite (receive_loop_app _ _ _ _ Hrun) in Hmore.
  destruct (receive_loop_extends _ _ _ _ buffer_ok_init Hrun)
    as (Hok & n & Hext & Hn).
  destruct Hext as (_ & _ & acks & Hs & Hl & Ha).
  destruct (receive_loop_extends _ _ _ _ Hok Hmore) as (_ & m & Hext' & Hm).
  destruct Hext' as (Hnext & Hpre & acks' & Hs' & Hl' & Ha').
  split; [done|]. split; [done|]. split; [rewrite Hs'; by apply prefix_app_r|].
  simpl in Hs. subst acks. split.
  - rewrite Hs'. by apply Forall_app.
  - rewrite Hs', !length_app. destruct stop; lia.
Qed.

(** Packet 1 arrives and is buffered; then packet 0 arrives and both are
    delivered. *)
Definition after_packet_1 : state :=
  {| receive_buffer := {[1 := [x62]]}; received_seqs := {[1]};
     next_expected_seq := 0; received_data := [];
     last_received_seq := Some 1;
     sent := [[x00; x00; x00; x00; x00; x00; x00; x01; x00; x00; x00; x01;
               x00; x00; x00; x00; x00; x00; x00; x00]] |}.

Definition after_packets_1_0 : state :=
  {| receive_buffer := ∅; received_seqs := ∅;
     next_expected_seq := 2; received_data := [x61; x62];
     last_received_seq := Some 0;
     sent := [[x00; x00; x00; x00; x00; x00; x00; x01; x00; x00; x00; x01;
               x00; x00; x00; x00; x00; x00; x00; x00];
              [x00; x00; x00; x02; x00; x00; x00; x00; x00; x00; x00; x00;
               x00; x00; x00; x00; x00; x00; x00; x00]] |}.

Lemma receiver_output_only_grows_witness :
  next_expected_seq after_packet_1 ≤ next_expected_seq after_packets_1_0
  ∧ received_data after_packet_1 `prefix_of` received_data after_packets_1_0
  ∧ sent after_packet_1 `prefix_of` sent after_packets_1_0
  ∧ Forall (λ ack, length ack = 20%nat) (sent after_packets_1_0)
  ∧ (length (sent after_packets_1_0)
     ≤ length ([Datagram (header_of 1 ++ [x62])]
               ++ [Datagram (header_of 0 ++ [x61])]) + 4)%nat.
Proof.
  apply (receiver_output_only_grows [Datagram (header_of 1 ++ [x62])]
           [Datagram (header_of 0 ++ [x61])] after_packet_1 after_packets_1_0
           false).
  - by vm_compute.
  - by vm_compute.
Defined.

End ReceiverOutput.

(** ** The senders: what the tracker holds *)

Module SenderInvariants.
Import Tracker Sender TrackerFacts.

#[local] Arguments retransmit : simpl never.
#[local] Arguments py_eqb : simpl never.

(** The packets sent so far are 0 .. next_seq - 1, every unacked packet
    has a send-time record and no other packet has one, and the sample log
    holds one entry per packet sent and no longer unacked. *)
Record sent_ok (next_seq total : Z) (tr : Tracker.t) (log : list (Z * Q))
  : Prop := mk_sent_ok {
  so_next : 0 ≤ next_seq ≤ total;
  so_sent : ∀ x, x ∈ sent_once tr ↔ 0 ≤ x < next_seq;
  so_unacked : unacked tr ⊆ sent_once tr;
  so_times : ∀ x, x ∈ unacked tr ↔ is_Some (send_times tr !! x);
  so_samples : Z.of_nat (length log) + Z.of_nat (size (unacked tr)) = next_seq
}.

Lemma sent_ok_init total : 0 ≤ total → sent_ok 0 total Tracker.init [].
Proof.
  intros Htotal. unfold Tracker.init. split; cbn [sent_once unacked send_times].
  - lia.
  - intros x. rewrite elem_of_empty. lia.
  - done.
  - intros x. rewrite elem_of_empty, lookup_empty. split; [done|]. by intros [? ?].
  - by rewrite size_empty.
Qed.

Lemma record_send_sent_ok pb now n total tr log tr' :
  sent_ok n total tr log → n < total →
  record_send pb n now tr = Ok tr' → sent_ok (n + 1) total tr' log.
Proof.
  intros [Hnext Hsent Hun Htimes Hlog] Hlt. unfold record_send.
  destruct (decide (n ∈ sent_once tr)) as [Hin|Hnotin].
  { apply Hsent in Hin. lia. }
  intros (len & _ & [= <-])%rbind_Ok. split; simpl.
  - lia.
  - intros x. rewrite elem_of_union, elem_of_singleton, (Hsent x). lia.
  - by apply union_mono_l.
  - intros x. rewrite elem_of_union, elem_of_singleton, (Htimes x).
    destruct (decide (x = n)) as [->|Hne].
    + rewrite lookup_insert_eq. split; [eauto|by left].
    + rewrite lookup_insert_ne by done. split; [by intros [?|?]|by right].
  - rewrite size_union, size_singleton.
    + lia.
    + apply disjoint_singleton_l. intros Hn. by apply Hnotin, Hun.
Qed.

Lemma retransmit_sent_ok packets stamp seq n total tr log out tr' out' :
  sent_ok n total tr log → seq ∈ unacked tr →
  retransmit packets stamp seq (tr, out) = Ok (tr', out') →
  sent_ok n total tr' log.
Proof.
  intros [Hnext Hsent Hun Htimes Hlog] Hseq. unfold retransmit.
  intros (data & _ & (pkt & _ & [= <- <-])%rbind_Ok)%rbind_Ok.
  split; simpl; try done.
  intros x. rewrite (Htimes x). destruct (decide (x = seq)) as [->|Hne].
  - rewrite lookup_insert_eq. split; [eauto|]. intros _. by apply Htimes.
  - by rewrite lookup_insert_ne.
Qed.

Lemma sweep_sent_ok packets stamp seqs n total tr log out tr' out' :
  sent_ok n total tr log → (∀ x, x ∈ seqs → x ∈ unacked tr) →
  rfold (retransmit packets stamp) seqs (tr, out) = Ok (tr', out') →
  sent_ok n total tr' log.
Proof.
  revert tr out. induction seqs as [|seq seqs IH]; intros tr out Hok Hin.
  - by intros [= <- <-].
  - rewrite rfold_cons. intros ([tr1 out1] & Hre & Hrest)%rbind_Ok.
    eapply IH; [| |exact Hrest].
    + eapply retransmit_sent_ok; [exact Hok| |exact Hre]. apply Hin. by left.
    + apply retransmit_same_flight in Hre as [(_ & -> & _) _].
      intros x Hx. apply Hin. by right.
Qed.

Lemma release_one_sent_ok pb now seq n total tr est log tr' est' log' :
  sent_ok n total tr log → seq ∈ unacked tr →
  release_one pb now seq (tr, est, log) = Ok (tr', est', log') →
  sent_ok n total tr' log'.
Proof.
  intros [Hnext Hsent Hun Htimes Hlog] Hseq Hone.
  pose proof (release_one_sets _ _ _ _ _ _ _ _ _ Hone) as (Hu & Hs & _).
  pose proof (release_one_samples _ _ _ _ _ _ _ _ _ Hone) as (Ht & Hl & _).
  destruct (proj1 (Htimes seq) Hseq) as [t0 Ht0].
  unfold sample_of in Hl. rewrite Ht0 in Hl. simpl in Hl.
  split.
  - done.
  - intros x. by rewrite Hs.
  - rewrite Hu, Hs. intros x [Hx _]%elem_of_difference. by apply Hun.
  - intros x. rewrite Hu, Ht, elem_of_difference, elem_of_singleton, (Htimes x).
    destruct (decide (x = seq)) as [->|Hne].
    + rewrite lookup_delete_eq. split; [tauto|]. by intros [? ?].
    + rewrite lookup_delete_ne by done. tauto.
  - rewrite Hl, length_app, Hu. simpl.
    rewrite size_difference by (by apply singleton_subseteq_l).
    rewrite size_singleton.
    assert (size ({[seq]} : gset Z) ≤ size (unacked tr))%nat as Hsize
      by (by apply subseteq_size, singleton_subseteq_l).
    rewrite size_singleton in Hsize. lia.
Qed.

Lemma release_loop_sent_ok pb now l n total tr est log tr' est' log' :
  NoDup l → (∀ x, x ∈ l → x ∈ unacked tr) →
  sent_ok n total tr log →
  rfold (release_one pb now) l (tr, est, log) = Ok (tr', est', log') →
  sent_ok n total tr' log'.
Proof.
  intros Hnd. revert tr est log.
  induction Hnd as [|seq l Hnotin Hnd IH]; intros tr est log Hin Hok.
  - by intros [= <- <- <-].
  - rewrite rfold_cons. intros ([[tr1 est1] log1] & Hone & Hrest)%rbind_Ok.
    assert (seq ∈ unacked tr) as Hseq by (apply Hin; by left).
    eapply IH; [| |exact Hrest].
    + apply release_one_sets in Hone as (Hu1 & _).
      intros x Hx. rewrite Hu1, elem_of_difference, elem_of_singleton.
      split; [apply Hin; by right|]. by intros ->.
    + eapply release_one_sent_ok; [exact Hok|exact Hseq|exact Hone].
Qed.

Lemma set_min_spec (X : gset Z) m :
  set_min X = Ok m → m ∈ X ∧ ∀ x, x ∈ X → m ≤ x.
Proof.
  unfold set_min. destruct (elements X) as [|y l] eqn:E; [done|].
  intros [= <-].
  assert (∀ x, x ∈ X ↔ x ∈ y :: l) as Hel.
  { intros x. by rewrite <- E, elem_of_elements. }
  split.
  - apply Hel. apply Progress.foldr_min_elem.
  - intros x Hx%Hel. clear E Hel. revert x Hx.
    induction l as [|z l IH]; intros x Hx; simpl.
    + apply elem_of_cons in Hx as [->|Hx%elem_of_nil]; [lia|done].
    + apply elem_of_cons in Hx as [->|Hx].
      * pose proof (IH y ltac:(by left)). lia.
      * apply elem_of_cons in Hx as [->|Hx]; [lia|].
        pose proof (IH x ltac:(by right)). lia.
Qed.

(** *** The fixed-window sender *)

Definition p1_sent_ok (st : P1.state) : Prop :=
  sent_ok (P1.next_seq st) (P1.total_packets st) (P1.trk st) (P1.samples st).

Lemma p1_start_sent_ok window_size file_data :
  p1_sent_ok (P1.start window_size file_data).
Proof. apply sent_ok_init. unfold P1.total_packets. lia. Qed.

Lemma p1_send_new_loop_sent_ok fuel stamp st st' :
  p1_sent_ok st → P1.send_new_loop fuel stamp st = Ok st' → p1_sent_ok st'.
Proof.
  revert st. induction fuel as [|fuel IH]; intros st Hok; simpl.
  - by intros [= <-].
  - destruct (Z.ltb_spec (P1.next_seq st) (P1.total_packets st)) as [Hlt|];
      [|by intros [= <-]].
    intros (len & _ & Hrest)%rbind_Ok.
    destruct (bytes_in_flight (P1.trk st) + len <=? P1.window_size st);
      [|by injection Hrest as <-].
    apply rbind_Ok in Hrest as (data & _ & Hrest).
    apply rbind_Ok in Hrest as (pkt & _ & Hrest).
    apply rbind_Ok in Hrest as (tr & Hsend & Hrest).
    apply IH in Hrest; [done|].
    by eapply record_send_sent_ok.
Qed.

Lemma p1_process_acked_sent_ok now cum_ack blocks n total pb tr est log tr' est' log' :
  sent_ok n total tr log →
  P1.process_acked now cum_ack blocks total pb (tr, est, log)
    = Ok (tr', est', log') →
  sent_ok n total tr' log'.
Proof.
  intros Hok. rewrite P1Facts.p1_process_acked_unfold.
  destruct (P1Facts.p1_newly_acked_spec total cum_ack blocks (unacked tr))
    as [(_ & _ & ->)|(S & -> & HN)]; [done|]. simpl.
  apply release_loop_sent_ok; [apply NoDup_sorted| |done].
  intros x Hx%elem_of_sorted%HN. tauto.
Qed.

Lemma p1_on_ack_sent_ok clk ack_packet st st' :
  p1_sent_ok st → P1.on_ack clk ack_packet st = Ok st' → p1_sent_ok st'.
Proof.
  intros Hok. unfold P1.on_ack.
  intros ([cum_ack blocks] & _ & Hrest)%rbind_Ok.
  destruct (py_eqb cum_ack (P1.last_cum_ack st)).
  all: apply rbind_Ok in Hrest as ([[tr1 out1] dup1] & Hfast & Hrest).
  all: apply rbind_Ok in Hrest as ([[tr2 est2] log2] & Hproc & [= <-]).
  all: unfold p1_sent_ok; simpl.
  all: eapply p1_process_acked_sent_ok; [|exact Hproc].
  all: destruct (_ && _) in Hfast; [|by injection Hfast as <- <- <-].
  all: apply rbind_Ok in Hfast as (oldest & [Hmin _]%set_min_spec & Hfast).
  all: apply rbind_Ok in Hfast as ([tr out] & Hre & [= <- <- <-]).
  all: by eapply retransmit_sent_ok.
Qed.

Lemma p1_on_timeout_sent_ok clk st st' :
  p1_sent_ok st → P1.on_timeout clk st = Ok st' → p1_sent_ok st'.
Proof.
  intros Hok. unfold P1.on_timeout.
  intros ([tr out] & Hsweep & [= <-])%rbind_Ok. unfold p1_sent_ok. simpl.
  eapply sweep_sent_ok; [exact Hok| |exact Hsweep].
  apply Progress.timed_out_unacked.
Qed.

Lemma p1_reachable_sent_ok st : P1Facts.reachable st → p1_sent_ok st.
Proof.
  induction 1; eauto using p1_start_sent_ok, p1_send_new_loop_sent_ok,
    p1_on_ack_sent_ok, p1_on_timeout_sent_ok.
Qed.

(** *** The CUBIC sender *)

Definition p2_sent_ok (st : P2.state) : Prop :=
  sent_ok (P2.next_seq st) (P2.total_packets st) (P2.trk st) (P2.samples st).

Lemma p2_start_sent_ok file_data : p2_sent_ok (P2.start file_data).
Proof. apply sent_ok_init. unfold P2.total_packets. lia. Qed.

Lemma p2_send_new_loop_sent_ok fuel stamp st st' :
  p2_sent_ok st → P2.send_new_loop fuel stamp st = Ok st' → p2_sent_ok st'.
Proof.
  revert st. induction fuel as [|fuel IH]; intros st Hok; simpl.
  - by intros [= <-].
  - destruct (Z.ltb_spec (P2.next_seq st) (P2.total_packets st)) as [Hlt|];
      [|by intros [= <-]].
    intros (len & _ & Hrest)%rbind_Ok.
    destruct (Qle_bool _ _); [|by injection Hrest as <-].
    destruct (_ && _); [by injection Hrest as <-|].
    apply rbind_Ok in Hrest as (data & _ & Hrest).
    apply rbind_Ok in Hrest as (pkt & _ & Hrest).
    apply rbind_Ok in Hrest as (tr & Hsend & Hrest).
    apply IH in Hrest; [done|].
    by eapply record_send_sent_ok.
Qed.

Lemma p2_process_acked_sent_ok now cum_ack blocks n total pb tr est log tr' est' log' :
  sent_ok n total tr log →
  P2.process_acked now cum_ack blocks pb (tr, est, log) = Ok (tr', est', log') →
  sent_ok n total tr' log'.
Proof.
  intros Hok. rewrite P2Facts.p2_process_acked_unfold.
  destruct (P2Facts.p2_newly_acked_spec cum_ack blocks (unacked tr))
    as [(_ & _ & ->)|(S & -> & HN)]; [done|]. simpl.
  apply release_loop_sent_ok; [apply NoDup_sorted| |done].
  intros x Hx%elem_of_sorted%HN. tauto.
Qed.

Section with_cube_root.
Context (cube_root : Q → Q).

Lemma p2_on_ack_sent_ok clk ack_packet st st' :
  p2_sent_ok st → P2.on_ack cube_root clk ack_packet st = Ok st' →
  p2_sent_ok st'.
Proof.
  intros Hok. unfold P2.on_ack.
  intros ([cum_ack blocks] & _ & Hrest)%rbind_Ok.
  apply rbind_Ok in Hrest as ([[[last dup] rec] rap] & _ & Hrest).
  apply rbind_Ok in Hrest
    as ([[[[[[tr1 out1] dup1] c1] rap1] lost1] cls1] & Hdup & Hrest).
  apply rbind_Ok in Hrest as ([[tr2 est2] log2] & Hproc & [= <-]).
  unfold p2_sent_ok. simpl.
  eapply p2_process_acked_sent_ok; [|exact Hproc].
  destruct (_ && _) in Hdup; [|by injection Hdup as <- _ _ _ _ _ _].
  destruct (negb rec) in Hdup.
  - apply rbind_Ok in Hdup as (oldest & [Hmin _]%set_min_spec & Hdup).
    apply rbind_Ok in Hdup as ([tr out] & Hre & [= <- _ _ _ _ _ _]).
    by eapply retransmit_sent_ok.
  - destruct (dup `mod` 100 =? 0) in Hdup;
      [|by injection Hdup as <- _ _ _ _ _ _].
    apply rbind_Ok in Hdup as ([tr out] & Hsw & [= <- _ _ _ _ _ _]).
    eapply sweep_sent_ok; [exact Hok| |exact Hsw].
    apply Progress.timed_out_unacked.
Qed.

Lemma p2_on_timeout_sent_ok clk st st' :
  p2_sent_ok st → P2.on_timeout clk st = Ok st' → p2_sent_ok st'.
Proof.
  intros Hok. unfold P2.on_timeout.
  destruct (timed_out _ _ _ _) as [|seq seqs] eqn:E; [by intros [= <-]|].
  intros ([tr out] & Hsweep & [= <-])%rbind_Ok. unfold p2_sent_ok. simpl.
  eapply sweep_sent_ok; [exact Hok| |exact Hsweep].
  intros x Hx. rewrite <- E in Hx. by apply Progress.timed_out_unacked in Hx.
Qed.

Lemma p2_reachable_sent_ok st : P2Facts.reachable cube_root st → p2_sent_ok st.
Proof.
  induction 1; eauto using p2_start_sent_ok, p2_send_new_loop_sent_ok,
    p2_on_ack_sent_ok, p2_on_timeout_sent_ok.
Qed.

End with_cube_root.

End SenderInvariants.

(** ** The data phase as a whole, and what it puts on the wire *)

Module Transfer.
Import Tracker Sender TrackerFacts SenderInvariants.

#[local] Arguments retransmit : simpl never.
#[local] Arguments py_eqb : simpl never.
#[local] Arguments Wire.parse_packet : simpl never.
#[local] Arguments Wire.create_packet : simpl never.
#[local] Arguments P1.send_new : simpl never.
#[local] Arguments P1.on_ack : simpl never.
#[local] Arguments P1.on_timeout : simpl never.
#[local] Arguments P2.send_new : simpl never.
#[local] Arguments P2.on_ack : simpl never.
#[local] Arguments P2.on_timeout : simpl never.

Lemma py_index_lookup {A} (l : list A) (i : Z) (a : A) :
  0 ≤ i → py_index l i = Ok a → l !! Z.to_nat i = Some a.
Proof.
  intros Hi. unfold py_index. destruct (Z.ltb_spec i 0); [lia|].
  destruct (_ && _); [|done]. by destruct (l !! Z.to_nat i); intros [= <-].
Qed.

Lemma arrivals_snoc events ev :
  AnyOrder.arrivals (events ++ [ev])
  = AnyOrder.arrivals events ∪ AnyOrder.arrival ev.
Proof.
  unfold AnyOrder.arrivals. rewrite fmap_app, union_list_app_L. simpl.
  by rewrite union_empty_r_L.
Qed.

(** Every datagram of the outbox is a data packet of the session, and every
    packet below [next_seq] is among them. *)
Definition wire_ok (packets : list (list byte)) (next_seq : Z)
    (outbox : list (list byte)) : Prop :=
  Forall (AnyOrder.data_event packets) (Datagram <$> outbox)
  ∧ ∀ x, 0 ≤ x < next_seq → x ∈ AnyOrder.arrivals (Datagram <$> outbox).

Lemma wire_ok_nil packets : wire_ok packets 0 [].
Proof. split; [constructor|]. intros x Hx. lia. Qed.

Lemma sent_packet packets seq data pkt :
  0 ≤ seq → py_index packets seq = Ok data →
  Wire.create_packet seq data = Ok pkt →
  AnyOrder.data_event packets (Datagram pkt)
  ∧ AnyOrder.arrival (Datagram pkt) = {[seq]}.
Proof.
  intros Hseq Hidx%py_index_lookup [_ Hparse]%Lossless.parse_create_packet;
    [|done].
  split.
  - right. exists (Z.to_nat seq), data. split; [done|].
    by rewrite Z2Nat.id.
  - simpl. by rewrite Hparse.
Qed.

Lemma wire_ok_resend packets n out pkt :
  wire_ok packets n out → AnyOrder.data_event packets (Datagram pkt) →
  wire_ok packets n (out ++ [pkt]).
Proof.
  intros [Hall Hcover] Hpkt. split.
  - rewrite fmap_app. apply Forall_app. split; [done|]. by constructor.
  - intros x Hx. rewrite fmap_app. simpl. rewrite arrivals_snoc.
    apply elem_of_union_l. by apply Hcover.
Qed.

Lemma wire_ok_send packets n out pkt :
  wire_ok packets n out → AnyOrder.data_event packets (Datagram pkt) →
  AnyOrder.arrival (Datagram pkt) = {[n]} →
  wire_ok packets (n + 1) (out ++ [pkt]).
Proof.
  intros [Hall Hcover] Hpkt Harr. split.
  - rewrite fmap_app. apply Forall_app. split; [done|]. by constructor.
  - intros x Hx. rewrite fmap_app. simpl. rewrite arrivals_snoc, Harr.
    destruct (decide (x = n)) as [->|Hne].
    + apply elem_of_union_r. by apply elem_of_singleton.
    + apply elem_of_union_l. apply Hcover. lia.
Qed.

Lemma retransmit_wire_ok packets stamp seq n tr out tr' out' :
  wire_ok packets n out → 0 ≤ seq →
  retransmit packets stamp seq (tr, out) = Ok (tr', out') →
  wire_ok packets n out'.
Proof.
  intros Hok Hseq. unfold retransmit.
  intros (data & Hidx & (pkt & Hpkt & [= <- <-])%rbind_Ok)%rbind_Ok.
  apply wire_ok_resend; [done|]. by eapply sent_packet.
Qed.

Lemma sweep_wire_ok packets stamp seqs n tr out tr' out' :
  wire_ok packets n out → (∀ x, x ∈ seqs → 0 ≤ x) →
  rfold (retransmit packets stamp) seqs (tr, out) = Ok (tr', out') →
  wire_ok packets n out'.
Proof.
  revert tr out. induction seqs as [|seq seqs IH]; intros tr out Hok Hin.
  - by intros [= <- <-].
  - rewrite rfold_cons. intros ([tr1 out1] & Hre & Hrest)%rbind_Ok.
    eapply IH; [| |exact Hrest].
    + eapply retransmit_wire_ok; [exact Hok| |exact Hre]. apply Hin. by left.
    + intros x Hx. apply Hin. by right.
Qed.

(** *** The fixed-window sender *)

(** What holds of the sender of the payloads [pk] all along send_file. *)
Record p1_run (pk : list (list byte)) (st : P1.state) : Prop := mk_p1_run {
  p1_run_inv : P1Facts.inv st;
  p1_run_sent : p1_sent_ok st;
  p1_run_packets : P1.packets st = pk;
  p1_run_wire : wire_ok pk (P1.next_seq st) (P1.outbox st)
}.

Lemma p1_run_start window_size file_data :
  p1_run (split_file file_data) (P1.start window_size file_data).
Proof.
  split; [apply P1Facts.p1_start_inv|apply p1_start_sent_ok|done|].
  apply wire_ok_nil.
Qed.

Lemma p1_run_send_new_loop pk fuel stamp st st' :
  p1_run pk st → P1.send_new_loop fuel stamp st = Ok st' → p1_run pk st'.
Proof.
  revert st. induction fuel as [|fuel IH]; intros st Hrun Hloop.
  { simpl in Hloop. by injection Hloop as <-. }
  pose proof (P1Facts.p1_send_new_loop_inv 1 stamp st) as Hinv1.
  pose proof (p1_send_new_loop_sent_ok 1 stamp st) as Hsent1.
  revert Hloop Hinv1 Hsent1. cbn [P1.send_new_loop].
  destruct Hrun as [Hinv Hsent Hpk Hwire].
  destruct (Z.ltb_spec (P1.next_seq st) (P1.total_packets st)) as [Hlt|];
    [|by intros [= <-]].
  destruct (py_index (P1.packet_bytes st) (P1.next_seq st)) as [len|];
    [|done]. simpl.
  destruct (bytes_in_flight (P1.trk st) + len <=? P1.window_size st);
    [|by intros [= <-]].
  destruct (py_index (P1.packets st) (P1.next_seq st)) as [data|] eqn:Hidx;
    [|done]. simpl.
  destruct (Wire.create_packet (P1.next_seq st) data) as [pkt|] eqn:Hpkt;
    [|done]. simpl.
  destruct (record_send _ _ _ _) as [tr|] eqn:Hsend; [|done]. simpl.
  intros Hloop Hinv1 Hsent1. apply IH in Hloop; [done|].
  split; [by apply Hinv1|by apply Hsent1|done|]. simpl.
  destruct Hinv as [_ Hnext].
  destruct (sent_packet _ _ _ _ Hnext Hidx Hpkt) as [Hev Harr].
  rewrite Hpk in Hev. by apply wire_ok_send.
Qed.

Lemma p1_run_on_ack pk clk ack_packet st st' :
  p1_run pk st → P1.on_ack clk ack_packet st = Ok st' → p1_run pk st'.
Proof.
  intros [Hinv Hsent Hpk Hwire] Hack.
  split; [by eapply P1Facts.p1_on_ack_inv|by eapply p1_on_ack_sent_ok| |].
  - revert Hack. unfold P1.on_ack.
    intros ([cum_ack blocks] & _ & Hrest)%rbind_Ok.
    destruct (py_eqb cum_ack (P1.last_cum_ack st)).
    all: apply rbind_Ok in Hrest as ([[tr1 out1] dup1] & _ & Hrest).
    all: by apply rbind_Ok in Hrest as ([[tr2 est2] log2] & _ & [= <-]).
  - revert Hack. unfold P1.on_ack.
    intros ([cum_ack blocks] & _ & Hrest)%rbind_Ok.
    destruct (py_eqb cum_ack (P1.last_cum_ack st)).
    all: apply rbind_Ok in Hrest as ([[tr1 out1] dup1] & Hfast & Hrest).
    all: apply rbind_Ok in Hrest as ([[tr2 est2] log2] & _ & [= <-]); simpl.
    all: destruct (_ && _) in Hfast; [|by injection Hfast as _ <- _].
    all: apply rbind_Ok in Hfast as (oldest & [Hmin _]%set_min_spec & Hfast).
    all: apply rbind_Ok in Hfast as ([tr out] & Hre & [= _ <- _]).
    all: rewrite Hpk in Hre.
    all: eapply retransmit_wire_ok; [exact Hwire| |exact Hre].
    all: destruct Hinv as [[_ _ Hrange _] _]; apply Hrange in Hmin; lia.
Qed.

Lemma p1_run_on_timeout pk clk st st' :
  p1_run pk st → P1.on_timeout clk st = Ok st' → p1_run pk st'.
Proof.
  intros [Hinv Hsent Hpk Hwire] Hto.
  split; [by eapply P1Facts.p1_on_timeout_inv|by eapply p1_on_timeout_sent_ok| |].
  - revert Hto. unfold P1.on_timeout.
    by intros ([tr out] & _ & [= <-])%rbind_Ok.
  - revert Hto. unfold P1.on_timeout.
    intros ([tr out] & Hsweep & [= <-])%rbind_Ok. simpl.
    rewrite Hpk in Hsweep. eapply sweep_wire_ok; [exact Hwire| |exact Hsweep].
    intros x Hx%Progress.timed_out_unacked.
    destruct Hinv as [[_ _ Hrange _] _]. apply Hrange in Hx. lia.
Qed.

Lemma p1_data_phase_cases clk i events st :
  P1.data_phase clk i events st
  = P1.send_new (stamp (clk i)) st ≫= λ st1,
      if P1.all_acked st1 then Ok (inr st1)
      else match events with
           | [] => Ok (inl st1)
           | Datagram ack_packet :: events' =>
               P1.on_ack (clk i) ack_packet st1
                 ≫= P1.data_phase clk (S i) events'
           | SockTimeout :: events' =>
               P1.on_timeout (clk i) st1 ≫= P1.data_phase clk (S i) events'
           end.
Proof. by destruct events as [|[?|] ?]. Qed.

Lemma p1_run_data_phase pk clk events : ∀ i st r,
  p1_run pk st → P1.data_phase clk i events st = Ok r →
  match r with
  | inl st' => p1_run pk st'
  | inr st' => p1_run pk st' ∧ P1.all_acked st' = true
  end.
Proof.
  induction events as [|ev events IH]; intros i st r Hrun;
    rewrite p1_data_phase_cases;
    intros (st1 & Hsend & Hrest)%rbind_Ok;
    apply (p1_run_send_new_loop pk) in Hsend; try done;
    destruct (P1.all_acked st1) eqn:Hall; try (by injection Hrest as <-).
  destruct ev as [ack_packet|].
  - apply rbind_Ok in Hrest as (st2 & Hack & Hrest).
    eapply IH; [|exact Hrest]. by eapply p1_run_on_ack.
  - apply rbind_Ok in Hrest as (st2 & Hto & Hrest).
    eapply IH; [|exact Hrest]. by eapply p1_run_on_timeout.
Qed.

(** *** The CUBIC sender *)

Record p2_run (pk : list (list byte)) (st : P2.state) : Prop := mk_p2_run {
  p2_run_inv : P2Facts.inv st;
  p2_run_sent : p2_sent_ok st;
  p2_run_packets : P2.packets st = pk;
  p2_run_wire : wire_ok pk (P2.next_seq st) (P2.outbox st)
}.

Lemma p2_run_start file_data : p2_run (split_file file_data) (P2.start file_data).
Proof.
  split; [apply P2Facts.p2_start_inv|apply p2_start_sent_ok|done|].
  apply wire_ok_nil.
Qed.

Lemma p2_run_send_new_loop pk fuel stamp st st' :
  p2_run pk st → P2.send_new_loop fuel stamp st = Ok st' → p2_run pk st'.
Proof.
  revert st. induction fuel as [|fuel IH]; intros st Hrun Hloop.
  { simpl in Hloop. by injection Hloop as <-. }
  pose proof (P2Facts.p2_send_new_loop_inv 1 stamp st) as Hinv1.
  pose proof (p2_send_new_loop_sent_ok 1 stamp st) as Hsent1.
  revert Hloop Hinv1 Hsent1. cbn [P2.send_new_loop].
  destruct Hrun as [Hinv Hsent Hpk Hwire].
  destruct (Z.ltb_spec (P2.next_seq st) (P2.total_packets st)) as [Hlt|];
    [|by intros [= <-]].
  destruct (py_index (P2.packet_bytes st) (P2.next_seq st)) as [len|];
    [|done]. simpl.
  destruct (Qle_bool _ _); [|by intros [= <-]].
  destruct (_ && _); [by intros [= <-]|].
  destruct (py_index (P2.packets st) (P2.next_seq st)) as [data|] eqn:Hidx;
    [|done]. simpl.
  destruct (Wire.create_packet (P2.next_seq st) data) as [pkt|] eqn:Hpkt;
    [|done]. simpl.
  destruct (record_send _ _ _ _) as [tr|] eqn:Hsend; [|done]. simpl.
  intros Hloop Hinv1 Hsent1. apply IH in Hloop; [done|].
  split; [by apply Hinv1|by apply Hsent1|done|]. simpl.
  destruct Hinv as [_ Hnext].
  destruct (sent_packet _ _ _ _ Hnext Hidx Hpkt) as [Hev Harr].
  rewrite Hpk in Hev. by apply wire_ok_send.
Qed.

Section with_cube_root.
Context (cube_root : Q → Q).

Lemma p2_run_on_ack pk clk ack_packet st st' :
  p2_run pk st → P2.on_ack cube_root clk ack_packet st = Ok st' →
  p2_run pk st'.
Proof.
  intros [Hinv Hsent Hpk Hwire] Hack.
  split; [by eapply P2Facts.p2_on_ack_inv|by eapply p2_on_ack_sent_ok| |].
  all: revert Hack; unfold P2.on_ack.
  all: intros ([cum_ack blocks] & _ & Hrest)%rbind_Ok.
  all: apply rbind_Ok in Hrest as ([[[last dup] rec] rap] & _ & Hrest).
  all: apply rbind_Ok in Hrest
         as ([[[[[[tr1 out1] dup1] c1] rap1] lost1] cls1] & Hdup & Hrest).
  all: apply rbind_Ok in Hrest as ([[tr2 est2] log2] & _ & [= <-]).
  - done.
  - simpl. destruct Hinv as [[_ _ Hrange _] _].
    destruct (_ && _) in Hdup; [|by injection Hdup as _ <- _ _ _ _ _].
    destruct (negb rec) in Hdup.
    + apply rbind_Ok in Hdup as (oldest & [Hmin _]%set_min_spec & Hdup).
      apply rbind_Ok in Hdup as ([tr out] & Hre & [= _ <- _ _ _ _ _]).
      rewrite Hpk in Hre.
      eapply retransmit_wire_ok; [exact Hwire| |exact Hre].
      apply Hrange in Hmin. lia.
    + destruct (dup `mod` 100 =? 0) in Hdup;
        [|by injection Hdup as _ <- _ _ _ _ _].
      apply rbind_Ok in Hdup as ([tr out] & Hsw & [= _ <- _ _ _ _ _]).
      rewrite Hpk in Hsw. eapply sweep_wire_ok; [exact Hwire| |exact Hsw].
      intros x Hx%Progress.timed_out_unacked. apply Hrange in Hx. lia.
Qed.

Lemma p2_run_on_timeout pk clk st st' :
  p2_run pk st → P2.on_timeout clk st = Ok st' → p2_run pk st'.
Proof.
  intros [Hinv Hsent Hpk Hwire] Hto.
  split; [by eapply P2Facts.p2_on_timeout_inv|by eapply p2_on_timeout_sent_ok| |].
  all: revert Hto; unfold P2.on_timeout.
  all: destruct (timed_out _ _ _ _) as [|seq seqs] eqn:E; [by intros [= <-]|].
  all: intros ([tr out] & Hsweep & [= <-])%rbind_Ok; simpl.
  - done.
  - rewrite Hpk in Hsweep. eapply sweep_wire_ok; [exact Hwire| |exact Hsweep].
    intros x Hx. rewrite <- E in Hx. apply Progress.timed_out_unacked in Hx.
    destruct Hinv as [[_ _ Hrange _] _]. apply Hrange in Hx. lia.
Qed.

Lemma p2_data_phase_cases clk i events st :
  P2.data_phase cube_root clk i events st
  = P2.send_new (stamp (clk i)) st ≫= λ st1,
      if P2.all_acked st1 then Ok (inr st1)
      else match events with
           | [] => Ok (inl st1)
           | Datagram ack_packet :: events' =>
               P2.on_ack cube_root (clk i) ack_packet st1
                 ≫= P2.data_phase cube_root clk (S i) events'
           | SockTimeout :: events' =>
               P2.on_timeout (clk i) st1
                 ≫= P2.data_phase cube_root clk (S i) events'
           end.
Proof. by destruct events as [|[?|] ?]. Qed.

Lemma p2_run_data_phase pk clk events : ∀ i st r,
  p2_run pk st → P2.data_phase cube_root clk i events st = Ok r →
  match r with
  | inl st' => p2_run pk st'
  | inr st' => p2_run pk st' ∧ P2.all_acked st' = true
  end.
Proof.
  induction events as [|ev events IH]; intros i st r Hrun;
    rewrite p2_data_phase_cases;
    intros (st1 & Hsend & Hrest)%rbind_Ok;
    apply (p2_run_send_new_loop pk) in Hsend; try done;
    destruct (P2.all_acked st1) eqn:Hall; try (by injection Hrest as <-).
  destruct ev as [ack_packet|].
  - apply rbind_Ok in Hrest as (st2 & Hack & Hrest).
    eapply IH; [|exact Hrest]. by eapply p2_run_on_ack.
  - apply rbind_Ok in Hrest as (st2 & Hto & Hrest).
    eapply IH; [|exact Hrest]. by eapply p2_run_on_timeout.
Qed.

End with_cube_root.

(** *** The end of the data phase *)

(** With nothing unacked, the tracker is empty. *)
Lemma drained next_seq total packets pb tr log :
  sent_ok next_seq total tr log → in_flight_ok packets pb tr →
  size (unacked tr) = 0%nat →
  unacked tr = ∅ ∧ send_times tr = ∅ ∧ bytes_in_flight tr = 0
  ∧ Z.of_nat (length log) = next_seq.
Proof.
  intros [_ _ _ Htimes Hlog] [_ _ _ Hflight] Hsize.
  assert (unacked tr = ∅) as Hun by (by apply leibniz_equiv, size_empty_inv).
  split; [done|]. split; [|split].
  - apply map_empty. intros x. apply eq_None_not_Some.
    rewrite <- (Htimes x), Hun. apply not_elem_of_empty.
  - by rewrite Hflight, Hun, payload_sum_empty.
  - lia.
Qed.

(** A packet of the session is in the outbox once next_seq has passed it. *)
Lemma wire_ok_member packets n outbox (i : nat) :
  wire_ok packets n outbox → Z.of_nat i < n →
  ∃ pkt chunk, pkt ∈ outbox ∧ packets !! i = Some chunk
    ∧ Wire.parse_packet pkt = Ok (Some (Z.of_nat i, chunk)).
Proof.
  intros [Hall Hcover] Hi. specialize (Hcover (Z.of_nat i) ltac:(lia)).
  unfold AnyOrder.arrivals in Hcover.
  apply elem_of_union_list in Hcover as (X & HX & Hin).
  apply list_elem_of_fmap in HX as (ev & -> & Hev).
  rewrite Forall_forall in Hall. specialize (Hall ev Hev).
  apply list_elem_of_fmap in Hev as (pkt & -> & Hpkt).
  simpl in Hin, Hall. destruct Hall as [Hnone|(j & chunk & Hj & Hparse)].
  - rewrite Hnone in Hin. by apply elem_of_empty in Hin.
  - rewrite Hparse in Hin. apply elem_of_singleton in Hin.
    apply Nat2Z.inj in Hin as ->. eauto.
Qed.

Lemma all_acked_drained next_seq total packets pb tr log :
  sent_ok next_seq total tr log → in_flight_ok packets pb tr →
  (total <=? next_seq) && (size (unacked tr) =? 0)%nat = true →
  next_seq = total ∧ unacked tr = ∅ ∧ send_times tr = ∅
  ∧ bytes_in_flight tr = 0 ∧ Z.of_nat (length log) = total.
Proof.
  intros Hsent Hok [Hle%Z.leb_le Hsize%Nat.eqb_eq]%andb_true_iff.
  destruct (drained _ _ _ _ _ _ Hsent Hok Hsize) as (Hun & Htimes & Hbif & Hlog).
  assert (next_seq = total) as -> by (destruct Hsent; lia).
  by repeat split.
Qed.

(** The data phase of send_file ends only with everything sent and
    acknowledged.  At the [break] of either sender: next_seq is the number of
    payloads of the file, unacked and send_times are empty, bytes_in_flight
    is 0, one RTT sample was taken per packet, and every payload of the file
    was put on the wire under its sequence number. *)
Theorem data_phase_ends_drained :
  (∀ window_size file_data clk events st,
     P1.data_phase clk 0 events (P1.start window_size file_data) = Ok (inr st) →
     P1.packets st = split_file file_data
     ∧ P1.next_seq st = P1.total_packets st
     ∧ unacked (P1.trk st) = ∅ ∧ send_times (P1.trk st) = ∅
     ∧ bytes_in_flight (P1.trk st) = 0
     ∧ Z.of_nat (length (P1.samples st)) = P1.total_packets st
     ∧ ∀ (i : nat) chunk, split_file file_data !! i = Some chunk →
         ∃ pkt, pkt ∈ P1.outbox st
                ∧ Wire.parse_packet pkt = Ok (Some (Z.of_nat i, chunk)))
  ∧ (∀ cube_root file_data clk events st,
       P2.data_phase cube_root clk 0 events (P2.start file_data) = Ok (inr st) →
       P2.packets st = split_file file_data
       ∧ P2.next_seq st = P2.total_packets st
       ∧ unacked (P2.trk st) = ∅ ∧ send_times (P2.trk st) = ∅
       ∧ bytes_in_flight (P2.trk st) = 0
       ∧ Z.of_nat (length (P2.samples st)) = P2.total_packets st
       ∧ ∀ (i : nat) chunk, split_file file_data !! i = Some chunk →
           ∃ pkt, pkt ∈ P2.outbox st
                  ∧ Wire.parse_packet pkt = Ok (Some (Z.of_nat i, chunk))).
Proof.
  split.
  - intros window_size file_data clk events st Hrun.
    apply (p1_run_data_phase (split_file file_data)) in Hrun
      as [[[Hok _] Hsent Hpk Hwire] Hall]; [|apply p1_run_start].
    destruct (all_acked_drained _ _ _ _ _ _ Hsent Hok Hall)
      as (Hnext & Hun & Htimes & Hbif & Hlog).
    repeat (split; [done|]). intros i chunk Hi.
    destruct (wire_ok_member _ _ _ i Hwire) as (pkt & chunk' & Hin & Hi' & Hparse).
    { rewrite Hnext. unfold P1.total_packets. rewrite Hpk.
      apply lookup_lt_Some in Hi. lia. }
    exists pkt. split; [done|]. congruence.
  - intros cube_root file_data clk events st Hrun.
    apply (p2_run_data_phase cube_root (split_file file_data)) in Hrun
      as [[[Hok _] Hsent Hpk Hwire] Hall]; [|apply p2_run_start].
    destruct (all_acked_drained _ _ _ _ _ _ Hsent Hok Hall)
      as (Hnext & Hun & Htimes & Hbif & Hlog).
    repeat (split; [done|]). intros i chunk Hi.
    destruct (wire_ok_member _ _ _ i Hwire) as (pkt & chunk' & Hin & Hi' & Hparse).
    { rewrite Hnext. unfold P2.total_packets. rewrite Hpk.
      apply lookup_lt_Some in Hi. lia. }
    exists pkt. split; [done|]. congruence.
Qed.

(** What a sender that has finished its data phase has put on the wire,
    followed by its EOF packet, is reassembled by the receiver. *)
Lemma outbox_reassembles pk next_seq outbox eof :
  wire_ok pk next_seq outbox → next_seq = Z.of_nat (length pk) →
  Forall (λ chunk, chunk ≠ Wire.EOF_MARKER) pk →
  Wire.create_packet (Z.of_nat (length pk)) Wire.EOF_MARKER = Ok eof →
  Z.of_nat (length pk) ≠ 2 ^ 32 - 1 →
  Client.receive_file ((Datagram <$> outbox) ++ [Datagram eof])
  = Ok (Some (concat pk)).
Proof.
  intros [Hall Hcover] -> Hne [Hrange Hparse]%Lossless.parse_create_packet Hlast.
  eapply AnyOrder.reassembly; [lia|done|done| |exact Hparse|done].
  intros i Hi. apply Hcover. lia.
Qed.

(** End to end, without loss: when the data phase of send_file completes,
    the datagrams the sender has sent, delivered to the receiver in the order
    sent (retransmissions included) and followed by the sender's EOF packet,
    make receive_file write the file that was read, provided no payload of
    the file is the three bytes "EOF". *)
Theorem completed_transfer_is_faithful :
  (∀ window_size file_data clk events st eof,
     P1.data_phase clk 0 events (P1.start window_size file_data) = Ok (inr st) →
     Forall (λ chunk, chunk ≠ Wire.EOF_MARKER) (split_file file_data) →
     Wire.create_packet (P1.total_packets st) Wire.EOF_MARKER = Ok eof →
     P1.total_packets st ≠ 2 ^ 32 - 1 →
     Client.receive_file ((Datagram <$> P1.outbox st) ++ [Datagram eof])
     = Ok (Some file_data))
  ∧ (∀ cube_root file_data clk events st eof,
       P2.data_phase cube_root clk 0 events (P2.start file_data) = Ok (inr st) →
       Forall (λ chunk, chunk ≠ Wire.EOF_MARKER) (split_file file_data) →
       Wire.create_packet (P2.total_packets st) Wire.EOF_MARKER = Ok eof →
       P2.total_packets st ≠ 2 ^ 32 - 1 →
       Client.receive_file ((Datagram <$> P2.outbox st) ++ [Datagram eof])
       = Ok (Some file_data)).
Proof.
  split.
  - intros window_size file_data clk events st eof Hrun Hne Heof Hlast.
    apply (p1_run_data_phase (split_file file_data)) in Hrun
      as [[[Hok _] Hsent Hpk Hwire] Hall]; [|apply p1_run_start].
    destruct (all_acked_drained _ _ _ _ _ _ Hsent Hok Hall) as (Hnext & _).
    unfold P1.total_packets in *. rewrite Hpk in *.
    rewrite <- (LoopsStop.split_file_concat file_data) at 1.
    by eapply outbox_reassembles.
  - intros cube_root file_data clk events st eof Hrun Hne Heof Hlast.
    apply (p2_run_data_phase cube_root (split_file file_data)) in Hrun
      as [[[Hok _] Hsent Hpk Hwire] Hall]; [|apply p2_run_start].
    destruct (all_acked_drained _ _ _ _ _ _ Hsent Hok Hall) as (Hnext & _).
    unfold P2.total_packets in *. rewrite Hpk in *.
    rewrite <- (LoopsStop.split_file_concat file_data) at 1.
    by eapply outbox_reassembles.
Qed.

(** A one-packet file: the packet is sent at time 100 and acknowledged. *)
Definition one_packet_run : result (P1.state + P1.state) :=
  P1.data_phase (λ _, mk_clock (λ _, 100%Q) 101 101 101 101 (λ x, x)) 0
                [Datagram (header_of 1)] (P1.start 5000 [x61]).

Definition one_packet_done : P1.state :=
  match one_packet_run with
  | Ok (inr st) => st
  | _ => P1.start 5000 [x61]
  end.

Lemma completed_transfer_is_faithful_witness :
  Client.receive_file ((Datagram <$> P1.outbox one_packet_done)
                       ++ [Datagram (header_of 1 ++ Wire.EOF_MARKER)])
  = Ok (Some [x61]).
Proof.
  apply (proj1 completed_transfer_is_faithful 5000 [x61]
           (λ _, mk_clock (λ _, 100%Q) 101 101 101 101 (λ x, x))
           [Datagram (header_of 1)]).
  - by vm_compute.
  - repeat constructor. discriminate.
  - by vm_compute.
  - by vm_compute.
Defined.

Lemma data_phase_ends_drained_witness :
  P1.packets one_packet_done = split_file [x61]
  ∧ P1.next_seq one_packet_done = P1.total_packets one_packet_done
  ∧ unacked (P1.trk one_packet_done) = ∅
  ∧ send_times (P1.trk one_packet_done) = ∅
  ∧ bytes_in_flight (P1.trk one_packet_done) = 0
  ∧ Z.of_nat (length (P1.samples one_packet_done))
    = P1.total_packets one_packet_done
  ∧ ∀ (i : nat) chunk, split_file [x61] !! i = Some chunk →
      ∃ pkt, pkt ∈ P1.outbox one_packet_done
             ∧ Wire.parse_packet pkt = Ok (Some (Z.of_nat i, chunk)).
Proof.
  apply (proj1 data_phase_ends_drained 5000 [x61]
           (λ _, mk_clock (λ _, 100%Q) 101 101 101 101 (λ x, x))
           [Datagram (header_of 1)]).
  by vm_compute.
Defined.

End Transfer.

(** ** The senders, step by step *)

Module SenderSteps.
Import Tracker Sender TrackerFacts SenderInvariants.

#[local] Arguments retransmit : simpl never.
#[local] Arguments py_eqb : simpl never.
#[local] Arguments P1.process_acked : simpl never.
#[local] Arguments P2.process_acked : simpl never.
#[local] Arguments timed_out : simpl never.

(** In every state of the send loop of either sender: the packets sent are
    0 .. next_seq - 1, without a gap; send_times holds a record for every
    unacked packet and for no other (the tests [if seq in self.unacked] and
    [if seq in self.send_times] of the release loop never fail); and the
    estimator was fed once for every packet sent and no longer unacked. *)
Theorem tracker_bookkeeping :
  (∀ st, P1Facts.reachable st →
     0 ≤ P1.next_seq st ≤ P1.total_packets st
     ∧ (∀ x, x ∈ sent_once (P1.trk st) ↔ 0 ≤ x < P1.next_seq st)
     ∧ unacked (P1.trk st) ⊆ sent_once (P1.trk st)
     ∧ (∀ x, x ∈ unacked (P1.trk st) ↔ is_Some (send_times (P1.trk st) !! x))
     ∧ Z.of_nat (length (P1.samples st)) + Z.of_nat (size (unacked (P1.trk st)))
       = P1.next_seq st)
  ∧ (∀ cube_root st, P2Facts.reachable cube_root st →
     0 ≤ P2.next_seq st ≤ P2.total_packets st
     ∧ (∀ x, x ∈ sent_once (P2.trk st) ↔ 0 ≤ x < P2.next_seq st)
     ∧ unacked (P2.trk st) ⊆ sent_once (P2.trk st)
     ∧ (∀ x, x ∈ unacked (P2.trk st) ↔ is_Some (send_times (P2.trk st) !! x))
     ∧ Z.of_nat (length (P2.samples st)) + Z.of_nat (size (unacked (P2.trk st)))
       = P2.next_seq st).
Proof.
  split.
  - by intros st [? ? ? ? ?]%p1_reachable_sent_ok.
  - by intros cube_root st [? ? ? ? ?]%p2_reachable_sent_ok.
Qed.

Lemma tracker_bookkeeping_witness :
  0 ≤ P1.next_seq ShortDatagram.sender_with_packet_in_flight
    ≤ P1.total_packets ShortDatagram.sender_with_packet_in_flight
  ∧ (∀ x, x ∈ sent_once (P1.trk ShortDatagram.sender_with_packet_in_flight)
          ↔ 0 ≤ x < P1.next_seq ShortDatagram.sender_with_packet_in_flight)
  ∧ unacked (P1.trk ShortDatagram.sender_with_packet_in_flight)
    ⊆ sent_once (P1.trk ShortDatagram.sender_with_packet_in_flight)
  ∧ (∀ x, x ∈ unacked (P1.trk ShortDatagram.sender_with_packet_in_flight)
          ↔ is_Some (send_times
                       (P1.trk ShortDatagram.sender_with_packet_in_flight) !! x))
  ∧ Z.of_nat (length (P1.samples ShortDatagram.sender_with_packet_in_flight))
    + Z.of_nat (size (unacked
                        (P1.trk ShortDatagram.sender_with_packet_in_flight)))
    = P1.next_seq ShortDatagram.sender_with_packet_in_flight.
Proof.
  apply (proj1 tracker_bookkeeping).
  eapply P1Facts.reach_send_new; [apply P1Facts.reach_start|].
  apply ShortDatagram.sender_with_packet_in_flight_reached.
Defined.

(** *** The window of the fixed-window sender *)

Lemma py_index_lengths_nonneg packets seq len :
  py_index (lengths packets) seq = Ok len → 0 ≤ len.
Proof.
  unfold py_index. destruct (_ && _); [|done].
  destruct (lengths packets !! _) as [n|] eqn:E; [|done]. intros [= <-].
  unfold lengths in E. rewrite list_lookup_fmap in E.
  destruct (packets !! _) as [chunk|]; [|done]. injection E as <-. lia.
Qed.

Lemma release_loop_flight_le packets now l tr est log tr' est' log' :
  rfold (release_one (lengths packets) now) l (tr, est, log)
    = Ok (tr', est', log') →
  bytes_in_flight tr' ≤ bytes_in_flight tr.
Proof.
  revert tr est log. induction l as [|seq l IH]; intros tr est log.
  - by intros [= <- <- <-].
  - rewrite rfold_cons. intros ([[tr1 est1] log1] & Hone & Hrest)%rbind_Ok.
    apply IH in Hrest.
    apply release_one_sets in Hone as (_ & _ & len & Hlen & Hb).
    apply py_index_lengths_nonneg in Hlen. lia.
Qed.

Lemma payload_sum_nonneg packets (X : gset Z) : 0 ≤ payload_sum packets X.
Proof.
  unfold payload_sum.
  apply (set_fold_ind_L (λ r _, 0 ≤ r)); [done|].
  intros x X' r _ Hr. unfold payload_len.
  destruct (py_index packets x); lia.
Qed.

Definition within_window (st : P1.state) : Prop :=
  bytes_in_flight (P1.trk st) ≤ Z.max 0 (P1.window_size st).

Lemma p1_send_new_loop_window fuel stamp st st' :
  within_window st → P1.send_new_loop fuel stamp st = Ok st' →
  within_window st' ∧ P1.window_size st' = P1.window_size st.
Proof.
  revert st. induction fuel as [|fuel IH]; intros st Hw; simpl.
  - by intros [= <-].
  - destruct (P1.next_seq st <? P1.total_packets st); [|by intros [= <-]].
    destruct (py_index (P1.packet_bytes st) (P1.next_seq st)) as [len|] eqn:Hlen;
      [|done]. simpl.
    destruct (Z.leb_spec (bytes_in_flight (P1.trk st) + len) (P1.window_size st));
      [|by intros [= <-]].
    intros (data & _ & (pkt & _ & (tr & Hsend & Hrest)%rbind_Ok)%rbind_Ok)%rbind_Ok.
    apply IH in Hrest; [done|]. unfold within_window in *. simpl.
    revert Hsend. unfold record_send. destruct (decide _).
    + intros [= <-]. simpl. lia.
    + rewrite Hlen. simpl. intros [= <-]. simpl. lia.
Qed.

Lemma p1_on_ack_window clk ack_packet st st' :
  P1Facts.inv st → within_window st → P1.on_ack clk ack_packet st = Ok st' →
  within_window st' ∧ P1.window_size st' = P1.window_size st.
Proof.
  intros [[Hlen _ _ _] _] Hw. unfold P1.on_ack.
  intros ([cum_ack blocks] & _ & Hrest)%rbind_Ok.
  assert (∀ tr1 s2, bytes_in_flight tr1 = bytes_in_flight (P1.trk st) →
    P1.process_acked (t_release clk) cum_ack blocks (P1.total_packets st)
      (P1.packet_bytes st) (tr1, P1.est st, P1.samples st) = Ok s2 →
    bytes_in_flight s2.1.1 ≤ Z.max 0 (P1.window_size st)) as Hproc.
  { intros tr1 [[tr2 est2] log2] Hb. rewrite P1Facts.p1_process_acked_unfold.
    intros (by_cum & _ & Hrel)%rbind_Ok. unfold release in Hrel.
    rewrite Hlen in Hrel. apply release_loop_flight_le in Hrel.
    unfold within_window in Hw. simpl. lia. }
  destruct (py_eqb cum_ack (P1.last_cum_ack st)).
  all: apply rbind_Ok in Hrest as ([[tr1 out1] dup1] & Hfast & Hrest).
  all: apply rbind_Ok in Hrest as ([[tr2 est2] log2] & Hp & [= <-]).
  all: unfold within_window; simpl; split; [|done].
  all: apply (Hproc tr1 (tr2, est2, log2)); [|done].
  all: destruct (_ && _) in Hfast; [|by injection Hfast as <- _ _].
  all: apply rbind_Ok in Hfast as (oldest & _ & Hfast).
  all: apply rbind_Ok in Hfast as ([tr out] & Hre & [= <- _ _]).
  all: by apply retransmit_same_flight in Hre as [(_ & _ & ?) _].
Qed.

Lemma p1_on_timeout_window clk st st' :
  within_window st → P1.on_timeout clk st = Ok st' →
  within_window st' ∧ P1.window_size st' = P1.window_size st.
Proof.
  intros Hw. unfold P1.on_timeout.
  intros ([tr out] & (_ & _ & Hb)%sweep_same_flight & [= <-])%rbind_Ok.
  unfold within_window in *. simpl. split; [lia|done].
Qed.

Lemma p1_reachable_window st : P1Facts.reachable st → within_window st.
Proof.
  induction 1 as [w f|stamp st st' Hr IH Hs|clk a st st' Hr IH Hs
                  |clk st st' Hr IH Hs].
  - unfold within_window. simpl. lia.
  - by apply p1_send_new_loop_window in Hs as [? _].
  - apply p1_on_ack_window in Hs as [? _]; [done| |done].
    by apply P1Facts.p1_reachable_inv.
  - by apply p1_on_timeout_window in Hs as [? _].
Qed.

(** The fixed-window sender never has more payload bytes in flight than its
    window allows: in every state of its send loop,
    0 <= bytes_in_flight <= max(0, window_size). *)
Theorem window_never_exceeded (st : P1.state) :
  P1Facts.reachable st →
  0 ≤ bytes_in_flight (P1.trk st) ≤ Z.max 0 (P1.window_size st).
Proof.
  intros Hr. split; [|by apply p1_reachable_window].
  apply P1Facts.p1_reachable_inv in Hr as [[_ _ _ ->] _].
  apply payload_sum_nonneg.
Qed.

Lemma window_never_exceeded_witness :
  0 ≤ bytes_in_flight (P1.trk ShortDatagram.sender_with_packet_in_flight)
    ≤ Z.max 0 (P1.window_size ShortDatagram.sender_with_packet_in_flight).
Proof.
  apply window_never_exceeded.
  eapply P1Facts.reach_send_new; [apply P1Facts.reach_start|].
  apply ShortDatagram.sender_with_packet_in_flight_reached.
Defined.

(** *** What an ACK releases *)

Lemma p1_process_acked_unacked now cum_ack blocks total pb tr est log tr' est' log' :
  P1.process_acked now cum_ack blocks total pb (tr, est, log)
    = Ok (tr', est', log') →
  (∀ x, x ∈ unacked tr'
        ↔ x ∈ unacked tr ∧ ¬ P1Facts.covers total cum_ack blocks x)
  ∧ sent_once tr' = sent_once tr.
Proof.
  rewrite P1Facts.p1_process_acked_unfold.
  destruct (P1Facts.p1_newly_acked_spec total cum_ack blocks (unacked tr))
    as [(_ & _ & ->)|(S & -> & HN)]; [done|]. simpl.
  intros [Hun Hs]%release_loop_sets. split; [|done]. intros x.
  rewrite Hun, elem_of_difference, elem_of_list_to_set, elem_of_sorted, (HN x).
  tauto.
Qed.

Lemma p2_process_acked_unacked now cum_ack blocks pb tr est log tr' est' log' :
  P2.process_acked now cum_ack blocks pb (tr, est, log) = Ok (tr', est', log') →
  (∀ x, x ∈ unacked tr' ↔ x ∈ unacked tr ∧ ¬ P2Facts.covers cum_ack blocks x)
  ∧ sent_once tr' = sent_once tr.
Proof.
  rewrite P2Facts.p2_process_acked_unfold.
  destruct (P2Facts.p2_newly_acked_spec cum_ack blocks (unacked tr))
    as [(_ & _ & ->)|(S & -> & HN)]; [done|]. simpl.
  intros [Hun Hs]%release_loop_sets. split; [|done]. intros x.
  rewrite Hun, elem_of_difference, elem_of_list_to_set, elem_of_sorted, (HN x).
  tauto.
Qed.

(** The tracker handed to the release code of on_ack differs from the one
    of the state by send-time records only. *)
Lemma p1_on_ack_process clk ack_packet st st' cum_ack blocks :
  P1.on_ack clk ack_packet st = Ok st' →
  Wire.parse_ack ack_packet = Ok (cum_ack, blocks) →
  ∃ tr1 est2 log2,
    same_flight (P1.trk st) tr1
    ∧ P1.process_acked (t_release clk) cum_ack blocks (P1.total_packets st)
        (P1.packet_bytes st) (tr1, P1.est st, P1.samples st)
      = Ok (P1.trk st', est2, log2)
    ∧ P1.est st' = est2 ∧ P1.samples st' = log2
    ∧ P1.next_seq st' = P1.next_seq st ∧ P1.packets st' = P1.packets st.
Proof.
  unfold P1.on_ack. intros Hack Hparse. rewrite Hparse in Hack. simpl in Hack.
  destruct (py_eqb cum_ack (P1.last_cum_ack st)).
  all: apply rbind_Ok in Hack as ([[tr1 out1] dup1] & Hfast & Hrest).
  all: apply rbind_Ok in Hrest as ([[tr2 est2] log2] & Hp & [= <-]).
  all: exists tr1, est2, log2; simpl; split; [|done].
  all: destruct (_ && _) in Hfast; [|by injection Hfast as <- _ _].
  all: apply rbind_Ok in Hfast as (oldest & _ & Hfast).
  all: apply rbind_Ok in Hfast as ([tr out] & Hre & [= <- _ _]).
  all: by apply retransmit_same_flight in Hre as [? _].
Qed.

Lemma p2_on_ack_process cube_root clk ack_packet st st' cum_ack blocks :
  P2.on_ack cube_root clk ack_packet st = Ok st' →
  Wire.parse_ack ack_packet = Ok (cum_ack, blocks) →
  ∃ tr1 est2 log2,
    same_flight (P2.trk st) tr1
    ∧ P2.process_acked (t_release clk) cum_ack blocks (P2.packet_bytes st)
        (tr1, P2.est st, P2.samples st)
      = Ok (P2.trk st', est2, log2)
    ∧ P2.est st' = est2 ∧ P2.samples st' = log2
    ∧ P2.next_seq st' = P2.next_seq st ∧ P2.packets st' = P2.packets st.
Proof.
  unfold P2.on_ack. intros Hack Hparse. rewrite Hparse in Hack. simpl in Hack.
  apply rbind_Ok in Hack as ([[[last dup] rec] rap] & _ & Hrest).
  apply rbind_Ok in Hrest
    as ([[[[[[tr1 out1] dup1] c1] rap1] lost1] cls1] & Hdup & Hrest).
  apply rbind_Ok in Hrest as ([[tr2 est2] log2] & Hp & [= <-]).
  exists tr1, est2, log2; simpl; split; [|done].
  destruct (_ && _) in Hdup; [|by injection Hdup as <- _ _ _ _ _ _].
  destruct (negb rec) in Hdup.
  - apply rbind_Ok in Hdup as (oldest & _ & Hdup).
    apply rbind_Ok in Hdup as ([tr out] & Hre & [= <- _ _ _ _ _ _]).
    by apply retransmit_same_flight in Hre as [? _].
  - destruct (dup `mod` 100 =? 0) in Hdup;
      [|by injection Hdup as <- _ _ _ _ _ _].
    apply rbind_Ok in Hdup as ([tr out] & Hsw & [= <- _ _ _ _ _ _]).
    by apply sweep_same_flight in Hsw.
Qed.

(** An ACK that is processed releases exactly what it covers: afterwards the
    unacked packets are those that were unacked and lie neither below the
    cumulative value nor in a SACK range (clipped to the session by the
    fixed-window sender); nothing below the cumulative value stays unacked;
    sent_once and next_seq are as before. *)
Theorem ack_releases_what_it_covers :
  (∀ clk ack_packet st st' cum_ack blocks,
     P1.on_ack clk ack_packet st = Ok st' →
     Wire.parse_ack ack_packet = Ok (cum_ack, blocks) →
     (∀ x, x ∈ unacked (P1.trk st')
           ↔ x ∈ unacked (P1.trk st)
             ∧ ¬ P1Facts.covers (P1.total_packets st) cum_ack blocks x)
     ∧ (∀ c x, cum_ack = Some c → x ∈ unacked (P1.trk st') → c ≤ x)
     ∧ sent_once (P1.trk st') = sent_once (P1.trk st)
     ∧ P1.next_seq st' = P1.next_seq st)
  ∧ (∀ cube_root clk ack_packet st st' cum_ack blocks,
       P2.on_ack cube_root clk ack_packet st = Ok st' →
       Wire.parse_ack ack_packet = Ok (cum_ack, blocks) →
       (∀ x, x ∈ unacked (P2.trk st')
             ↔ x ∈ unacked (P2.trk st) ∧ ¬ P2Facts.covers cum_ack blocks x)
       ∧ (∀ c x, cum_ack = Some c → x ∈ unacked (P2.trk st') → c ≤ x)
       ∧ sent_once (P2.trk st') = sent_once (P2.trk st)
       ∧ P2.next_seq st' = P2.next_seq st).
Proof.
  split.
  - intros clk ack_packet st st' cum_ack blocks Hack Hparse.
    destruct (p1_on_ack_process _ _ _ _ _ _ Hack Hparse)
      as (tr1 & est2 & log2 & (Hs1 & Hu1 & _) & Hp & _ & _ & Hnext & _).
    apply p1_process_acked_unacked in Hp as [Hun Hs].
    rewrite Hu1 in Hun. split; [done|]. split; [|by rewrite Hs, Hs1].
    intros c x -> [_ Hnot]%Hun. destruct (Z.le_gt_cases c x); [done|].
    destruct Hnot. left. exists c. split; [done|lia].
  - intros cube_root clk ack_packet st st' cum_ack blocks Hack Hparse.
    destruct (p2_on_ack_process _ _ _ _ _ _ _ Hack Hparse)
      as (tr1 & est2 & log2 & (Hs1 & Hu1 & _) & Hp & _ & _ & Hnext & _).
    apply p2_process_acked_unacked in Hp as [Hun Hs].
    rewrite Hu1 in Hun. split; [done|]. split; [|by rewrite Hs, Hs1].
    intros c x -> [_ Hnot]%Hun. destruct (Z.le_gt_cases c x); [done|].
    destruct Hnot. left. exists c. split; [done|lia].
Qed.

(** *** The clipping of SACK ranges *)

Lemma collect_sack_clip_void total (un : gset Z) blocks (acc : gset Z) :
  (∀ x, x ∈ un → 0 ≤ x < total) →
  P1.collect_sack total un blocks acc = P2.collect_sack un blocks acc.
Proof.
  intros Hrange. apply set_eq. intros x.
  rewrite P1Facts.p1_elem_of_collect_sack, P2Facts.p2_elem_of_collect_sack.
  rewrite !Exists_exists.
  split; (intros [?|[Hx (b & Hb & Hin)]]; [by left|right]);
    (split; [done|]); exists b; (split; [done|]);
    apply Hrange in Hx; lia.
Qed.

(** In every state of the fixed-window sender the clipping of the SACK
    ranges to 0 .. total_packets - 1 changes nothing: its ACK processing
    gives what the ACK processing of the CUBIC sender, which uses the ranges
    as received, gives on the same tracker. *)
Theorem sack_clipping_changes_nothing (st : P1.state) :
  P1Facts.reachable st →
  ∀ tr1 now cum_ack blocks est log,
    unacked tr1 = unacked (P1.trk st) →
    P1.process_acked now cum_ack blocks (P1.total_packets st)
                     (P1.packet_bytes st) (tr1, est, log)
    = P2.process_acked now cum_ack blocks (P1.packet_bytes st) (tr1, est, log).
Proof.
  intros [[_ _ Hrange _] _]%P1Facts.p1_reachable_inv tr1 now cum_ack blocks
    est log Hun.
  rewrite P1Facts.p1_process_acked_unfold, P2Facts.p2_process_acked_unfold.
  destruct (collect_cum cum_ack (unacked tr1)) as [by_cum|]; [|done]. simpl.
  rewrite collect_sack_clip_void; [done|]. rewrite Hun. apply Hrange.
Qed.

Lemma sack_clipping_changes_nothing_witness :
  P1.process_acked 101 (Some 1) [(0, 7)]
    (P1.total_packets ShortDatagram.sender_with_packet_in_flight)
    (P1.packet_bytes ShortDatagram.sender_with_packet_in_flight)
    (P1.trk ShortDatagram.sender_with_packet_in_flight, Estimator.init, [])
  = P2.process_acked 101 (Some 1) [(0, 7)]
      (P1.packet_bytes ShortDatagram.sender_with_packet_in_flight)
      (P1.trk ShortDatagram.sender_with_packet_in_flight, Estimator.init, []).
Proof.
  apply (sack_clipping_changes_nothing
           ShortDatagram.sender_with_packet_in_flight).
  - eapply P1Facts.reach_send_new; [apply P1Facts.reach_start|].
    apply ShortDatagram.sender_with_packet_in_flight_reached.
  - reflexivity.
Defined.

(** *** The retransmission timeout *)

Definition rto_clamped (est : Estimator.t) : Prop :=
  (5 # 100 <= Estimator.rto est <= 5)%Q.

Lemma feed_rto_clamped est fed : rto_clamped est → rto_clamped (feed est fed).
Proof.
  revert est. induction fed as [|p fed IH]; intros est Hest; [done|].
  apply IH. apply (EstimatorFacts.rto_after_update p.2 est).
Qed.

Lemma release_rto_clamped pb now newly_acked tr est log tr' est' log' :
  rto_clamped est →
  release pb now newly_acked (tr, est, log) = Ok (tr', est', log') →
  rto_clamped est'.
Proof.
  intros Hest Hrel.
  apply release_loop_samples in Hrel as [_ ->]; [|apply NoDup_sorted].
  by apply feed_rto_clamped.
Qed.

Lemma p1_send_new_loop_est fuel stamp st st' :
  P1.send_new_loop fuel stamp st = Ok st' → P1.est st' = P1.est st.
Proof.
  revert st. induction fuel as [|fuel IH]; intros st; simpl.
  - by intros [= <-].
  - destruct (P1.next_seq st <? P1.total_packets st); [|by intros [= <-]].
    intros (len & _ & Hrest)%rbind_Ok.
    destruct (_ <=? _); [|by injection Hrest as <-].
    apply rbind_Ok in Hrest as (data & _ & Hrest).
    apply rbind_Ok in Hrest as (pkt & _ & Hrest).
    apply rbind_Ok in Hrest as (tr & _ & Hrest).
    by apply IH in Hrest.
Qed.

Lemma p2_send_new_loop_est fuel stamp st st' :
  P2.send_new_loop fuel stamp st = Ok st' → P2.est st' = P2.est st.
Proof.
  revert st. induction fuel as [|fuel IH]; intros st; simpl.
  - by intros [= <-].
  - destruct (P2.next_seq st <? P2.total_packets st); [|by intros [= <-]].
    intros (len & _ & Hrest)%rbind_Ok.
    destruct (Qle_bool _ _); [|by injection Hrest as <-].
    destruct (_ && _); [by injection Hrest as <-|].
    apply rbind_Ok in Hrest as (data & _ & Hrest).
    apply rbind_Ok in Hrest as (pkt & _ & Hrest).
    apply rbind_Ok in Hrest as (tr & _ & Hrest).
    by apply IH in Hrest.
Qed.

Lemma p1_reachable_rto st : P1Facts.reachable st → rto_clamped (P1.est st).
Proof.
  induction 1 as [w f|stamp st st' Hr IH Hs|clk a st st' Hr IH Hs
                  |clk st st' Hr IH Hs].
  - split; by vm_compute.
  - apply p1_send_new_loop_est in Hs. by rewrite Hs.
  - destruct (Wire.parse_ack a) as [[cum_ack blocks]|] eqn:Hparse;
      [|by unfold P1.on_ack in Hs; rewrite Hparse in Hs].
    destruct (p1_on_ack_process _ _ _ _ _ _ Hs Hparse)
      as (tr1 & est2 & log2 & _ & Hp & -> & _).
    rewrite P1Facts.p1_process_acked_unfold in Hp.
    apply rbind_Ok in Hp as (by_cum & _ & Hrel).
    by eapply release_rto_clamped.
  - revert Hs. unfold P1.on_timeout.
    by intros ([tr out] & _ & [= <-])%rbind_Ok.
Qed.

Lemma p2_reachable_rto cube_root st :
  P2Facts.reachable cube_root st → rto_clamped (P2.est st).
Proof.
  induction 1 as [f|stamp st st' Hr IH Hs|clk a st st' Hr IH Hs
                  |clk st st' Hr IH Hs].
  - split; by vm_compute.
  - apply p2_send_new_loop_est in Hs. by rewrite Hs.
  - destruct (Wire.parse_ack a) as [[cum_ack blocks]|] eqn:Hparse;
      [|by unfold P2.on_ack in Hs; rewrite Hparse in Hs].
    destruct (p2_on_ack_process _ _ _ _ _ _ _ Hs Hparse)
      as (tr1 & est2 & log2 & _ & Hp & -> & _).
    rewrite P2Facts.p2_process_acked_unfold in Hp.
    apply rbind_Ok in Hp as (by_cum & _ & Hrel).
    by eapply release_rto_clamped.
  - revert Hs. unfold P2.on_timeout. destruct (timed_out _ _ _ _).
    + by intros [= <-].
    + by intros ([tr out] & _ & [= <-])%rbind_Ok.
Qed.

(** The retransmission timeout of either sender is between 0.05 s and 5 s
    in every state of its send loop, whatever samples were taken (the clock
    readings are arbitrary: a sample may even be negative). *)
Theorem rto_stays_clamped :
  (∀ st, P1Facts.reachable st →
     (5 # 100 <= Estimator.rto (P1.est st) <= 5)%Q)
  ∧ (∀ cube_root st, P2Facts.reachable cube_root st →
       (5 # 100 <= Estimator.rto (P2.est st) <= 5)%Q).
Proof.
  split.
  - apply p1_reachable_rto.
  - apply p2_reachable_rto.
Qed.

Lemma rto_stays_clamped_witness :
  (5 # 100
   <= Estimator.rto (P1.est ShortDatagram.sender_with_packet_in_flight) <= 5)%Q.
Proof.
  apply (proj1 rto_stays_clamped).
  eapply P1Facts.reach_send_new; [apply P1Facts.reach_start|].
  apply ShortDatagram.sender_with_packet_in_flight_reached.
Defined.

End SenderSteps.

(** ** Retransmissions: the fast retransmit and the timer sweep *)

Module Retransmission.
Import Tracker Sender TrackerFacts SenderInvariants.

#[local] Arguments retransmit : simpl never.
#[local] Arguments py_eqb : simpl never.
#[local] Arguments P1.process_acked : simpl never.
#[local] Arguments P2.process_acked : simpl never.
#[local] Arguments timed_out : simpl never.

(** [pkt] is the data packet of [seq]. *)
Definition packet_of (packets : list (list byte)) (seq : Z) (pkt : list byte)
  : Prop :=
  ∃ data, py_index packets seq = Ok data ∧ Wire.create_packet seq data = Ok pkt.




(** *** The order of the timer scan *)

#[local] Instance before_trans place : Transitive (before place).
Proof. intros a b c. unfold before. lia. Qed.

#[local] Instance before_total place : Total (before place).
Proof. intros a b. unfold before. lia. Qed.


Lemma StronglySorted_on_members {A} (R R' : relation A) l :
  (∀ a b, a ∈ l → b ∈ l → R a b → R' a b) →
  StronglySorted R l → StronglySorted R' l.
Proof.
  intros Himp Hl. induction Hl as [|a l Hl IH Ha]; [constructor|].
  constructor.
  - apply IH. intros x y Hx Hy. apply Himp; by right.
  - apply Forall_forall. intros x Hx. apply Himp; [by left|by right|].
    by apply (proj1 (Forall_forall _ _) Ha).
Qed.


(** The place of [x] in the list [l]. *)
Fixpoint position (l : list Z) (x : Z) : Z :=
  match l with
  | [] => 0
  | y :: l' => if decide (y = x) then 0 else 1 + position l' x
  end.

Lemma position_nonneg l x : 0 ≤ position l x.
Proof. induction l as [|y l IH]; simpl; [done|]. destruct (decide _); lia. Qed.

Lemma position_inj l a b :
  a ∈ l → b ∈ l → position l a = position l b → a = b.
Proof.
  induction l as [|y l IH]; [by intros ?%elem_of_nil|]. simpl.
  pose proof (position_nonneg l a). pose proof (position_nonneg l b).
  intros Ha Hb. destruct (decide (y = a)) as [<-|Hya];
    destruct (decide (y = b)) as [<-|Hyb]; try done; try lia.
  intros Heq. apply elem_of_cons in Ha as [?|Ha]; [done|].
  apply elem_of_cons in Hb as [?|Hb]; [done|]. apply IH; [done|done|lia].
Qed.

Lemma position_sorted l : NoDup l → StronglySorted (before (position l)) l.
Proof.
  induction 1 as [|y l Hy Hl IH]; [constructor|]. constructor.
  - apply (StronglySorted_on_members (before (position l))); [|done].
    intros a b Ha Hb. unfold before. simpl.
    destruct (decide (y = a)) as [<-|_]; [done|].
    destruct (decide (y = b)) as [<-|_]; [done|]. lia.
  - apply Forall_forall. intros x Hx. unfold before. simpl.
    destruct (decide (y = y)) as [_|]; [|done].
    destruct (decide (y = x)); [done|]. pose proof (position_nonneg l x). lia.
Qed.

Lemma sorted_unique place l : ∀ l',
  (∀ a b, a ∈ l → b ∈ l → place a = place b → a = b) →
  StronglySorted (before place) l → StronglySorted (before place) l' →
  l ≡ₚ l' → l = l'.
Proof.
  induction l as [|x l IH]; intros l' Hinj Hl Hl' Hperm.
  { symmetry. by apply Permutation_nil_r. }
  destruct l' as [|y l']; [by apply Permutation_nil_r in Hperm|].
  apply StronglySorted_inv in Hl as [Hl Hx].
  apply StronglySorted_inv in Hl' as [Hl' Hy].
  assert (x = y) as <-.
  { assert (y ∈ x :: l) as Hyin by (rewrite Hperm; by left).
    assert (x ∈ y :: l') as Hxin by (rewrite <- Hperm; by left).
    apply Hinj; [by left|done|].
    assert (before place x y) as Hxy.
    { apply elem_of_cons in Hyin as [->|Hyin]; [unfold before; lia|].
      by apply (proj1 (Forall_forall _ _) Hx). }
    assert (before place y x) as Hyx.
    { apply elem_of_cons in Hxin as [->|Hxin]; [unfold before; lia|].
      by apply (proj1 (Forall_forall _ _) Hy). }
    unfold before in *. lia. }
  f_equal. apply IH; [|done|done|by apply Permutation_cons_inv in Hperm].
  intros a b Ha Hb. apply Hinj; by right.
Qed.

(** The model covers every order of iteration: any listing of a set, each
    member once, is the scan of the set for some [place]. *)
Lemma scan_any_order (X : gset Z) (l : list Z) :
  NoDup l → (∀ x, x ∈ l ↔ x ∈ X) → scan (position l) X = l.
Proof.
  intros Hnd Hmem. symmetry. unfold scan.
  apply (sorted_unique (position l)).
  - apply position_inj.
  - by apply position_sorted.
  - apply StronglySorted_merge_sort; apply _.
  - rewrite merge_sort_Permutation. apply NoDup_Permutation; [done| |].
    + apply NoDup_elements.
    + intros x. by rewrite (Hmem x), elem_of_elements.
Qed.






(** *** The fast retransmit of the fixed-window sender *)

(** An ACK is a duplicate when its cumulative value equals the last one
    seen; the third duplicate in a row, with something unacked, re-sends the
    lowest unacked packet, once, and restarts the count; no other ACK makes
    the sender send anything. *)
Theorem fast_retransmit_on_third_duplicate
    (clk : clock) (ack_packet : list byte) (st st' : P1.state)
    (cum_ack : option Z) (blocks : list (Z * Z)) :
  P1.on_ack clk ack_packet st = Ok st' →
  Wire.parse_ack ack_packet = Ok (cum_ack, blocks) →
  let duplicate := py_eqb cum_ack (P1.last_cum_ack st) in
  let count := if duplicate then P1.dup_ack_count st + 1 else 0 in
  P1.last_cum_ack st' = (if duplicate then P1.last_cum_ack st else cum_ack)
  ∧ if (3 <=? count) && (0 <? size (unacked (P1.trk st)))%nat
    then ∃ m pkt, m ∈ unacked (P1.trk st)
           ∧ (∀ x, x ∈ unacked (P1.trk st) → m ≤ x)
           ∧ packet_of (P1.packets st) m pkt
           ∧ P1.outbox st' = P1.outbox st ++ [pkt]
           ∧ P1.dup_ack_count st' = 0
    else P1.outbox st' = P1.outbox st ∧ P1.dup_ack_count st' = count.
Proof.
  unfold P1.on_ack. intros Hack Hparse. rewrite Hparse in Hack.
  simpl in Hack. cbv zeta.
  destruct (py_eqb cum_ack (P1.last_cum_ack st)).
  all: apply rbind_Ok in Hack as ([[tr1 out1] dup1] & Hfast & Hrest).
  all: apply rbind_Ok in Hrest as ([[tr2 est2] log2] & _ & [= <-]); simpl.
  all: split; [done|].
  - destruct (_ && _) in *; [|by injection Hfast as _ <- <-].
    apply rbind_Ok in Hfast as (m & [Hm Hmin]%set_min_spec & Hfast).
    apply rbind_Ok in Hfast as ([tr out] & Hre & [= _ <- <-]).
    revert Hre. unfold retransmit.
    intros (data & Hidx & (pkt & Hpkt & [= _ <-])%rbind_Ok)%rbind_Ok.
    exists m, pkt. split; [done|]. split; [done|].
    split; [by exists data|done].
  - by injection Hfast as _ <- <-.
Qed.

(** Packet 0 in flight, two duplicates of the ACK 0 seen; the third one
    arrives at time 101. *)
Definition before_third_duplicate : P1.state :=
  {| P1.window_size := 5000; P1.packets := [[x61; x62]];
     P1.packet_bytes := [2];
     P1.trk := {| sent_once := {[0]}; unacked := {[0]};
                  send_times := {[0 := 100%Q]}; bytes_in_flight := 2 |};
     P1.est := Estimator.init; P1.next_seq := 1;
     P1.last_cum_ack := Some 0; P1.dup_ack_count := 2;
     P1.outbox := [replicate 20 x00 ++ [x61; x62]]; P1.samples := [] |}.

Definition after_third_duplicate : P1.state :=
  {| P1.window_size := 5000; P1.packets := [[x61; x62]];
     P1.packet_bytes := [2];
     P1.trk := {| sent_once := {[0]}; unacked := {[0]};
                  send_times := <[0 := 101%Q]> {[0 := 100%Q]};
                  bytes_in_flight := 2 |};
     P1.est := Estimator.init; P1.next_seq := 1;
     P1.last_cum_ack := Some 0; P1.dup_ack_count := 0;
     P1.outbox := [replicate 20 x00 ++ [x61; x62];
                   replicate 20 x00 ++ [x61; x62]];
     P1.samples := [] |}.

Lemma fast_retransmit_on_third_duplicate_witness :
  P1.last_cum_ack after_third_duplicate
  = (if py_eqb (Some 0) (P1.last_cum_ack before_third_duplicate)
     then P1.last_cum_ack before_third_duplicate else Some 0)
  ∧ if (3 <=? (if py_eqb (Some 0) (P1.last_cum_ack before_third_duplicate)
               then P1.dup_ack_count before_third_duplicate + 1 else 0))
       && (0 <? size (unacked (P1.trk before_third_duplicate)))%nat
    then ∃ m pkt, m ∈ unacked (P1.trk before_third_duplicate)
           ∧ (∀ x, x ∈ unacked (P1.trk before_third_duplicate) → m ≤ x)
           ∧ packet_of (P1.packets before_third_duplicate) m pkt
           ∧ P1.outbox after_third_duplicate
             = P1.outbox before_third_duplicate ++ [pkt]
           ∧ P1.dup_ack_count after_third_duplicate = 0
    else P1.outbox after_third_duplicate = P1.outbox before_third_duplicate
         ∧ P1.dup_ack_count after_third_duplicate
           = (if py_eqb (Some 0) (P1.last_cum_ack before_third_duplicate)
              then P1.dup_ack_count before_third_duplicate + 1 else 0).
Proof.
  apply (fast_retransmit_on_third_duplicate
           (mk_clock (λ _, 101%Q) 101 101 101 101 (λ x, x)) (header_of 0)
           before_third_duplicate after_third_duplicate (Some 0) []).
  - by vm_compute.
  - by vm_compute.
Defined.

End Retransmission.

(** ** The CUBIC sender: the recovery episode *)

Module Recovery.
Import Tracker Sender TrackerFacts SenderInvariants.

#[local] Arguments retransmit : simpl never.
#[local] Arguments py_eqb : simpl never.
#[local] Arguments P2.process_acked : simpl never.
#[local] Arguments timed_out : simpl never.
#[local] Arguments P2.cubic_update : simpl never.

(** The congestion state is sound: the duplicate count is not negative, the
    window is positive, and no CUBIC epoch is open during recovery. *)
Record cc_ok (st : P2.state) : Prop := mk_cc_ok {
  cc_dup : 0 ≤ P2.dup_ack_count st;
  cc_cwnd : (0 < P2.cwnd (P2.cc st))%Q;
  cc_epoch : P2.in_recovery (P2.cc st) = true → P2.epoch_start (P2.cc st) = None
}.

Section with_cube_root.
Context (cube_root : Q → Q).

(** What on_ack leaves in the congestion fields, by the outcome of the
    duplicate detection. *)
Lemma on_ack_congestion clk ack_packet st st' cum_ack blocks :
  P2.on_ack cube_root clk ack_packet st = Ok st' →
  Wire.parse_ack ack_packet = Ok (cum_ack, blocks) →
  ∃ last dup rec rap,
    P2.detect_dup cum_ack st = Ok (last, dup, rec, rap)
    ∧ let c0 := P2.set_recovery rec (P2.cc st) in
      let enter := (3 <=? dup) && (0 <? size (unacked (P2.trk st)))%nat
                   && negb rec in
      let c1 := if enter
                then P2.on_congestion_event false (P2.set_recovery true c0)
                else c0 in
      let dup1 := if enter then 0 else dup in
      let c2 := if (0 <? dup1) && P2.in_recovery c1 then P2.inflate c1 else c1 in
      P2.cc st' = (if negb (P2.in_recovery c2)
                   then P2.cubic_update cube_root (t_cubic clk) c2 else c2)
      ∧ P2.dup_ack_count st' = dup1
      ∧ P2.last_cum_ack st' = last
      ∧ P2.congestion_last_sent st'
        = (if enter then Some (P2.next_seq st - 1)
           else P2.congestion_last_sent st).
Proof.
  unfold P2.on_ack. intros Hack Hparse. rewrite Hparse in Hack. simpl in Hack.
  apply rbind_Ok in Hack as ([[[last dup] rec] rap] & Hdet & Hrest).
  apply rbind_Ok in Hrest
    as ([[[[[[tr1 out1] dup1] c1] rap1] lost1] cls1] & Hdup & Hrest).
  apply rbind_Ok in Hrest as ([[tr2 est2] log2] & _ & [= <-]).
  exists last, dup, rec, rap. split; [done|]. cbv zeta. simpl.
  destruct ((3 <=? dup) && (0 <? size (unacked (P2.trk st)))%nat); simpl;
    [|by injection Hdup as _ _ <- <- _ _ <-].
  destruct rec; simpl in *.
  - destruct (dup `mod` 100 =? 0) in Hdup;
      [|by injection Hdup as _ _ <- <- _ _ <-].
    by apply rbind_Ok in Hdup as ([tr out] & _ & [= _ _ <- <- _ _ <-]).
  - apply rbind_Ok in Hdup as (oldest & _ & Hdup).
    by apply rbind_Ok in Hdup as ([tr out] & _ & [= _ _ <- <- _ _ <-]).
Qed.

Lemma cubic_update_cwnd_pos now c :
  (0 < P2.cwnd c)%Q → (0 < P2.cwnd (P2.cubic_update cube_root now c))%Q.
Proof.
  intros Hpos. unfold P2.cubic_update.
  destruct (P2.in_recovery c); [done|].
  destruct (P2.epoch_start c) as [epoch|]; [|done]. simpl.
  match goal with |- (0 < Estimator.py_max ?lo (Estimator.py_min ?x ?hi))%Q =>
    pose proof (EstimatorFacts.clamp_bounds lo hi x) as Hclamp end.
  assert (P2.cwnd_floor == 11800)%Q as Hfloor by reflexivity.
  assert (P2.cwnd_cap == 11800000)%Q as Hcap by reflexivity.
  destruct Hclamp as [Hlo _]; lra.
Qed.

Lemma cubic_update_epoch now c :
  P2.in_recovery (P2.cubic_update cube_root now c) = true →
  P2.epoch_start c = None →
  P2.epoch_start (P2.cubic_update cube_root now c) = None.
Proof.
  unfold P2.cubic_update. destruct (P2.in_recovery c) eqn:E; [done|].
  destruct (P2.epoch_start c); simpl; congruence.
Qed.

Lemma p2_send_new_loop_cc fuel stamp st st' :
  P2.send_new_loop fuel stamp st = Ok st' →
  P2.cc st' = P2.cc st ∧ P2.dup_ack_count st' = P2.dup_ack_count st.
Proof.
  revert st. induction fuel as [|fuel IH]; intros st; simpl.
  - by intros [= <-].
  - destruct (P2.next_seq st <? P2.total_packets st); [|by intros [= <-]].
    intros (len & _ & Hrest)%rbind_Ok.
    destruct (Qle_bool _ _); [|by injection Hrest as <-].
    destruct (_ && _); [by injection Hrest as <-|].
    apply rbind_Ok in Hrest as (data & _ & Hrest).
    apply rbind_Ok in Hrest as (pkt & _ & Hrest).
    apply rbind_Ok in Hrest as (tr & _ & Hrest).
    by apply IH in Hrest.
Qed.

Lemma detect_dup_cases cum_ack st last dup rec rap :
  P2.detect_dup cum_ack st = Ok (last, dup, rec, rap) →
  (py_eqb cum_ack (P2.last_cum_ack st) = true
   ∧ last = P2.last_cum_ack st ∧ dup = P2.dup_ack_count st + 1
   ∧ rec = P2.in_recovery (P2.cc st))
  ∨ (py_eqb cum_ack (P2.last_cum_ack st) = false
     ∧ last = cum_ack ∧ dup = 0
     ∧ ((P2.in_recovery (P2.cc st) = false ∧ rec = false)
        ∨ (P2.in_recovery (P2.cc st) = true
           ∧ ∃ c cls, cum_ack = Some c
               ∧ P2.congestion_last_sent st = Some cls
               ∧ rec = negb (cls <? c)))).
Proof.
  unfold P2.detect_dup. intros Hdet. destruct (py_eqb _ _).
  - injection Hdet as <- <- <- <-. by left.
  - right. split; [done|]. destruct (P2.in_recovery (P2.cc st)) eqn:E.
    + destruct cum_ack as [c|]; [|done].
      destruct (P2.congestion_last_sent st) as [cls|]; [|done]. simpl in Hdet.
      destruct (cls <? c) eqn:Hlt; injection Hdet as <- <- <- <-;
        (split; [done|]); (split; [done|]); right; (split; [done|]);
        exists c, cls; by rewrite Hlt.
    + injection Hdet as <- <- <- <-. split; [done|]. split; [done|]. by left.
Qed.

Lemma p2_on_ack_cc_ok clk ack_packet st st' :
  cc_ok st → P2.on_ack cube_root clk ack_packet st = Ok st' → cc_ok st'.
Proof.
  intros [Hdup Hcwnd Hepoch] Hack.
  destruct (Wire.parse_ack ack_packet) as [[cum_ack blocks]|] eqn:Hparse;
    [|by unfold P2.on_ack in Hack; rewrite Hparse in Hack].
  destruct (on_ack_congestion _ _ _ _ _ _ Hack Hparse)
    as (last & dup & rec & rap & Hdet & Hcc & Hd & _).
  cbv zeta in *.
  assert (0 ≤ dup) as Hdup0.
  { apply detect_dup_cases in Hdet as [(_ & _ & -> & _)|(_ & _ & -> & _)]; lia. }
  assert (rec = true → P2.in_recovery (P2.cc st) = true) as Hrec.
  { apply detect_dup_cases in Hdet
      as [(_ & _ & _ & ->)|(_ & _ & _ & [[_ ->]|(Hin & _)])]; done. }
  destruct (P2.cc st) as [w wm ep k r] eqn:Ecc. simpl in *.
  split.
  - rewrite Hd. destruct (_ && _ && _); lia.
  - rewrite Hcc.
    destruct ((3 <=? dup) && (0 <? size (unacked (P2.trk st)))%nat && negb rec);
      simpl.
    + unfold P2.CWND_DEC. lra.
    + destruct ((0 <? dup) && rec); simpl.
      * destruct rec; simpl; [|apply cubic_update_cwnd_pos]; simpl;
          assert (inject_Z Wire.DATA_SIZE == 1180)%Q by reflexivity; lra.
      * destruct rec; simpl; [done|]. by apply cubic_update_cwnd_pos.
  - rewrite Hcc.
    destruct ((3 <=? dup) && (0 <? size (unacked (P2.trk st)))%nat && negb rec);
      simpl; [done|].
    destruct ((0 <? dup) && rec); simpl.
    + destruct rec; simpl; [intros _; by apply Hepoch, Hrec|].
      rewrite Progress.in_recovery_cubic_update. done.
    + destruct rec; simpl; [intros _; by apply Hepoch, Hrec|].
      rewrite Progress.in_recovery_cubic_update. done.
Qed.

Lemma p2_on_timeout_cc_ok clk st st' :
  cc_ok st → P2.on_timeout clk st = Ok st' → cc_ok st'.
Proof.
  intros [Hdup Hcwnd Hepoch]. unfold P2.on_timeout.
  destruct (timed_out _ _ _ _); [by intros [= <-]|].
  intros ([tr out] & _ & [= <-])%rbind_Ok. split; simpl; [done| |done].
  assert (P2.cwnd_floor == 11800)%Q by reflexivity. lra.
Qed.

Lemma p2_reachable_cc_ok st : P2Facts.reachable cube_root st → cc_ok st.
Proof.
  induction 1 as [f|stamp st st' Hr IH Hs|clk a st st' Hr IH Hs
                  |clk st st' Hr IH Hs].
  - split; simpl; [lia|reflexivity|done].
  - apply p2_send_new_loop_cc in Hs as [Hc Hd]. destruct IH.
    split; rewrite ?Hc, ?Hd; done.
  - by eapply p2_on_ack_cc_ok.
  - by eapply p2_on_timeout_cc_ok.
Qed.

Lemma p2_data_phase_reachable clk events : ∀ i st r,
  P2Facts.reachable cube_root st →
  P2.data_phase cube_root clk i events st = Ok r →
  match r with inl st' | inr st' => P2Facts.reachable cube_root st' end.
Proof.
  induction events as [|ev events IH]; intros i st r Hst Hrun.
  - simpl in Hrun. apply rbind_Ok in Hrun as (st1 & Hsend & Hrest).
    assert (P2Facts.reachable cube_root st1)
      by (by eapply P2Facts.reach_send_new).
    by destruct (P2.all_acked st1); injection Hrest as <-.
  - cbn [P2.data_phase] in Hrun.
    apply rbind_Ok in Hrun as (st1 & Hsend & Hrest).
    assert (P2Facts.reachable cube_root st1)
      by (by eapply P2Facts.reach_send_new).
    destruct (P2.all_acked st1); [by injection Hrest as <-|].
    destruct ev as [ack_packet|].
    + apply rbind_Ok in Hrest as (st2 & Hack & Hrest).
      eapply IH; [|exact Hrest]. by eapply P2Facts.reach_on_ack.
    + apply rbind_Ok in Hrest as (st2 & Hto & Hrest).
      eapply IH; [|exact Hrest]. by eapply P2Facts.reach_on_timeout.
Qed.

(** What an ACK with cumulative value [cum_ack], processed at [clk], does
    to the congestion state, by the four cases of the recovery episode. *)
Definition recovery_rules (clk : clock) (st st' : P2.state)
    (cum_ack : option Z) : Prop :=
  let duplicate := py_eqb cum_ack (P2.last_cum_ack st) in
  let c := P2.cc st in
  let c' := P2.cc st' in
  (* the third duplicate outside recovery: one halving, recovery entered *)
  (P2.in_recovery c = false → duplicate = true →
   3 ≤ P2.dup_ack_count st + 1 → (0 < size (unacked (P2.trk st)))%nat →
   P2.in_recovery c' = true
   ∧ P2.cwnd c' = (P2.cwnd c * P2.CWND_DEC)%Q ∧ P2.Wmax c' = P2.cwnd c
   ∧ P2.epoch_start c' = None
   ∧ P2.congestion_last_sent st' = Some (P2.next_seq st - 1)
   ∧ P2.dup_ack_count st' = 0)
  (* a duplicate during recovery: the window grows by one payload *)
  ∧ (P2.in_recovery c = true → duplicate = true →
     P2.in_recovery c' = true
     ∧ P2.cwnd c' = (P2.cwnd c + inject_Z Wire.DATA_SIZE)%Q
     ∧ P2.Wmax c' = P2.Wmax c ∧ P2.epoch_start c' = None
     ∧ P2.congestion_last_sent st' = P2.congestion_last_sent st
     ∧ P2.dup_ack_count st' = P2.dup_ack_count st + 1)
  (* progress that does not pass the recovery point: nothing changes *)
  ∧ (P2.in_recovery c = true → duplicate = false →
     ∀ a cls, cum_ack = Some a → P2.congestion_last_sent st = Some cls →
       a ≤ cls →
       c' = c ∧ P2.dup_ack_count st' = 0)
  (* progress past the recovery point: recovery is left, a new CUBIC epoch
     starts at the window reached *)
  ∧ (P2.in_recovery c = true → duplicate = false →
     ∀ a cls, cum_ack = Some a → P2.congestion_last_sent st = Some cls →
       cls < a →
       P2.in_recovery c' = false
       ∧ P2.cwnd c' = P2.cwnd c ∧ P2.Wmax c' = P2.Wmax c
       ∧ P2.epoch_start c' = Some (t_cubic clk)
       ∧ P2.K c' = cube_root ((P2.Wmax c * P2.BETA_CUBIC) / P2.C_CUBIC)%Q
       ∧ P2.dup_ack_count st' = 0).

(** The recovery episode of the CUBIC sender.  The third duplicate ACK in a
    row, with something unacked, halves cwnd once, records the old cwnd as
    Wmax and enters recovery; while in recovery every further duplicate adds
    DATA_SIZE to cwnd and nothing else touches the congestion state (no
    second reduction, no CUBIC growth); an ACK that advances but not past the
    last packet sent before the loss changes nothing; the first ACK past it
    ends recovery and opens a new CUBIC epoch at the inflated window. *)
Theorem recovery_episode (clk : clock) (ack_packet : list byte)
    (st st' : P2.state) (cum_ack : option Z) (blocks : list (Z * Z)) :
  P2Facts.reachable cube_root st →
  P2.on_ack cube_root clk ack_packet st = Ok st' →
  Wire.parse_ack ack_packet = Ok (cum_ack, blocks) →
  recovery_rules clk st st' cum_ack.
Proof.
  intros [Hdup Hcwnd Hepoch]%p2_reachable_cc_ok Hack Hparse.
  destruct (on_ack_congestion _ _ _ _ _ _ Hack Hparse)
    as (last & dup & rec & rap & Hdet & Hcc & Hd & _ & Hcls).
  apply detect_dup_cases in Hdet. unfold recovery_rules. cbv zeta in *.
  destruct (P2.cc st) as [w wm ep k r] eqn:Ecc. simpl in *.
  split; [|split; [|split]].
  - intros -> Heq Hthree Hsize.
    destruct Hdet as [(_ & _ & -> & ->)|(Hne & _)]; [|congruence].
    apply Z.leb_le in Hthree. apply Nat.ltb_lt in Hsize.
    rewrite Hthree, Hsize in *. simpl in *. by rewrite Hcc, Hd, Hcls.
  - intros -> Heq.
    destruct Hdet as [(_ & _ & -> & ->)|(Hne & _)]; [|congruence].
    rewrite andb_false_r in *. simpl in *.
    assert ((0 <? P2.dup_ack_count st + 1) = true) as Hpos
      by (apply Z.ltb_lt; lia).
    rewrite Hpos in *. simpl in *. rewrite Hcc, Hd, Hcls. simpl.
    by rewrite Hepoch.
  - intros -> Hne a cls -> Hc Hle.
    destruct Hdet as [(Heq & _)|(_ & _ & -> & [[? _]|(_ & a' & cls' & Ha & Hc' & ->)])];
      [congruence|done|].
    rewrite Hc in Hc'. injection Ha as <-. injection Hc' as <-.
    destruct (Z.ltb_spec cls a); [lia|]. simpl in *.
    split; [|done]. by rewrite Hcc.
  - intros -> Hne a cls -> Hc Hlt.
    destruct Hdet as [(Heq & _)|(_ & _ & -> & [[? _]|(_ & a' & cls' & Ha & Hc' & ->)])];
      [congruence|done|].
    rewrite Hc in Hc'. injection Ha as <-. injection Hc' as <-.
    destruct (Z.ltb_spec cls a); [|lia]. simpl in *.
    rewrite Hcc, Hd. unfold P2.cubic_update. simpl.
    by rewrite Hepoch.
Qed.

End with_cube_root.

(** One packet in flight, the ACK 0 seen three times (two duplicates); the
    next ACK 0 is the third duplicate. *)
Definition flat_clock : nat → clock :=
  λ _, mk_clock (λ _, 100%Q) 101 101 101 101 (λ x, x).

Definition before_recovery : P2.state :=
  match P2.data_phase (λ x, x) flat_clock 0
          [Datagram (header_of 0); Datagram (header_of 0);
           Datagram (header_of 0)] (P2.start [x61]) with
  | Ok (inl st) => st
  | _ => P2.start [x61]
  end.

Definition in_recovery_state : P2.state :=
  match P2.on_ack (λ x, x) (flat_clock 0) (header_of 0) before_recovery with
  | Ok st => st
  | Raise _ => before_recovery
  end.

Lemma recovery_episode_witness :
  recovery_rules (λ x, x) (flat_clock 0) before_recovery in_recovery_state
                 (Some 0).
Proof.
  apply (recovery_episode (λ x, x) (flat_clock 0) (header_of 0)
           before_recovery in_recovery_state (Some 0) []).
  - apply (p2_data_phase_reachable (λ x, x) flat_clock
             [Datagram (header_of 0); Datagram (header_of 0);
              Datagram (header_of 0)] 0 (P2.start [x61]) (inl before_recovery)).
    + apply P2Facts.reach_start.
    + by vm_compute.
  - by vm_compute.
  - by vm_compute.
Defined.

End Recovery.

(** ** The handshake: request, ready packet, start of the transfer *)

Module Handshake.
Import Sender Client.

#[local] Arguments Wire.create_ack : simpl never.
#[local] Arguments Wire.parse_packet : simpl never.
#[local] Arguments find_sack_blocks : simpl never.

(** A wait that yields nothing: a timeout or an empty datagram. *)
Definition silent (ev : recv_event) : Prop :=
  ev = SockTimeout ∨ ev = Datagram [].

(** What start() makes of the outcome of receive_file. *)
Definition outcome_of (r : result (option (list byte))) : start_outcome :=
  match r with
  | Ok (Some data) => Written data
  | Ok None => Waiting
  | Raise e => Failed e
  end.

Lemma start_unfold events :
  start events
  = match send_request events with
    | (Some true, _, rest) => outcome_of (receive_file rest)
    | (Some false, _, _) => NoContact
    | (None, _, _) => Waiting
    end.
Proof. done. Qed.

Lemma send_request_loop_silent pre events attempts requests :
  Forall silent pre →
  send_request_loop (length pre + attempts) (pre ++ events) requests
  = send_request_loop attempts events (length pre + requests).
Proof.
  intros Hpre. revert requests.
  induction Hpre as [|ev pre [->| ->] _ IH]; intros requests; [done| |];
    simpl; rewrite IH; f_equal; lia.
Qed.

(** send_request sends one request per wait, five at most.  The first
    non-empty datagram among the first five waits ends it with True, whatever
    the datagram holds, and receive_file starts with the events after it;
    five silent waits end it with False and start() returns without writing
    a file.  The server waits without any bound: start() passes over timeouts
    and empty datagrams and takes the first non-empty datagram for the
    request, whatever it holds. *)
Theorem request_handshake (pre rest : list recv_event) :
  Forall silent pre →
  (∀ b resp, (length pre < 5)%nat →
     send_request (pre ++ Datagram (b :: resp) :: rest)
     = (Some true, S (length pre), rest)
     ∧ start (pre ++ Datagram (b :: resp) :: rest)
       = outcome_of (receive_file rest))
  ∧ (length pre = 5%nat →
     send_request (pre ++ rest) = (Some false, 5%nat, rest)
     ∧ start (pre ++ rest) = NoContact)
  ∧ (∀ b resp, await_request (pre ++ Datagram (b :: resp) :: rest) = Some rest)
  ∧ await_request pre = None.
Proof.
  intros Hpre. split; [|split; [|split]]; [| |
    intros b resp; induction Hpre as [|ev pre [->| ->] _ IH]; done |
    induction Hpre as [|ev pre [->| ->] _ IH]; done ].
  - intros b resp Hlen.
    assert (send_request (pre ++ Datagram (b :: resp) :: rest)
            = (Some true, S (length pre), rest)) as Hreq.
    { unfold send_request, MAX_REQUEST_RETRIES.
      replace 5%nat with (length pre + S (4 - length pre))%nat by lia.
      rewrite send_request_loop_silent by done. simpl.
      by rewrite Nat.add_0_r. }
    split; [done|]. by rewrite start_unfold, Hreq.
  - intros Hlen.
    assert (send_request (pre ++ rest) = (Some false, 5%nat, rest)) as Hreq.
    { unfold send_request, MAX_REQUEST_RETRIES.
      replace 5%nat with (length pre + 0)%nat at 1 by lia.
      rewrite send_request_loop_silent by done. simpl.
      by rewrite Nat.add_0_r, Hlen. }
    split; [done|]. by rewrite start_unfold, Hreq.
Qed.

Lemma request_handshake_witness :
  send_request ([SockTimeout; Datagram []]
                ++ Datagram (x41 :: [x43; x4b]) :: [SockTimeout])
  = (Some true, S (length [SockTimeout; Datagram []]), [SockTimeout])
  ∧ start ([SockTimeout; Datagram []]
           ++ Datagram (x41 :: [x43; x4b]) :: [SockTimeout])
    = outcome_of (receive_file [SockTimeout]).
Proof.
  refine (proj1 (request_handshake [SockTimeout; Datagram []] [SockTimeout] _)
                x41 [x43; x4b] _).
  - constructor; [by left|]. constructor; [by right|]. constructor.
  - simpl. lia.
Defined.

(** *** The ready packet *)



End Handshake.

(** ** The EOF phase over arbitrary events *)

Module EofAnyEvents.
Import Sender.

#[local] Arguments Wire.parse_ack : simpl never.

(** The datagrams among the events. *)
Definition datagrams (events : list recv_event) : nat :=
  length (List.filter (λ ev, match ev with Datagram _ => true
                                         | SockTimeout => false end) events).







End EofAnyEvents.

(** ** The CUBIC sender: admission and growth *)

Module CubicWindow.
Import Tracker Sender TrackerFacts.

#[local] Arguments P2.cubic_update : simpl never.




(** *** The growth function *)

Lemma Qltb_proper x x' y y' :
  (x == x')%Q → (y == y')%Q → Qltb x y = Qltb x' y'.
Proof.
  intros Hx Hy. destruct (Qltb x' y') eqn:E.
  - apply EstimatorFacts.Qltb_true. apply EstimatorFacts.Qltb_true in E. lra.
  - apply EstimatorFacts.Qltb_false. apply EstimatorFacts.Qltb_false in E. lra.
Qed.

(** [max(lo, min(x, hi))] as a function of [x]. *)
Definition clamp (lo hi x : Q) : Q :=
  Estimator.py_max lo (Estimator.py_min x hi).

Lemma clamp_mono lo hi x y : (x <= y)%Q → (clamp lo hi x <= clamp lo hi y)%Q.
Proof.
  intros Hxy. unfold clamp, Estimator.py_max, Estimator.py_min.
  destruct (Qltb hi x) eqn:E1, (Qltb hi y) eqn:E2;
    [apply EstimatorFacts.Qltb_true in E1|apply EstimatorFacts.Qltb_true in E1
    |apply EstimatorFacts.Qltb_false in E1|apply EstimatorFacts.Qltb_false in E1];
    [apply EstimatorFacts.Qltb_true in E2|apply EstimatorFacts.Qltb_false in E2
    |apply EstimatorFacts.Qltb_true in E2|apply EstimatorFacts.Qltb_false in E2].
  all: repeat match goal with
         | |- context [Qltb ?a ?b] =>
             let E := fresh "E" in
             destruct (Qltb a b) eqn:E;
             [apply EstimatorFacts.Qltb_true in E
             |apply EstimatorFacts.Qltb_false in E]
         end; lra.
Qed.

Lemma clamp_proper lo hi x y : (x == y)%Q → (clamp lo hi x == clamp lo hi y)%Q.
Proof.
  intros Hxy. apply Qle_antisym; apply clamp_mono; lra.
Qed.

Lemma square_nonneg (a : Q) : (0 <= a * a)%Q.
Proof.
  destruct (Qlt_le_dec a 0).
  - assert (a * a == (- a) * (- a))%Q as -> by ring.
    apply Qmult_le_0_compat; lra.
  - apply Qmult_le_0_compat; lra.
Qed.

Lemma cube_mono (x y : Q) : (x <= y)%Q → (x ^ 3 <= y ^ 3)%Q.
Proof.
  intros Hxy.
  assert (x ^ 3 == x * x * x)%Q as -> by (simpl; ring).
  assert (y ^ 3 == y * y * y)%Q as -> by (simpl; ring).
  pose proof (square_nonneg (x + y / 2)) as H1.
  pose proof (square_nonneg y) as H2.
  assert (0 <= (y - x) * ((x + y / 2) * (x + y / 2) + (3 # 4) * (y * y)))%Q
    as H by (apply Qmult_le_0_compat; lra).
  assert ((y - x) * ((x + y / 2) * (x + y / 2) + (3 # 4) * (y * y))
          == y * y * y - x * x * x)%Q as Heq by field.
  lra.
Qed.

Section with_cube_root.
Context (cube_root : Q → Q).

(** The growth step of an open epoch, as a function of the time of the
    update. *)
Definition growth_law (c : P2.cubic) (epoch : Q) : Prop :=
  let W now := P2.cwnd (P2.cubic_update cube_root now c) in
  (* the window computed does not depend on the window held *)
  (∀ now w, W now
            = P2.cwnd (P2.cubic_update cube_root now
                         (P2.mk_cubic w (P2.Wmax c) (P2.epoch_start c) (P2.K c)
                                      (P2.in_recovery c))))
  (* it never decreases with time *)
  ∧ (∀ now1 now2, (now1 <= now2)%Q → (W now1 <= W now2)%Q)
  (* K seconds into the epoch it is Wmax, clamped *)
  ∧ (∀ now, (now - epoch == P2.K c)%Q →
            (W now == clamp P2.cwnd_floor P2.cwnd_cap (P2.Wmax c))%Q)
  (* with K the exact cube root of Wmax * 0.3 / 10000, the epoch starts from
     0.7 Wmax, clamped *)
  ∧ ((P2.K c ^ 3 == P2.Wmax c * P2.BETA_CUBIC / P2.C_CUBIC)%Q →
     ∀ now, (now == epoch)%Q →
       (W now == clamp P2.cwnd_floor P2.cwnd_cap ((7 # 10) * P2.Wmax c))%Q)
  (* and nothing but cwnd is changed *)
  ∧ (∀ now, P2.Wmax (P2.cubic_update cube_root now c) = P2.Wmax c
            ∧ P2.K (P2.cubic_update cube_root now c) = P2.K c
            ∧ P2.epoch_start (P2.cubic_update cube_root now c) = Some epoch).

(** cubic_update outside recovery, with the epoch open: the window is
    max(10 MSS, min(C (t - K)^3 + Wmax, 10000 MSS)) for t the time since the
    start of the epoch, whatever the window was before (a halving or an
    inflation is forgotten at the first growth step). *)
Theorem cubic_growth_law (c : P2.cubic) (epoch : Q) :
  P2.in_recovery c = false → P2.epoch_start c = Some epoch →
  growth_law c epoch.
Proof.
  intros Hrec Hep.
  assert (∀ now w,
    P2.cwnd (P2.cubic_update cube_root now
               (P2.mk_cubic w (P2.Wmax c) (P2.epoch_start c) (P2.K c)
                            (P2.in_recovery c)))
    = clamp P2.cwnd_floor P2.cwnd_cap
        (P2.C_CUBIC * (now - epoch - P2.K c) ^ 3 + P2.Wmax c)%Q) as Hw.
  { intros now w. unfold P2.cubic_update. simpl. by rewrite Hrec, Hep. }
  assert (∀ now,
    P2.cwnd (P2.cubic_update cube_root now c)
    = clamp P2.cwnd_floor P2.cwnd_cap
        (P2.C_CUBIC * (now - epoch - P2.K c) ^ 3 + P2.Wmax c)%Q) as Hc.
  { intros now. unfold P2.cubic_update. by rewrite Hrec, Hep. }
  unfold growth_law. cbv zeta. split; [|split; [|split; [|split]]].
  - intros now w. by rewrite Hc, Hw.
  - intros now1 now2 Hle. rewrite !Hc. apply clamp_mono.
    assert ((now1 - epoch - P2.K c) ^ 3 <= (now2 - epoch - P2.K c) ^ 3)%Q
      by (apply cube_mono; lra).
    unfold P2.C_CUBIC. lra.
  - intros now Ht. rewrite Hc. apply clamp_proper.
    assert (now - epoch - P2.K c == 0)%Q as -> by lra.
    unfold P2.C_CUBIC. simpl. ring.
  - intros HK now Hnow. rewrite Hc. apply clamp_proper.
    assert ((now - epoch - P2.K c) ^ 3 == - (P2.K c ^ 3))%Q as ->.
    { assert (now - epoch - P2.K c == - P2.K c)%Q as -> by lra. simpl. ring. }
    rewrite HK. unfold P2.C_CUBIC, P2.BETA_CUBIC. field.
  - intros now. unfold P2.cubic_update. by rewrite Hrec, Hep.
Qed.

End with_cube_root.

Lemma cubic_growth_law_witness :
  growth_law (λ x, x) (P2.mk_cubic 590 1180 (Some 100%Q) 3 false) 100.
Proof. by apply cubic_growth_law. Defined.

End CubicWindow.

(** ** The receiver: which runs a SACK reports *)

Module SackRuns.
Import Sender Client SackBlocks.

(** [b] is a maximal run of consecutive members of [seqs]. *)
Definition maximal_run (seqs : gset Z) (b : Z * Z) : Prop :=
  b.1 ≤ b.2 ∧ (∀ x, b.1 ≤ x ≤ b.2 → x ∈ seqs)
  ∧ (b.1 - 1 ∉ seqs) ∧ (b.2 + 1 ∉ seqs).

(** Two blocks with a gap between them, the first one below. *)
Definition apart (b1 b2 : Z * Z) : Prop := b1.2 + 1 < b2.1.

Definition holds (b : Z * Z) (x : Z) : Prop := b.1 ≤ x ≤ b.2.

Lemma sorted_strict (seqs : gset Z) : StronglySorted Z.lt (sorted seqs).
Proof.
  pose proof (NoDup_sorted seqs) as Hnd.
  assert (StronglySorted Z.le (sorted seqs)) as Hs.
  { unfold sorted. apply StronglySorted_merge_sort.
    - intros x y z. lia.
    - intros x y. lia. }
  induction Hs as [|x l Hs IH Hall]; [constructor|].
  apply NoDup_cons in Hnd as [Hx Hnd]. constructor; [by apply IH|].
  rewrite Forall_forall in *. intros y Hy.
  destruct (decide (y = x)) as [->|]; [done|]. specialize (Hall y Hy). lia.
Qed.

(** The scan cuts an ascending list into its runs. *)
Lemma runs_from_spec l : ∀ s e,
  s ≤ e → Forall (λ x, e < x) l → StronglySorted Z.lt l →
  StronglySorted apart (runs_from s e l)
  ∧ Forall (λ b, s ≤ b.1 ∧ b.1 ≤ b.2) (runs_from s e l)
  ∧ ∀ x, (s ≤ x ≤ e ∨ x ∈ l) → Exists (λ b, holds b x) (runs_from s e l).
Proof.
  induction l as [|y l IH]; intros s e Hse Hgt Hsorted; simpl.
  - split; [repeat constructor|]. split; [repeat constructor; simpl; lia|].
    intros x [Hx|Hx%elem_of_nil]; [|done]. by apply Exists_cons_hd.
  - apply Forall_cons in Hgt as [Hy Hgt].
    apply StronglySorted_inv in Hsorted as [Hsorted Hall].
    destruct (Z.eqb_spec y (e + 1)) as [->|Hne].
    + destruct (IH s (e + 1)) as (H1 & H2 & H3); [lia|done|done|].
      split; [done|]. split; [done|]. intros x [Hx|Hx]; apply H3.
      * left. lia.
      * apply elem_of_cons in Hx as [->|Hx]; [left; lia|by right].
    + destruct (IH y y) as (H1 & H2 & H3); [lia|done|done|].
      split; [|split].
      * constructor; [done|]. eapply Forall_impl; [exact H2|].
        intros b [Hb _]. unfold apart. simpl. lia.
      * constructor; [simpl; lia|]. eapply Forall_impl; [exact H2|].
        intros b [Hb1 Hb2]. split; lia.
      * intros x [Hx|Hx]; [by apply Exists_cons_hd|].
        apply Exists_cons_tl, H3.
        apply elem_of_cons in Hx as [->|Hx]; [left; lia|by right].
Qed.

(** The blocks found are the maximal runs of received_seqs, in ascending
    order. *)
Lemma blocks_found_spec (seqs : gset Z) :
  StronglySorted apart (blocks_found (sorted seqs))
  ∧ Forall (block_within seqs) (blocks_found (sorted seqs))
  ∧ ∀ x, x ∈ seqs → Exists (λ b, holds b x) (blocks_found (sorted seqs)).
Proof.
  pose proof (sorted_strict seqs) as Hs. unfold blocks_found.
  destruct (sorted seqs) as [|y l] eqn:E.
  - split; [constructor|]. split; [constructor|].
    intros x Hx%elem_of_sorted. rewrite E in Hx. by apply elem_of_nil in Hx.
  - apply StronglySorted_inv in Hs as [Hs Hall].
    destruct (runs_from_spec l y y) as (H1 & H2 & H3); [lia|done|done|].
    split; [done|]. split.
    + apply runs_from_within.
      * split; simpl; [lia|]. intros x Hx. replace x with y by lia.
        apply elem_of_sorted. rewrite E. by left.
      * intros x Hx. apply elem_of_sorted. rewrite E. by right.
    + intros x Hx%elem_of_sorted. rewrite E in Hx. apply H3.
      apply elem_of_cons in Hx as [->|Hx]; [left; lia|by right].
Qed.

Lemma apart_cases bl (b b' : Z * Z) :
  StronglySorted apart bl → b ∈ bl → b' ∈ bl →
  b = b' ∨ apart b b' ∨ apart b' b.
Proof.
  induction 1 as [|b0 bl Hs IH Hall]; [by intros ?%elem_of_nil|].
  rewrite Forall_forall in Hall.
  intros [->|Hb]%elem_of_cons [->|Hb']%elem_of_cons; auto.
Qed.

Lemma found_block_maximal (seqs : gset Z) b :
  b ∈ blocks_found (sorted seqs) → maximal_run seqs b.
Proof.
  destruct (blocks_found_spec seqs) as (Hs & Hw & Hc). intros Hb.
  rewrite Forall_forall in Hw. destruct (Hw b Hb) as [Hle Hin].
  assert (∀ x, x ∈ seqs → ¬ holds b x → ¬ (b.1 - 1 ≤ x ≤ b.2 + 1)) as Hout.
  { intros x Hx Hnot Hnear. apply Hc, Exists_exists in Hx as (b' & Hb' & Hx).
    destruct (Hw b' Hb') as [Hle' _]. unfold holds in *.
    destruct (apart_cases _ b b' Hs Hb Hb') as [->|[Hap|Hap]];
      [done|unfold apart in Hap; lia|unfold apart in Hap; lia]. }
  split; [done|]. split; [done|]. split.
  - intros Hx. apply (Hout _ Hx); unfold holds; lia.
  - intros Hx. apply (Hout _ Hx); unfold holds; lia.
Qed.

(** [other_block] picks the first block that does not hold [r]. *)
Lemma other_block_spec r bl :
  StronglySorted apart bl → Forall (λ b, b.1 ≤ b.2) bl →
  (other_block r bl = [] ∧ Forall (λ b, holds b r) bl)
  ∨ ∃ b, other_block r bl = [b] ∧ b ∈ bl ∧ ¬ holds b r
         ∧ ∀ b', b' ∈ bl → ¬ holds b' r → b.1 ≤ b'.1.
Proof.
  induction 1 as [|[s e] bl Hs IH Hall]; intros Hle; simpl.
  - left. by split.
  - apply Forall_cons in Hle as [Hse Hle]. simpl in Hse.
    destruct (Z.leb_spec s r) as [H1|H1]; simpl;
      [destruct (Z.leb_spec r e) as [H2|H2]; simpl|].
    + destruct (IH Hle) as [[-> Hall']|(b & -> & Hb & Hnot & Hmin)].
      * left. split; [done|]. constructor; [by unfold holds|done].
      * right. exists b. split; [done|]. split; [by right|]. split; [done|].
        intros b' [->|Hb']%elem_of_cons Hnot'; [|by apply Hmin].
        destruct Hnot'. by unfold holds.
    + right. exists (s, e). split; [done|]. split; [by left|].
      split; [unfold holds; simpl; lia|].
      intros b' [->|Hb']%elem_of_cons _; [done|].
      rewrite Forall_forall in Hall. specialize (Hall b' Hb').
      unfold apart in Hall. simpl in *. lia.
    + right. exists (s, e). split; [done|]. split; [by left|].
      split; [unfold holds; simpl; lia|].
      intros b' [->|Hb']%elem_of_cons _; [done|].
      rewrite Forall_forall in Hall. specialize (Hall b' Hb').
      unfold apart in Hall. simpl in *. lia.
Qed.

(** What find_sack_blocks reports.  Nothing when the packet named is not
    buffered.  Otherwise the first block is the maximal run of buffered
    sequence numbers around that packet.  A second block is present exactly
    when something is buffered outside the first; it is then a maximal run
    too, apart from the first, and it is the lowest one: the run that starts
    at the smallest buffered sequence number outside the first block (not the
    next run above it). *)
Theorem sack_reports_run_and_lowest_other (seqs : gset Z) (r : Z) :
  (r ∉ seqs → find_sack_blocks seqs (Some r) = [])
  ∧ (r ∈ seqs →
     ∃ first rest,
       find_sack_blocks seqs (Some r) = first :: rest
       ∧ maximal_run seqs first ∧ holds first r
       ∧ ((rest = [] ∧ ∀ x, x ∈ seqs → holds first x)
          ∨ ∃ second, rest = [second]
              ∧ maximal_run seqs second
              ∧ (apart first second ∨ apart second first)
              ∧ (∃ x, x ∈ seqs ∧ ¬ holds first x)
              ∧ ∀ x, x ∈ seqs → ¬ holds first x → second.1 ≤ x)).
Proof.
  split.
  { intros Hr. unfold find_sack_blocks. by destruct (decide (r ∈ seqs)). }
  intros Hr. unfold find_sack_blocks.
  destruct (decide (r ∈ seqs)) as [_|]; [|done].
  set (s := expand_down (size seqs) seqs r).
  set (e := expand_up (size seqs) seqs r).
  destruct (expand_down_within (size seqs) seqs r r) as [Hd1 Hd2]; [lia| |].
  { intros x Hx. by replace x with r by lia. }
  destruct (expand_up_within (size seqs) seqs r r) as [Hu1 Hu2]; [lia| |].
  { intros x Hx. by replace x with r by lia. }
  fold s in Hd1, Hd2. fold e in Hu1, Hu2.
  assert (maximal_run seqs (s, e)) as Hfirst.
  { split; simpl; [lia|]. split; [|split].
    - intros x Hx. destruct (Z.le_gt_cases x r); [apply Hd2|apply Hu2]; lia.
    - by apply LoopsStop.expand_down_stops.
    - by apply LoopsStop.expand_up_stops. }
  (* a block of received_seqs that holds r lies inside the first block *)
  assert (∀ b, block_within seqs b → holds b r → ∀ x, holds b x → holds (s, e) x)
    as Hinside.
  { intros b [Hle Hin] Hbr x Hx. unfold holds in *. simpl.
    destruct Hfirst as (_ & _ & Hlo & Hhi). simpl in Hlo, Hhi.
    split.
    - destruct (Z.le_gt_cases s x); [done|]. destruct Hlo. apply Hin. lia.
    - destruct (Z.le_gt_cases x e); [done|]. destruct Hhi. apply Hin. lia. }
  destruct (blocks_found_spec seqs) as (Hs & Hw & Hc).
  destruct (other_block_spec r (blocks_found (sorted seqs)) Hs)
    as [[-> Hall]|(b & -> & Hb & Hnot & Hmin)].
  { eapply Forall_impl; [exact Hw|]. by intros b [? _]. }
  - exists (s, e), []. split; [done|]. split; [done|].
    split; [unfold holds; simpl; lia|]. left. split; [done|].
    intros x Hx. apply Hc, Exists_exists in Hx as (b & Hb & Hx).
    rewrite Forall_forall in Hall, Hw.
    by apply (Hinside b (Hw b Hb) (Hall b Hb)).
  - exists (s, e), [b]. split; [done|]. split; [done|].
    split; [unfold holds; simpl; lia|]. right. exists b. split; [done|].
    pose proof (found_block_maximal seqs b Hb) as Hmax. split; [done|].
    assert (¬ holds (s, e) b.1) as Hout.
    { intros Hin. destruct Hmax as (Hle & Hmem & Hlo & Hhi).
      destruct Hfirst as (_ & Hmem1 & Hlo1 & Hhi1). unfold holds in *.
      simpl in *.
      destruct (Z.le_gt_cases r b.1) as [Hrb|Hrb].
      - destruct Hlo. apply Hmem1.
        destruct (decide (b.1 = r)) as [Heq|]; [destruct Hnot; lia|lia].
      - destruct (Z.le_gt_cases r b.2); [destruct Hnot; lia|].
        destruct Hhi. apply Hmem1. lia. }
    split; [|split].
    + destruct Hmax as (Hle & Hmem & Hlo & Hhi).
      destruct Hfirst as (_ & Hmem1 & Hlo1 & Hhi1). unfold holds, apart in *.
      simpl in *.
      destruct (Z.le_gt_cases b.1 s) as [Hbs|Hbs].
      * right. destruct (Z.le_gt_cases s (b.2 + 1)); [|lia].
        destruct (decide (b.2 + 1 = s)) as [Heq|].
        -- destruct Hhi. rewrite Heq. apply Hmem1. lia.
        -- destruct Hlo1. apply Hmem. lia.
      * left. destruct (Z.le_gt_cases b.1 (e + 1)); [|lia].
        destruct (decide (b.1 = e + 1)) as [Heq|].
        -- destruct Hhi1. rewrite <- Heq. apply Hmem. lia.
        -- destruct Hout. lia.
    + exists b.1. split; [|done]. destruct Hmax as (Hle & Hmem & _).
      apply Hmem. lia.
    + intros x Hx Hxout. apply Hc, Exists_exists in Hx as (b' & Hb' & Hx).
      rewrite Forall_forall in Hw.
      assert (¬ holds b' r) as Hnot'.
      { intros Hbr. apply Hxout. by apply (Hinside b' (Hw b' Hb') Hbr). }
      specialize (Hmin b' Hb' Hnot'). unfold holds in Hx. lia.
Qed.

End SackRuns.

(** ** The ACK on the wire: what the receiver reports, the sender releases *)

Module AckSafety.
Import Tracker Sender TrackerFacts.

#[local] Arguments Client.find_sack_blocks : simpl never.
#[local] Arguments P1.process_acked : simpl never.
#[local] Arguments P2.process_acked : simpl never.

(** A SACK pair the sender keeps: parse_ack drops the pair (0, 0). *)
Definition kept (b : Z * Z) : bool := negb ((b.1 =? 0) && (b.2 =? 0)).

(** Whatever create_ack packs, parse_ack reads back: the cumulative value,
    and the first two SACK pairs but for (0, 0), which is the padding. *)
Lemma parse_create_ack c blocks ack :
  Wire.create_ack c blocks = Ok ack →
  Wire.parse_ack ack = Ok (Some c, List.filter kept (take 2 blocks)).
Proof.
  unfold Wire.create_ack.
  intros (cb & (c3 & c2 & c1 & c0 & -> & Hc)%RoundTrip.pack_u32_inv
          & Hrest)%rbind_Ok.
  apply rbind_Ok in Hrest as (parts & Hparts & [= <-]).
  destruct blocks as [|[s1 e1] [|[s2 e2] blocks]].
  - injection Hparts as <-.
    unfold Wire.parse_ack, Wire.parse_block. simpl. by rewrite Hc.
  - simpl in Hparts.
    apply rbind_Ok in Hparts
      as (ps & (p3 & p2 & p1 & p0 & -> & Hs)%RoundTrip.pack_u32_inv & Hparts).
    apply rbind_Ok in Hparts
      as (pe & (q3 & q2 & q1 & q0 & -> & He)%RoundTrip.pack_u32_inv & [= <-]).
    unfold Wire.parse_ack, Wire.parse_block. simpl.
    rewrite Hc, Hs, He. unfold kept. simpl.
    by destruct ((s1 =? 0) && (e1 =? 0)).
  - change (take 2 ((s1, e1) :: (s2, e2) :: blocks))
      with [(s1, e1); (s2, e2)] in *.
    simpl in Hparts.
    apply rbind_Ok in Hparts
      as (ps & (p3 & p2 & p1 & p0 & -> & Hs)%RoundTrip.pack_u32_inv & Hparts).
    apply rbind_Ok in Hparts
      as (pe & (q3 & q2 & q1 & q0 & -> & He)%RoundTrip.pack_u32_inv & Hparts).
    apply rbind_Ok in Hparts as (rest & Hparts & [= <-]).
    apply rbind_Ok in Hparts
      as (ps2 & (r3 & r2 & r1 & r0 & -> & Hs2)%RoundTrip.pack_u32_inv & Hparts).
    apply rbind_Ok in Hparts
      as (pe2 & (t3 & t2 & t1 & t0 & -> & He2)%RoundTrip.pack_u32_inv & [= <-]).
    unfold Wire.parse_ack, Wire.parse_block. simpl.
    rewrite Hc, Hs, He, Hs2, He2. unfold kept. simpl.
    by destruct ((s1 =? 0) && (e1 =? 0)), ((s2 =? 0) && (e2 =? 0)).
Qed.

(** The ACK the receiver builds in state [st], as the sender reads it. *)
Lemma current_ack_parsed (st : Client.state) recent ack :
  Client.current_ack st recent = Ok ack →
  ∃ blocks,
    Wire.parse_ack ack = Ok (Some (Client.next_expected_seq st), blocks)
    ∧ Forall (SackBlocks.block_within (Client.received_seqs st)) blocks.
Proof.
  intros Hack%parse_create_ack. eexists. split; [exact Hack|].
  apply Forall_forall. intros b Hb%list_elem_of_In%filter_In.
  destruct Hb as [Hb%list_elem_of_In%elem_of_take _].
  destruct Hb as (i & Hb%list_elem_of_lookup_2 & _).
  pose proof (SackBlocks.find_sack_blocks_within (Client.received_seqs st) recent)
    as Hall.
  rewrite Forall_forall in Hall. by apply Hall.
Qed.

Lemma p1_released_is_covered now cum_ack blocks total pb tr est log tr' est' log' x :
  P1.process_acked now cum_ack blocks total pb (tr, est, log)
    = Ok (tr', est', log') →
  x ∈ unacked tr → x ∉ unacked tr' → P1Facts.covers total cum_ack blocks x.
Proof.
  rewrite P1Facts.p1_process_acked_unfold.
  destruct (P1Facts.p1_newly_acked_spec total cum_ack blocks (unacked tr))
    as [(_ & _ & ->)|(S & -> & HN)]; [done|]. simpl.
  intros [Hun _]%release_loop_sets Hx Hnot. rewrite Hun in Hnot.
  destruct (decide (x ∈ Sender.sorted (P1.collect_sack total (unacked tr) blocks S)))
    as [Hin|Hnin].
  - apply elem_of_sorted, HN in Hin. tauto.
  - destruct Hnot. apply elem_of_difference. split; [done|].
    by rewrite elem_of_list_to_set.
Qed.

Lemma p2_released_is_covered now cum_ack blocks pb tr est log tr' est' log' x :
  P2.process_acked now cum_ack blocks pb (tr, est, log) = Ok (tr', est', log') →
  x ∈ unacked tr → x ∉ unacked tr' → P2Facts.covers cum_ack blocks x.
Proof.
  rewrite P2Facts.p2_process_acked_unfold.
  destruct (P2Facts.p2_newly_acked_spec cum_ack blocks (unacked tr))
    as [(_ & _ & ->)|(S & -> & HN)]; [done|]. simpl.
  intros [Hun _]%release_loop_sets Hx Hnot. rewrite Hun in Hnot.
  destruct (decide (x ∈ Sender.sorted (P2.collect_sack (unacked tr) blocks S)))
    as [Hin|Hnin].
  - apply elem_of_sorted, HN in Hin. tauto.
  - destruct Hnot. apply elem_of_difference. split; [done|].
    by rewrite elem_of_list_to_set.
Qed.

(** The senders release only what the receiver has got.  When either sender
    processes an ACK that the receiver built in the state [st], every packet
    it takes out of unacked is below the receiver's cursor (delivered to the
    output) or in the receiver's buffer; and the cumulative value the sender
    reads is the receiver's next_expected_seq. *)
Theorem released_packets_were_received :
  (∀ (st : Client.state) recent ack clk (snd snd' : P1.state),
     Client.current_ack st recent = Ok ack →
     P1.on_ack clk ack snd = Ok snd' →
     (∃ blocks, Wire.parse_ack ack
                = Ok (Some (Client.next_expected_seq st), blocks))
     ∧ ∀ x, x ∈ unacked (P1.trk snd) → x ∉ unacked (P1.trk snd') →
            x < Client.next_expected_seq st ∨ x ∈ Client.received_seqs st)
  ∧ (∀ cube_root (st : Client.state) recent ack clk (snd snd' : P2.state),
       Client.current_ack st recent = Ok ack →
       P2.on_ack cube_root clk ack snd = Ok snd' →
       (∃ blocks, Wire.parse_ack ack
                  = Ok (Some (Client.next_expected_seq st), blocks))
       ∧ ∀ x, x ∈ unacked (P2.trk snd) → x ∉ unacked (P2.trk snd') →
              x < Client.next_expected_seq st ∨ x ∈ Client.received_seqs st).
Proof.
  split.
  - intros st recent ack clk snd snd' Hack Hon.
    destruct (current_ack_parsed _ _ _ Hack) as (blocks & Hparse & Hwithin).
    split; [eauto|]. intros x Hx Hnot.
    destruct (SenderSteps.p1_on_ack_process _ _ _ _ _ _ Hon Hparse)
      as (tr1 & est2 & log2 & (_ & Hu1 & _) & Hp & _).
    rewrite <- Hu1 in Hx.
    destruct (p1_released_is_covered _ _ _ _ _ _ _ _ _ _ _ _ Hp Hx Hnot)
      as [(c & [= <-] & Hlt)|Hex]; [by left|].
    right. apply Exists_exists in Hex as (b & Hb & Hin).
    rewrite Forall_forall in Hwithin. destruct (Hwithin b Hb) as [_ Hmem].
    apply Hmem. lia.
  - intros cube_root st recent ack clk snd snd' Hack Hon.
    destruct (current_ack_parsed _ _ _ Hack) as (blocks & Hparse & Hwithin).
    split; [eauto|]. intros x Hx Hnot.
    destruct (SenderSteps.p2_on_ack_process _ _ _ _ _ _ _ Hon Hparse)
      as (tr1 & est2 & log2 & (_ & Hu1 & _) & Hp & _).
    rewrite <- Hu1 in Hx.
    destruct (p2_released_is_covered _ _ _ _ _ _ _ _ _ _ _ Hp Hx Hnot)
      as [(c & [= <-] & Hlt)|Hex]; [by left|].
    right. apply Exists_exists in Hex as (b & Hb & Hin).
    rewrite Forall_forall in Hwithin. destruct (Hwithin b Hb) as [_ Hmem].
    by apply Hmem.
Qed.

End AckSafety.

(** ** A whole session without loss *)

Module Session.
Import Tracker Sender TrackerFacts.

#[local] Arguments retransmit : simpl never.
#[local] Arguments py_eqb : simpl never.
#[local] Arguments P1.process_acked : simpl never.
#[local] Arguments Wire.create_packet : simpl never.
#[local] Arguments Wire.create_ack : simpl never.
#[local] Arguments Wire.parse_ack : simpl never.
#[local] Arguments Wire.parse_packet : simpl never.
#[local] Arguments Client.find_sack_blocks : simpl never.
#[local] Arguments P1.send_new : simpl never.
#[local] Arguments P1.on_ack : simpl never.

(** [pkts] are the data packets of the payloads [pk], numbered from [k]. *)
Fixpoint are_packets (k : Z) (pk : list (list byte)) (pkts : list (list byte))
  : Prop :=
  match pk, pkts with
  | [], [] => True
  | chunk :: pk', pkt :: pkts' =>
      Wire.create_packet k chunk = Ok pkt ∧ are_packets (k + 1) pk' pkts'
  | _, _ => False
  end.

(** [acks] are plain ACKs with the cumulative values k + 1, k + 2, ... *)
Fixpoint are_acks (k : Z) (acks : list (list byte)) : Prop :=
  match acks with
  | [] => True
  | ack :: acks' =>
      Wire.parse_ack ack = Ok (Some (k + 1), []) ∧ are_acks (k + 1) acks'
  end.


Lemma are_packets_app k pk1 pk2 pkts1 pkts2 :
  are_packets k pk1 pkts1 →
  are_packets (k + Z.of_nat (length pk1)) pk2 pkts2 →
  are_packets k (pk1 ++ pk2) (pkts1 ++ pkts2).
Proof.
  revert k pkts1. induction pk1 as [|c pk1 IH]; intros k [|p pkts1]; simpl;
    try done.
  - intros _. by rewrite Z.add_0_r.
  - intros [Hp H1] H2. split; [done|]. apply IH; [done|].
    by replace (k + 1 + Z.of_nat (length pk1))
      with (k + Z.pos (Pos.of_succ_nat (length pk1))) by lia.
Qed.

Lemma are_acks_app k acks1 acks2 :
  are_acks k acks1 → are_acks (k + Z.of_nat (length acks1)) acks2 →
  are_acks k (acks1 ++ acks2).
Proof.
  revert k. induction acks1 as [|a acks1 IH]; intros k; simpl.
  - intros _. by rewrite Z.add_0_r.
  - intros [Ha H1] H2. split; [done|]. apply IH; [done|].
    by replace (k + 1 + Z.of_nat (length acks1))
      with (k + Z.pos (Pos.of_succ_nat (length acks1))) by lia.
Qed.

(** *** The receiver, given the packets in order *)



(** *** The sender's first turn, with a window that holds the file *)




(** *** The sender, fed the receiver's ACKs *)






(** *** The whole session *)



End Session.

(** ** A whole session of the CUBIC sender without loss *)

Module CubicSession.
Import Tracker Sender TrackerFacts.

#[local] Arguments retransmit : simpl never.
#[local] Arguments py_eqb : simpl never.
#[local] Arguments P2.process_acked : simpl never.
#[local] Arguments Wire.create_packet : simpl never.
#[local] Arguments Wire.create_ack : simpl never.
#[local] Arguments Wire.parse_ack : simpl never.
#[local] Arguments Wire.parse_packet : simpl never.
#[local] Arguments P2.send_new : simpl never.
#[local] Arguments P2.on_ack : simpl never.
#[local] Arguments P2.cubic_update : simpl never.



Section drive.

Variable cube_root : Q → Q.
Variables pk pkts : list (list byte).
Hypothesis Hpkts : Session.are_packets 0 pk pkts.
Hypothesis Hsizes :
  Forall (λ chunk, 0 < Z.of_nat (length chunk) ≤ Wire.DATA_SIZE) pk.










End drive.



End CubicSession.
